(** * auditcounts.js: streaming merge-join of directory counts

    A shallow embedding of lib/job-assets/dcaudit/auditcounts.js: the line
    parser (SplitStream), the N-way sorted merge (JoinStream) and the
    classifier (AuditStream), together with the properties the design
    document states about them.

    Conventions.
    - A JavaScript string is a [string]: a sequence of code units, here
      restricted to code units below 256.  The relational operators of
      JavaScript on two strings compare code units lexicographically, which
      is [String_as_OT.compare].
    - A JavaScript number that is finite is kept by its exact decimal value
      [m * 10^e].  This agrees with the IEEE double the interpreter holds
      whenever that value is exactly representable, in particular for every
      integer of magnitude below 2^53.  Counts are integers ([Z]); [-0] and
      [+0] are not told apart (the program never does: it only uses [===],
      [!=], [||] and JSON.stringify on them).
    - [null] is [None]. *)

From Stdlib Require Import List String Ascii ZArith NArith Bool Arith Lia.
From Stdlib Require Import OrdersEx Sorted RelationClasses DecimalString.
From Stdlib Require DecimalZ.
Import ListNotations.
Local Open Scope string_scope.
Local Open Scope list_scope.

(** ** JavaScript primitives used by the program *)

Module JS.

(** Code-unit tests. *)

Definition code (c : ascii) : nat := nat_of_ascii c.

Definition in_range (lo hi : nat) (c : ascii) : bool :=
  (lo <=? code c)%nat && (code c <=? hi)%nat.

(** WhiteSpace and LineTerminator code units below 256: TAB, LF, VT, FF, CR,
    SP and NBSP.  This is the set [String.prototype.trim] strips, the set
    the regular expression class [\s] matches, and StrWhiteSpaceChar. *)
Definition is_ws (c : ascii) : bool :=
  in_range 9 13 c || (code c =? 32)%nat || (code c =? 160)%nat.

Definition is_digit (c : ascii) : bool := in_range 48 57 c.

Definition digit_val (c : ascii) : Z := (Z.of_nat (code c) - 48)%Z.

(** Value of a hexadecimal digit, when it is one. *)
Definition hex_val (c : ascii) : option Z :=
  if is_digit c then Some (digit_val c)
  else if in_range 97 102 c then Some (Z.of_nat (code c) - 87)%Z
  else if in_range 65 70 c then Some (Z.of_nat (code c) - 55)%Z
  else None.

(** Longest prefix whose code units satisfy [p], and the rest. *)
Fixpoint span (p : ascii -> bool) (s : string) : string * string :=
  match s with
  | EmptyString => (EmptyString, EmptyString)
  | String c r =>
      if p c then let '(a, b) := span p r in (String c a, b)
      else (EmptyString, s)
  end.

Fixpoint trim_left (s : string) : string :=
  match s with
  | EmptyString => EmptyString
  | String c r => if is_ws c then trim_left r else s
  end.

Fixpoint trim_right (s : string) : string :=
  match s with
  | EmptyString => EmptyString
  | String c r =>
      match trim_right r with
      | EmptyString => if is_ws c then EmptyString else String c EmptyString
      | t => String c t
      end
  end.

(** [String.prototype.trim]. *)
Definition trim (s : string) : string := trim_right (trim_left s).

(** Value of a digit string in the given radix, most significant first;
    [None] when a code unit is not a digit of that radix. *)
Fixpoint radix_val (radix : Z) (acc : Z) (s : string) : option Z :=
  match s with
  | EmptyString => Some acc
  | String c r =>
      match hex_val c with
      | Some d => if (d <? radix)%Z then radix_val radix (radix * acc + d)%Z r
                  else None
      | None => None
      end
  end.

Fixpoint digits_val (acc : Z) (s : string) : Z :=
  match s with
  | EmptyString => acc
  | String c r => digits_val (10 * acc + digit_val c)%Z r
  end.

(** Number values. *)
Inductive number : Type :=
| NaN : number
| Infinity (negative : bool) : number
| Dec (m e : Z) : number.   (* m * 10^e *)

Definition isNaN (x : number) : bool :=
  match x with NaN => true | _ => false end.

Definition of_int (n : Z) : number := Dec n 0.

(** [x == y] on numbers. *)
Definition num_eqb (x y : number) : bool :=
  match x, y with
  | Dec m1 e1, Dec m2 e2 =>
      let e := Z.min e1 e2 in
      (m1 * 10 ^ (e1 - e) =? m2 * 10 ^ (e2 - e))%Z
  | Infinity a, Infinity b => Bool.eqb a b
  | _, _ => false
  end.

(** [x < y] on numbers. *)
Definition num_ltb (x y : number) : bool :=
  match x, y with
  | Dec m1 e1, Dec m2 e2 =>
      let e := Z.min e1 e2 in
      (m1 * 10 ^ (e1 - e) <? m2 * 10 ^ (e2 - e))%Z
  | Infinity true, Infinity true => false
  | Infinity true, (Infinity false | Dec _ _) => true
  | Dec _ _, Infinity false => true
  | _, _ => false
  end.

(** Optional sign in front of a literal. *)
Definition strip_sign (s : string) : bool * string :=
  match s with
  | String "-" r => (true, r)
  | String "+" r => (false, r)
  | _ => (false, s)
  end.

(** [parseInt(s, 10)]: leading white space is skipped, then an optional
    sign, then the longest run of decimal digits; [None] is NaN. *)
Definition parseInt10 (s : string) : option Z :=
  let '(neg, body) := strip_sign (trim_left s) in
  let '(ds, _) := span is_digit body in
  match ds with
  | EmptyString => None
  | _ => let v := digits_val 0 ds in Some (if neg then (- v)%Z else v)
  end.

(** ExponentPart of a StrDecimalLiteral: nothing, or [e]/[E], an optional
    sign and at least one digit, up to the end of the text. *)
Definition exponent_part (s : string) : option Z :=
  match s with
  | EmptyString => Some 0%Z
  | String c r =>
      if (code c =? 101)%nat || (code c =? 69)%nat then
        let '(neg, body) := strip_sign r in
        match span is_digit body with
        | (String d ds, EmptyString) =>
            let v := digits_val 0 (String d ds) in
            Some (if neg then (- v)%Z else v)
        | _ => None
        end
      else None
  end.

(** StrUnsignedDecimalLiteral other than [Infinity]. *)
Definition unsigned_decimal (s : string) : option (Z * Z) :=
  let '(ip, r1) := span is_digit s in
  let '(fp, r2) :=
    match r1 with
    | String "." r => span is_digit r
    | _ => (EmptyString, r1)
    end in
  match (ip ++ fp)%string with
  | EmptyString => None
  | ds =>
      match exponent_part r2 with
      | Some x => Some (digits_val 0 ds, (x - Z.of_nat (String.length fp))%Z)
      | None => None
      end
  end.

(** A [0x], [0o] or [0b] literal (either letter case). *)
Definition non_decimal (s : string) : option (option Z) :=
  match s with
  | String "0" (String c r) =>
      let radix :=
        if (code c =? 120)%nat || (code c =? 88)%nat then Some 16%Z
        else if (code c =? 111)%nat || (code c =? 79)%nat then Some 8%Z
        else if (code c =? 98)%nat || (code c =? 66)%nat then Some 2%Z
        else None in
      match radix with
      | Some b =>
          Some (match r with
                | EmptyString => None
                | _ => radix_val b 0 r
                end)
      | None => None
      end
  | _ => None
  end.

(** ToNumber applied to a string (StringNumericLiteral), which is what the
    loose comparisons [==], [!=], [<] and [>] do to a string operand when the
    other operand is a number or [null]. *)
Definition StringToNumber (s : string) : number :=
  match trim s with
  | EmptyString => Dec 0 0
  | t =>
      match non_decimal t with
      | Some (Some v) => Dec v 0
      | Some None => NaN
      | None =>
          let '(neg, body) := strip_sign t in
          if String.eqb body "Infinity" then Infinity neg
          else match unsigned_decimal body with
               | Some (m, e) => Dec (if neg then (- m)%Z else m) e
               | None => NaN
               end
      end
  end.

(** [s != n] for a string [s] and a number [n]. *)
Definition str_neq_num (s : string) (n : number) : bool :=
  negb (num_eqb (StringToNumber s) n).

(** [a < b] on two strings. *)
Definition str_ltb (a b : string) : bool :=
  match String_as_OT.compare a b with Lt => true | _ => false end.

(** [a < b] where [a] is a string and [b] a string or [null]: with [null]
    both sides are converted to numbers, and [null] converts to [+0]. *)
Definition lt_nullable (a : string) (b : option string) : bool :=
  match b with
  | Some b' => str_ltb a b'
  | None => num_ltb (StringToNumber a) (of_int 0)
  end.

(** [a == b] where [a] is a string and [b] a string or [null]. *)
Definition eq_nullable (a : string) (b : option string) : bool :=
  match b with
  | Some b' => String.eqb a b'
  | None => false
  end.

(** The decimal rendering of an integer, which is what converting an
    integer number to a string gives. *)
Definition render (n : Z) : string :=
  DecimalString.NilZero.string_of_int (Z.to_int n).

End JS.

(** ** JSON.parse, as far as the program looks at its result

    The program parses field 2 only to validate it: it needs to know whether
    the text is JSON at all and whether the value is a string.  The decoded
    code units of a string are kept so that they can be compared with what
    is passed on. *)

Module JSON.

Import JS.

Inductive value : Type :=
| VString (units : list N)
| VOther.

Definition dquote : ascii := "034"%char.
Definition backslash : ascii := "092"%char.

Definition is_json_ws (c : ascii) : bool :=
  (code c =? 32)%nat || (code c =? 9)%nat || (code c =? 10)%nat
  || (code c =? 13)%nat.

Fixpoint skip_ws (s : string) : string :=
  match s with
  | EmptyString => EmptyString
  | String c r => if is_json_ws c then skip_ws r else s
  end.

(** The code unit a single-character escape stands for. *)
Definition escape_unit (c : ascii) : option N :=
  if Ascii.eqb c dquote then Some 34%N
  else if Ascii.eqb c backslash then Some 92%N
  else match c with
       | "/"%char => Some 47%N
       | "b"%char => Some 8%N
       | "f"%char => Some 12%N
       | "n"%char => Some 10%N
       | "r"%char => Some 13%N
       | "t"%char => Some 9%N
       | _ => None
       end.

Definition hex4 (a b c d : ascii) : option N :=
  match hex_val a, hex_val b, hex_val c, hex_val d with
  | Some x, Some y, Some z, Some w =>
      Some (Z.to_N (((x * 16 + y) * 16 + z) * 16 + w))
  | _, _, _, _ => None
  end.

(** The characters of a string literal after its opening quote, up to and
    including the closing quote: the decoded code units and the rest. *)
Fixpoint string_body (s : string) : option (list N * string) :=
  match s with
  | EmptyString => None
  | String c r =>
      if Ascii.eqb c dquote then Some ([], r)
      else if Ascii.eqb c backslash then
        match r with
        | String "u" (String h1 (String h2 (String h3 (String h4 r')))) =>
            match hex4 h1 h2 h3 h4, string_body r' with
            | Some u, Some (us, t) => Some (u :: us, t)
            | _, _ => None
            end
        | String e r' =>
            match escape_unit e, string_body r' with
            | Some u, Some (us, t) => Some (u :: us, t)
            | _, _ => None
            end
        | EmptyString => None
        end
      else if (code c <? 32)%nat then None
      else match string_body r with
           | Some (us, t) => Some (N_of_ascii c :: us, t)
           | None => None
           end
  end.

Fixpoint strip_prefix (p s : string) : option string :=
  match p, s with
  | EmptyString, _ => Some s
  | String a p', String b s' => if Ascii.eqb a b then strip_prefix p' s' else None
  | String _ _, EmptyString => None
  end.

(** A run of one or more digits. *)
Definition digits1 (s : string) : option string :=
  match span is_digit s with
  | (String _ _, r) => Some r
  | _ => None
  end.

(** A JSON number: the rest of the text after it. *)
Definition number_token (s : string) : option string :=
  let body := match s with String "-" r => r | _ => s end in
  let after_int :=
    match body with
    | String "0" r => Some r
    | _ => digits1 body
    end in
  let after_frac :=
    match after_int with
    | Some (String "." r) => digits1 r
    | other => other
    end in
  match after_frac with
  | Some (String c r) =>
      if (code c =? 101)%nat || (code c =? 69)%nat then
        digits1 (match r with
                 | String "+" r' => r'
                 | String "-" r' => r'
                 | _ => r
                 end)
      else after_frac
  | other => other
  end.

(** [true], [false], [null] or a number. *)
Definition scalar_token (s : string) : option string :=
  match strip_prefix "true" s, strip_prefix "false" s, strip_prefix "null" s with
  | Some r, _, _ => Some r
  | _, Some r, _ => Some r
  | _, _, Some r => Some r
  | _, _, _ => number_token s
  end.

(** The elements of an array after the first bracket, given the parser of
    one element. *)
Fixpoint elements (elem : string -> option (value * string)) (n : nat)
    (t : string) : option (value * string) :=
  match n with
  | O => None
  | S n' =>
      match elem t with
      | Some (_, String "," t') => elements elem n' t'
      | Some (_, String "]" t') => Some (VOther, skip_ws t')
      | _ => None
      end
  end.

(** The members of an object after the first brace. *)
Fixpoint members (elem : string -> option (value * string)) (n : nat)
    (t : string) : option (value * string) :=
  match n with
  | O => None
  | S n' =>
      match skip_ws t with
      | String q t1 =>
          if Ascii.eqb q dquote then
            match string_body t1 with
            | Some (_, t2) =>
                match skip_ws t2 with
                | String ":" t3 =>
                    match elem t3 with
                    | Some (_, String "," t') => members elem n' t'
                    | Some (_, String "}" t') => Some (VOther, skip_ws t')
                    | _ => None
                    end
                | _ => None
                end
            | None => None
            end
          else None
      | EmptyString => None
      end
  end.

(** One JSON value with the white space around it; the fuel bounds the
    nesting depth and the number of elements, and the length of the text is
    always enough. *)
Fixpoint element (fuel : nat) (s : string) : option (value * string) :=
  match fuel with
  | O => None
  | S f =>
      match skip_ws s with
      | EmptyString => None
      | String c r =>
          if Ascii.eqb c dquote then
            match string_body r with
            | Some (us, t) => Some (VString us, skip_ws t)
            | None => None
            end
          else if Ascii.eqb c "["%char then
            match skip_ws r with
            | String "]" t => Some (VOther, skip_ws t)
            | _ => elements (element f) f r
            end
          else if Ascii.eqb c "{"%char then
            match skip_ws r with
            | String "}" t => Some (VOther, skip_ws t)
            | _ => members (element f) f r
            end
          else
            match scalar_token (String c r) with
            | Some t => Some (VOther, skip_ws t)
            | None => None
            end
      end
  end.

(** [JSON.parse(s)]: [None] when it throws a SyntaxError. *)
Definition parse (s : string) : option value :=
  match element (S (String.length s)) s with
  | Some (v, EmptyString) => Some v
  | _ => None
  end.

(** A string literal: the text between double quotes. *)
Definition quoted (s : string) : string :=
  String dquote (s ++ String dquote EmptyString)%string.

Definition hex_digit (n : nat) : ascii :=
  ascii_of_nat (if (n <? 10)%nat then 48 + n else 87 + n).

(** The text JSON.stringify writes for one code unit of a string. *)
Definition escape (c : ascii) : string :=
  if Ascii.eqb c dquote then String backslash (String dquote EmptyString)
  else if Ascii.eqb c backslash
  then String backslash (String backslash EmptyString)
  else match code c with
       | 8%nat => String backslash "b"
       | 9%nat => String backslash "t"
       | 10%nat => String backslash "n"
       | 12%nat => String backslash "f"
       | 13%nat => String backslash "r"
       | n =>
           if (n <? 32)%nat
           then String backslash
                  (String "u" (String "0" (String "0"
                     (String (hex_digit (n / 16))
                        (String (hex_digit (n mod 16)) EmptyString)))))
           else String c EmptyString
       end.

Fixpoint escape_all (s : string) : string :=
  match s with
  | EmptyString => EmptyString
  | String c r => (escape c ++ escape_all r)%string
  end.

(** [JSON.stringify(s)] for a string. *)
Definition stringify (s : string) : string := quoted (escape_all s).

End JSON.

(** ** strsplit(str, /\s+/, limit)

    The strsplit package, for a positive [limit], applies the pattern at
    most [limit - 1] times and puts everything after the last separator it
    used in the last field. *)

Fixpoint split_ws (times : nat) (s : string) : list string :=
  match times with
  | O => [s]
  | S n =>
      match JS.span (fun c => negb (JS.is_ws c)) s with
      | (_, EmptyString) => [s]
      | (field, rest) => field :: split_ws n (JS.trim_left rest)
      end
  end.

Definition strsplit (s : string) (limit : nat) : list string :=
  split_ws (limit - 1) s.

(** A record as the parser pushes it: [[ count, parts[1] ]]. *)
Definition datum : Type := (Z * string)%type.

(** ** SplitStream: one line of text to one record or one warning *)

Module SplitStream.

(** What one call of a transform did: the warnings it raised through
    [vsWarn] (by their kind) and the objects it pushed, in order. *)
Record effects : Type := mkEffects {
  warned : list string;
  pushed : list datum
}.

Definition vsWarn (kind : string) : effects := mkEffects [kind] [].
Definition push (d : datum) : effects := mkEffects [] [d].

(** [SplitStream.prototype._transform]. *)
Definition _transform (line : string) : effects :=
  let line := JS.trim line in
  let parts := strsplit line 2 in
  match parts with
  | [p0; p1] =>
      (* count = parseInt(parts[0], 10);
         if (isNaN(count) || parts[0].toString() != count) *)
      match JS.parseInt10 p0 with
      | None => vsWarn "not an integer"
      | Some count =>
          if JS.str_neq_num p0 (JS.of_int count) then vsWarn "not an integer"
          else
            match JSON.parse p1 with
            | None => vsWarn "invalid JSON"
            | Some (JSON.VString _) => push (count, p1)
            | Some JSON.VOther => vsWarn "not a string"
            end
      end
  | _ => vsWarn "line garbled"
  end.

(** The stream applied to the lines of one file: every line goes through
    [_transform]; the effects accumulate. *)
Definition run (lines : list string) : effects :=
  fold_left
    (fun acc line =>
       let e := _transform line in
       mkEffects (warned acc ++ warned e) (pushed acc ++ pushed e))
    lines (mkEffects [] []).

End SplitStream.

(** A joined row as JoinStream pushes it:
    [[ join key, value from stream 1, value from stream 2, ... ]]. *)
Record row : Type := mkRow {
  row_key : string;
  row_slots : list (option datum)
}.

(** ** AuditStream: one joined row to at most one diagnostic *)

Module AuditStream.

(** The object [emitRowRaw] builds; what it pushes is the serialisation of
    that object, [serialize] below. *)
Record diagnostic : Type := mkDiagnostic {
  dirname : string;
  ndirents : Z;
  nreported : Z;
  status : string
}.

(** The chunk pushed for a diagnostic: the JSON text of the object with
    its four properties in the order they were written, and a newline. *)
Definition serialize (d : diagnostic) : string :=
  ("{" ++ JSON.quoted "dirname" ++ ":" ++ JSON.stringify (dirname d)
   ++ "," ++ JSON.quoted "ndirents" ++ ":" ++ JS.render (ndirents d)
   ++ "," ++ JSON.quoted "nreported" ++ ":" ++ JS.render (nreported d)
   ++ "," ++ JSON.quoted "status" ++ ":" ++ JSON.stringify (status d)
   ++ "}" ++ String "010"%char EmptyString)%string.

(** [x || 0] for a count or [null]. *)
Definition or0 (x : option Z) : Z :=
  match x with
  | Some n => if (n =? 0)%Z then 0%Z else n
  | None => 0%Z
  end.

(** [a != b] for two counts or [null]s. *)
Definition loose_neq (a b : option Z) : bool :=
  match a, b with
  | Some x, Some y => negb (x =? y)%Z
  | None, None => false
  | _, _ => true
  end.

(** [AuditStream.prototype.emitRowRaw]; its four type assertions hold by
    typing. *)
Definition emitRowRaw (dirname : string) (rawcount count : Z)
    (message : string) : list diagnostic :=
  [ mkDiagnostic dirname rawcount count message ].

(** [AuditStream.prototype.emitRow]: the diagnostics pushed, or [None] when
    an assertion fails. *)
Definition emitRow (as_verbose : bool) (dirname : string)
    (rawcount count : option Z) : option (list diagnostic) :=
  let message : option string := None in
  (* if (count === null) *)
  match
    match count with
    | None =>
        match rawcount with
        | None => None                  (* assert.ok(rawcount !== null) *)
        | Some r =>
            Some (Some (if (r =? 0)%Z
                        then "warn: missing optimized count"
                        else "error: count mismatch (no optimized count)"))
        end
    | Some _ => Some message
    end
  with
  | None => None
  | Some message =>
      (* if (rawcount === null) *)
      match
        match rawcount with
        | None =>
            match count with
            | None => None              (* assert.ok(count !== null) *)
            | Some c =>
                Some (Some (if (c =? 0)%Z
                            then "warn: leaked optimized count"
                            else "error: count mismatch (no entries)"))
            end
        | Some _ => Some message
        end
      with
      | None => None
      | Some message =>
          (* if (message === null && count != rawcount) *)
          let message :=
            match message with
            | None => if loose_neq count rawcount
                      then Some "error: count mismatch" else None
            | Some _ => message
            end in
          (* if (message === null) *)
          match message with
          | None =>
              if negb as_verbose then Some []
              else Some (emitRowRaw dirname (or0 rawcount) (or0 count)
                           "count okay")
          | Some m =>
              Some (emitRowRaw dirname (or0 rawcount) (or0 count) m)
          end
      end
  end.

(** [AuditStream.prototype._transform]: the entry must have exactly three
    elements (the key and two slots). *)
Definition _transform (as_verbose : bool) (entry : row)
    : option (list diagnostic) :=
  match row_slots entry with
  | [e1; e2] =>
      emitRow as_verbose (row_key entry)
        (match e1 with None => None | Some d => Some (fst d) end)
        (match e2 with None => None | Some d => Some (fst d) end)
  | _ => None                           (* assert.equal(entry.length, 3) *)
  end.

End AuditStream.

(** ** JoinStream: the N-way sorted merge *)

Module JoinStream.

(** One entry of [js_sources].  [src_stream] stands for the upstream
    SplitStream: the records it has yet to hand over through [read()]. *)
Record source : Type := mkSource {
  src_stream : list datum;
  src_next : option datum;
  src_next_join : option string;
  src_last_join : option string;
  src_done : bool
}.

(** What the stream has handed to the outside, oldest first: a row given to
    [push], the [push(null)] that ends the stream, the ['error'] event of an
    out-of-order source, or an assertion that threw. *)
Inductive output : Type :=
| Row (r : row)
| EndOfStream
| Error (i : nat)
| AssertionFailed.

Record t : Type := mkJoin {
  js_waiting : bool;
  js_working : bool;
  js_sources : list source;
  js_trace : list output
}.

(** [new JoinStream({ joinOnIndex: 1, sources: ... })]. *)
Definition create (inputs : list (list datum)) : t :=
  mkJoin false false
    (map (fun records => mkSource records None None None false) inputs)
    [].

(** [datum[this.js_joinidx]]; the program joins on index 1. *)
Definition join_field (d : datum) : string := snd d.

(** What the environment decides during one pass of [kick]: whether
    [read()] on source [i] finds the next record when the upstream still has
    one, and, at the end of the data, whether the ['end'] handler of source
    [i] runs before [read()] returns. *)
Record choice : Type := mkChoice {
  available : nat -> bool;
  ended_in_read : nat -> bool
}.

(** [src.src_stream.read()] for source [i]. *)
Definition read (c : choice) (i : nat) (src : source)
    : option datum * source :=
  match src_stream src with
  | d :: rest =>
      if available c i
      then (Some d, mkSource rest (src_next src) (src_next_join src)
                      (src_last_join src) (src_done src))
      else (None, src)
  | [] =>
      (None,
       if ended_in_read c i
       then mkSource [] (src_next src) (src_next_join src)
              (src_last_join src) true
       else src)
  end.

Inductive pull_status : Type := Ready | Blocked | Disorder.

(** The body of the first loop of [kick] for source [i]. *)
Definition pull1 (c : choice) (i : nat) (src : source)
    : source * pull_status :=
  match src_next src with
  | Some _ => (src, Ready)
  | None =>
      if src_done src then (src, Ready)
      else
        match read c i src with
        | (None, src') => (src', if src_done src' then Ready else Blocked)
        | (Some d, src') =>
            let src'' :=
              mkSource (src_stream src') (Some d) (Some (join_field d))
                (src_last_join src') (src_done src') in
            (src'',
             if JS.lt_nullable (join_field d) (src_last_join src')
             then Disorder else Ready)
        end
  end.

Inductive pull_result : Type :=
| Pulled (srcs : list source) (blocked : bool)
| OutOfOrder (i : nat) (srcs : list source).

(** The first loop of [kick], from source [i] on.  [blocked] is the
    disjunction the loop accumulates; on a source out of order the loop is
    left at once and the later sources are not looked at. *)
Fixpoint pull (c : choice) (i : nat) (srcs : list source) : pull_result :=
  match srcs with
  | [] => Pulled [] false
  | src :: rest =>
      match pull1 c i src with
      | (src', Disorder) => OutOfOrder i (src' :: rest)
      | (src', st) =>
          match pull c (S i) rest with
          | Pulled l b =>
              Pulled (src' :: l)
                (match st with Blocked => true | _ => false end || b)
          | OutOfOrder j l => OutOfOrder j (src' :: l)
          end
      end
  end.

(** The body of the second loop of [kick]: [joinkey] after source [src]:
    [if (src.src_next_join !== null &&
         (joinkey === null || joinkey > src.src_next_join))]. *)
Definition earlier (joinkey : option string) (src : source) : option string :=
  match src_next_join src with
  | Some k =>
      match joinkey with
      | None => Some k
      | Some j => if JS.str_ltb k j then Some k else joinkey
      end
  | None => joinkey
  end.

(** The second loop of [kick]: the earliest join key among the sources. *)
Definition earliest (srcs : list source) : option string :=
  fold_left earlier srcs None.

(** The body of the third loop of [kick]: the slot of the source in the
    output and the source afterwards. *)
Definition take (joinkey : string) (src : source) : option datum * source :=
  if JS.eq_nullable joinkey (src_next_join src)
  then (src_next src,
        mkSource (src_stream src) None None (src_next_join src) (src_done src))
  else (None, src).

Definition emit (o : output) (js : t) (srcs : list source) : t :=
  mkJoin (js_waiting js) false srcs (js_trace js ++ [o]).

(** One pass through the body of [kick], up to the recursive call: the
    state afterwards and whether a row was pushed. *)
Definition pass (c : choice) (js : t) : t * bool :=
  if js_waiting js || js_working js then
    (emit AssertionFailed js (js_sources js), false)
  else
    match pull c 0 (js_sources js) with
    | OutOfOrder i srcs => (emit (Error i) js srcs, false)
    | Pulled srcs true =>
        (mkJoin true (js_working js) srcs (js_trace js), false)
    | Pulled srcs false =>
        match earliest srcs with
        | None =>
            if (List.length (filter (fun s => negb (src_done s)) srcs) =? 0)%nat
            then (emit EndOfStream js srcs, false)
            else (emit AssertionFailed js srcs, false)
        | Some joinkey =>
            let output :=
              mkRow joinkey (map (fun s => fst (take joinkey s)) srcs) in
            (emit (Row output) js (map (fun s => snd (take joinkey s)) srcs),
             true)
        end
    end.

(** [JoinStream.prototype.kick].  The list holds the choices of the passes
    after the first: [push(output)] returns true exactly as long as the
    list goes on. *)
Fixpoint kick (c : choice) (more : list choice) (js : t) : t :=
  let '(js', pushed) := pass c js in
  match more with
  | c' :: more' => if pushed then kick c' more' js' else js'
  | [] => js'
  end.

(** [JoinStream.prototype._read]. *)
Definition _read (c : choice) (more : list choice) (js : t) : t :=
  if js_working js || js_waiting js then js else kick c more js.

(** [JoinStream.prototype.kickIfWaiting]. *)
Definition kickIfWaiting (c : choice) (more : list choice) (js : t) : t :=
  if negb (js_waiting js) then js
  else kick c more (mkJoin false (js_working js) (js_sources js) (js_trace js)).

(** The ['end'] handler of source [i]: [src.src_done = true]. *)
Fixpoint mark_done (i : nat) (srcs : list source) : list source :=
  match srcs, i with
  | [], _ => []
  | src :: rest, O =>
      mkSource (src_stream src) (src_next src) (src_next_join src)
        (src_last_join src) true :: rest
  | src :: rest, S i' => src :: mark_done i' rest
  end.

Definition is_fatal (o : output) : bool :=
  match o with Error _ | AssertionFailed => true | _ => false end.

Definition is_end (o : output) : bool :=
  match o with EndOfStream => true | _ => false end.

(** The process is gone: the ['error'] listener is cmdutil's [fail], which
    exits, and an uncaught assertion ends the process as well. *)
Definition exited (js : t) : bool := existsb is_fatal (js_trace js).

(** The readable side has been ended by [push(null)]. *)
Definition ended (js : t) : bool := existsb is_end (js_trace js).

(** What can happen to the stream from outside. *)
Inductive event : Type :=
| WantData (c : choice) (more : list choice)
| SourceReadable (i : nat) (c : choice) (more : list choice)
| SourceEnded (i : nat) (c : choice) (more : list choice).

(** One turn of the event loop.  Nothing runs once the process has exited;
    the stream framework does not call [_read] after [push(null)]; a source
    emits ['end'] only when all its records have been read. *)
Definition dispatch (e : event) (js : t) : t :=
  if exited js then js
  else
    match e with
    | WantData c more => if ended js then js else _read c more js
    | SourceReadable _ c more => kickIfWaiting c more js
    | SourceEnded i c more =>
        match nth_error (js_sources js) i with
        | Some src =>
            match src_stream src with
            | [] =>
                kickIfWaiting c more
                  (mkJoin (js_waiting js) (js_working js)
                     (mark_done i (js_sources js)) (js_trace js))
            | _ :: _ => js
            end
        | None => js
        end
    end.

Definition run (es : list event) (js : t) : t :=
  fold_left (fun js e => dispatch e js) es js.

(** The rows pushed so far, oldest first. *)
Definition rows (js : t) : list row :=
  flat_map (fun o => match o with Row r => [r] | _ => [] end) (js_trace js).

(** The environment that always has the next record at hand and reports
    the end of a source at once. *)
Definition prompt : choice := mkChoice (fun _ => true) (fun _ => true).

End JoinStream.

(** ** main(): the pipeline *)

Module Main.

(** [streamWarn]: the listener of every SplitStream's ['warn'] event. *)
Definition streamWarn (nwarnings : nat) : nat := S nwarnings.

(** What a run leaves behind: the diagnostics for the rows JoinStream
    pushed ([None] if an assertion of AuditStream threw), the value of
    [nwarnings] once every line is parsed, and whether the joined stream
    ended or the process exited on a fatal error.  For a run that
    completed these are what was written and counted; a process that
    exits on a fatal error may go before all of it is written. *)
Record result : Type := mkResult {
  diagnostics : option (list AuditStream.diagnostic);
  nwarnings : nat;
  completed : bool;
  failed : bool
}.

(** [cmpstream.pipe(process.stdout)]: the lines written. *)
Definition stdout (r : result) : option (list string) :=
  match diagnostics r with
  | Some ds => Some (map AuditStream.serialize ds)
  | None => None
  end.

(** [joinstream.pipe(cmpstream)]: every row goes through AuditStream. *)
Fixpoint audit (verbose : bool) (rs : list row)
    : option (list AuditStream.diagnostic) :=
  match rs with
  | [] => Some []
  | r :: rest =>
      match AuditStream._transform verbose r, audit verbose rest with
      | Some ds, Some more => Some (ds ++ more)
      | _, _ => None
      end
  end.

(** The program on the lines of its input files (two of them, or it prints
    its usage message and stops), under a schedule of the event loop. *)
Definition auditcounts (verbose : bool) (files : list (list string))
    (schedule : list JoinStream.event) : option result :=
  match files with
  | [_; _] =>
      let sources := map SplitStream.run files in
      let joinstream :=
        JoinStream.run schedule
          (JoinStream.create (map SplitStream.pushed sources)) in
      Some (mkResult
              (audit verbose (JoinStream.rows joinstream))
              (fold_left (fun n _ => streamWarn n)
                 (flat_map SplitStream.warned sources) 0%nat)
              (JoinStream.ended joinstream)
              (JoinStream.exited joinstream))
  | _ => None
  end.

(** A schedule under which every record is at hand when asked for and the
    consumer always has room: one call of [_read] does all the work. *)
Definition eager (files : list (list string)) : list JoinStream.event :=
  [ JoinStream.WantData JoinStream.prompt
      (repeat JoinStream.prompt
         (fold_left (fun n f => (n + List.length f)%nat) files 0%nat)) ].

End Main.

(** ** Vocabulary of the properties *)

Import JoinStream.

(** Code-unit order on key tokens. *)
Definition key_lt (a b : string) : Prop := JS.str_ltb a b = true.

(** The code units of a string. *)
Definition units (s : string) : list N :=
  map N_of_ascii (list_ascii_of_string s).

(** A key token as the parser lets it through starts with a double quote. *)
Definition key_token (k : string) : bool :=
  match k with
  | String c _ => Ascii.eqb c JSON.dquote
  | EmptyString => false
  end.

Definition keys (l : list datum) : list string := map join_field l.

(** A well-formed input: key tokens only, strictly increasing (sorted, one
    record per key). *)
Definition well_formed (inp : list datum) : Prop :=
  Forall (fun d => key_token (join_field d) = true) inp /\
  StronglySorted key_lt (keys inp).

(** The record a source holds that it has read and not yet joined. *)
Definition buffered (src : source) : list datum :=
  match src_next src with Some d => [d] | None => [] end.

(** What a source has yet to contribute. *)
Definition pending (src : source) : list datum :=
  buffered src ++ src_stream src.

Definition slot (i : nat) (r : row) : option datum :=
  nth i (row_slots r) None.

Definition slot_list (i : nat) (r : row) : list datum :=
  match slot i r with Some d => [d] | None => [] end.

(** The records of source [i] that are part of a pushed row, in order. *)
Definition joined (i : nat) (js : t) : list datum :=
  flat_map (slot_list i) (rows js).

Definition last_key (l : list datum) : option string :=
  last (map (fun d => Some (join_field d)) l) None.

(** The records of source [i] read so far. *)
Definition pulled (i : nat) (js : t) : list datum :=
  joined i js ++
  match nth_error (js_sources js) i with
  | Some src => buffered src
  | None => []
  end.

(** The state of one source against its input and its joined records. *)
Record source_ok (inp hist : list datum) (src : source) : Prop := {
  so_conserve : inp = hist ++ pending src;
  so_sync : src_next_join src = option_map join_field (src_next src);
  so_last : src_last_join src = last_key hist;
  so_done : src_done src = true -> src_stream src = []
}.

(** The shape of the trace: rows, then at most one closing output. *)
Inductive trace_shape : list output -> Prop :=
| shape_rows rs : trace_shape (map Row rs)
| shape_end rs : trace_shape (map Row rs ++ [EndOfStream])
| shape_error rs i : trace_shape (map Row rs ++ [Error i]).

(** A row as the third loop builds it. *)
Definition row_ok (n : nat) (r : row) : Prop :=
  List.length (row_slots r) = n /\
  (exists i d, slot i r = Some d) /\
  (forall i d, slot i r = Some d -> join_field d = row_key r).

(** The invariant of the stream for the inputs it was created on. *)
Record invariant (ins : list (list datum)) (js : t) : Prop := {
  inv_length : List.length (js_sources js) = List.length ins;
  inv_sources :
    forall i src, nth_error (js_sources js) i = Some src ->
      exists inp, nth_error ins i = Some inp /\
                  source_ok inp (joined i js) src;
  inv_working : js_working js = false;
  inv_shape : trace_shape (js_trace js);
  inv_rows : Forall (row_ok (List.length ins)) (rows js);
  inv_ended :
    ended js = true ->
    js_waiting js = false /\
    Forall (fun s => src_done s = true /\ src_next s = None) (js_sources js)
}.

(** How one pass of the first loop may change a source. *)
Inductive pulls (src : source) : source -> pull_status -> Prop :=
| pulls_keep :
    src_next src <> None \/ src_done src = true ->
    pulls src src Ready
| pulls_wait :
    src_next src = None -> src_done src = false ->
    pulls src src Blocked
| pulls_end :
    src_next src = None -> src_done src = false -> src_stream src = [] ->
    pulls src
      (mkSource [] None (src_next_join src) (src_last_join src) true)
      Ready
| pulls_data d rest :
    src_next src = None -> src_done src = false ->
    src_stream src = d :: rest ->
    pulls src
      (mkSource rest (Some d) (Some (join_field d)) (src_last_join src)
         (src_done src))
      (if JS.lt_nullable (join_field d) (src_last_join src)
       then Disorder else Ready).

(** The key of the row pushed last. *)
Definition last_row_key (rs : list row) : option string :=
  last (map (fun r => Some (row_key r)) rs) None.

(** [a <= b] on key tokens. *)
Definition key_le (a b : string) : Prop := JS.str_ltb b a = false.

(** The order facts that hold whatever the inputs are: no buffered key is
    below a pushed row, and a source that is about to read was part of the
    last row (unless nothing was pushed yet). *)
Record src_ordered (rs : list row) (src : source) : Prop := {
  ord_next :
    forall r k, In r rs -> src_next_join src = Some k -> key_le (row_key r) k;
  ord_last :
    src_next src = None ->
    rs = [] \/ src_stream src = [] \/ src_last_join src = last_row_key rs
}.

(** Rows never go back, and every source is in order with them. *)
Record ordered (js : t) : Prop := {
  ord_rows : StronglySorted key_le (map row_key (rows js));
  ord_sources : Forall (src_ordered (rows js)) (js_sources js)
}.

(** Input [inp] has a record below its predecessor. *)
Definition disordered (inp : list datum) : Prop :=
  exists pre d1 d2 post,
    inp = pre ++ d1 :: d2 :: post /\
    JS.str_ltb (join_field d2) (join_field d1) = true.

(** The run is over: the stream ended or the process exited. *)
Definition finished (js : t) : bool := ended js || exited js.

(** The sources after the first loop, however it was left. *)
Definition pull_sources (r : pull_result) : list source :=
  match r with Pulled l _ => l | OutOfOrder _ l => l end.

(** What holds on well-formed inputs: the process is alive, the rows are
    strictly increasing, and every record yet to be joined is above every
    row pushed. *)
Record ahead (js : t) : Prop := {
  ahead_alive : exited js = false;
  ahead_rows : StronglySorted key_lt (map row_key (rows js));
  ahead_pending :
    forall r src d, In r (rows js) -> In src (js_sources js) ->
      In d (pending src) -> key_lt (row_key r) (join_field d)
}.

(** The number of records yet to be joined. *)
Definition backlog (srcs : list source) : nat :=
  list_sum (map (fun s => List.length (pending s)) srcs).

(** An event that lets the stream run to its end from where it is: every
    record is at hand and the consumer has room for all of them. *)
Definition finish (js : t) : event :=
  let passes := repeat prompt (backlog (js_sources js)) in
  if js_waiting js then SourceReadable 0 prompt passes
  else WantData prompt passes.

(** ** The statements of the design document

    The definitions below follow the words of the design document; they are
    what the code is compared with. *)

(** The count in a slot of a row. *)
Definition count_of (e : option datum) : option Z :=
  match e with Some d => Some (fst d) | None => None end.

(** The count a diagnostic reports for a slot: the count, or 0 when the
    slot is absent. *)
Definition count_or_zero (e : option datum) : Z :=
  match e with Some d => fst d | None => 0%Z end.

(** The decision table of the classifier, row by row; a joined row always
    has one slot populated, so the table has no line for two absent
    slots. *)
Definition decision_table (raw reported : option Z) : option string :=
  match raw, reported with
  | Some r, Some c =>
      Some (if (r =? c)%Z then "count okay" else "error: count mismatch")
  | Some r, None =>
      Some (if (r =? 0)%Z then "warn: missing optimized count"
            else "error: count mismatch (no optimized count)")
  | None, Some c =>
      Some (if (c =? 0)%Z then "warn: leaked optimized count"
            else "error: count mismatch (no entries)")
  | None, None => None
  end.

(** A row with status [st] is left out when it is fine and the stream is
    not verbose. *)
Definition suppressed (verbose : bool) (st : string) : bool :=
  String.eqb st "count okay" && negb verbose.

(** A canonical count: a non-negative integer whose rendering is the field
    itself. *)
Definition canonical (field : string) : bool :=
  match JS.parseInt10 field with
  | Some n => (0 <=? n)%Z && String.eqb (JS.render n) field
  | None => false
  end.

(** The two input files of the end-to-end scenario. *)
Definition scenario_A : list string :=
  [ ("3 " ++ JSON.quoted "a")%string;
    ("5 " ++ JSON.quoted "b")%string;
    ("2 " ++ JSON.quoted "c")%string ].

Definition scenario_B : list string :=
  [ ("3 " ++ JSON.quoted "a")%string;
    ("0 " ++ JSON.quoted "b")%string;
    ("7 " ++ JSON.quoted "d")%string ].

(** The counts and the status of a diagnostic. *)
Definition summary (d : AuditStream.diagnostic) : Z * Z * string :=
  (AuditStream.ndirents d, AuditStream.nreported d, AuditStream.status d).

(** The number of times the stream was ended. *)
Definition end_count (js : t) : nat :=
  List.length (filter is_end (js_trace js)).

(** Small runs used to exercise the statements: one source whose second
    record is below its first, one source whose two records have the same
    key, and the schedule of a single pass that finds every record at
    hand. *)
Definition example_disorder : list (list datum) :=
  [ [(1%Z, JSON.quoted "b"); (1%Z, JSON.quoted "a")] ].

Definition example_equal_keys : list (list datum) :=
  [ [(1%Z, JSON.quoted "a"); (2%Z, JSON.quoted "a")] ].

Definition example_first_pass : list event := [ WantData prompt [] ].

(** ** The process: its arguments and its exit status *)

Module Process.

(** How the process stands: it has exited with a status, it has died of an
    assertion that threw, or it is still running. *)
Inductive status : Type :=
| Exit (code : Z)
| Threw
| Running.

(** The start of [main]: [filenames = process.argv.slice(2)], and a first
    argument [-v] is taken off as the verbose flag. *)
Definition arguments (argv : list string) : bool * list string :=
  match argv with
  | a :: rest => if String.eqb a "-v" then (true, rest) else (false, argv)
  | [] => (false, [])
  end.

(** [endReport], the listener of the ['end'] event of the AuditStream:
    [process.exit(1)] when a warning was counted; otherwise it returns and
    the process ends on its own with status 0, [done] being set. *)
Definition endReport (nwarnings : nat) : Z :=
  if (0 <? nwarnings)%nat then 1%Z else 0%Z.

Definition threw (o : JoinStream.output) : bool :=
  match o with JoinStream.AssertionFailed => true | _ => false end.

(** [main] on the arguments of the command line, under a schedule of the
    event loop; [contents] gives the lines of a file by its name.  With
    other than two file names cmdutil's [usage] prints the synopsis and
    exits with status 2; cmdutil's [fail], the listener of the ['error']
    event of the JoinStream, exits with status 1; an assertion of the
    JoinStream or of the AuditStream throws. *)
Definition main (argv : list string) (contents : string -> list string)
    (schedule : list JoinStream.event) : status :=
  let '(verbose, filenames) := arguments argv in
  match filenames with
  | [_; _] =>
      let sources := map (fun name => SplitStream.run (contents name)) filenames in
      let nwarnings :=
        fold_left (fun n _ => Main.streamWarn n)
          (flat_map SplitStream.warned sources) 0%nat in
      let joinstream :=
        JoinStream.run schedule
          (JoinStream.create (map SplitStream.pushed sources)) in
      if existsb threw (JoinStream.js_trace joinstream) then Threw
      else
        match Main.audit verbose (JoinStream.rows joinstream) with
        | None => Threw
        | Some _ =>
            if JoinStream.exited joinstream then Exit 1
            else if JoinStream.ended joinstream then Exit (endReport nwarnings)
            else Running
        end
  | _ => Exit 2
  end.

End Process.

(** A line the parser turns down with a warning. *)
Definition rejected (line : string) : bool :=
  match SplitStream.warned (SplitStream._transform line) with
  | [] => false
  | _ :: _ => true
  end.

(** ** Vocabulary of the further properties *)

(** A text made of white space only (possibly empty). *)
Definition blank (s : string) : bool :=
  forallb JS.is_ws (list_ascii_of_string s).

(** A text without any white space in it (possibly empty). *)
Definition unbroken (s : string) : bool :=
  forallb (fun c => negb (JS.is_ws c)) (list_ascii_of_string s).

(** The last code unit of a text. *)
Fixpoint last_char (s : string) : option ascii :=
  match s with
  | EmptyString => None
  | String c EmptyString => Some c
  | String _ r => last_char r
  end.

(** The record of an input with a given key, if it has one. *)
Definition record_of (k : string) (inp : list datum) : option datum :=
  find (fun d => String.eqb (join_field d) k) inp.

(** A schedule that asks for one row at a time: [n] calls of [_read], each
    finding every record at hand and the consumer full after one row. *)
Definition one_by_one (n : nat) : list event :=
  repeat (WantData prompt []) n.

(** A record that reports a row whose counts agree. *)
Definition count_okay (d : AuditStream.diagnostic) : bool :=
  String.eqb (AuditStream.status d) "count okay".

(** A text without a line feed in it. *)
Definition single_line (s : string) : bool :=
  forallb (fun c => negb (Ascii.eqb c "010"%char)) (list_ascii_of_string s).

(** The records the program writes when every directory has the same
    count on both sides, and when only one side has counts at all. *)
Definition agreeing (d : datum) : AuditStream.diagnostic :=
  AuditStream.mkDiagnostic (snd d) (fst d) (fst d) "count okay".

Definition raw_only (d : datum) : AuditStream.diagnostic :=
  AuditStream.mkDiagnostic (snd d) (fst d) 0
    (if (fst d =? 0)%Z then "warn: missing optimized count"
     else "error: count mismatch (no optimized count)").

Definition reported_only (d : datum) : AuditStream.diagnostic :=
  AuditStream.mkDiagnostic (snd d) 0 (fst d)
    (if (fst d =? 0)%Z then "warn: leaked optimized count"
     else "error: count mismatch (no entries)").

(** A small file system for exercising [main]: the two files of the
    end-to-end scenario under the names the job gives them, and a file
    with a line that is no record. *)
Definition example_contents (name : string) : list string :=
  if String.eqb name "raw_counts.txt" then scenario_A
  else if String.eqb name "reported_counts.txt" then scenario_B
  else if String.eqb name "garbled.txt" then ["garbled"]
  else [].

(** The environment in which no source has anything to offer yet. *)
Definition starved : choice := mkChoice (fun _ => false) (fun _ => false).

(** [s.substr(n)]: the text from position [n] on. *)
Fixpoint substr (n : nat) (s : string) : string :=
  match n, s with
  | O, _ => s
  | S n', String _ r => substr n' r
  | S _, EmptyString => EmptyString
  end.

(** * pgjxfields.js: fields of a JSON-ified table dump

    The program that writes the input files of auditcounts.js.  Its
    ExtractorStream takes the objects a JSON parser made of the lines of a
    dump: first a header object with the column names under [keys], then
    one object per row with the values under [entry]. *)

Module ExtractorStream.

Set Warnings "-register-all".

(** A value as the JSON parser hands it on.  The members of an object are
    kept in the order in which the object enumerates them, with distinct
    names. *)
Inductive value : Type :=
| Null
| Bool (b : bool)
| Number (n : JS.number)
| Str (s : string)
| Array (elements : list value)
| Object (members : list (string * value)).

(** [obj[name]] for an own property of an object. *)
Fixpoint lookup (name : string) (members : list (string * value))
    : option value :=
  match members with
  | [] => None
  | (k, v) :: rest => if String.eqb k name then Some v else lookup name rest
  end.

(** [obj.hasOwnProperty(name) && Array.isArray(obj[name])], as the stream
    asks it for the names [keys] and [entry], for an [obj] that passed
    [typeof (obj) == 'object' && obj !== null]: the elements of that array.
    An array has no own property of either name. *)
Definition own_array (name : string) (obj : value) : option (list value) :=
  match obj with
  | Object members =>
      match lookup name members with
      | Some (Array elements) => Some elements
      | _ => None
      end
  | _ => None
  end.

(** [typeof (obj) != 'object' || obj === null]. *)
Definition not_an_object (obj : value) : bool :=
  match obj with
  | Array _ | Object _ => false
  | _ => true
  end.

(** [f.lastIndexOf('@')]: [None] is -1. *)
Fixpoint lastIndexOf (c : ascii) (s : string) : option nat :=
  match s with
  | EmptyString => None
  | String x r =>
      match lastIndexOf c r with
      | Some i => Some (S i)
      | None => if Ascii.eqb x c then Some 0%nat else None
      end
  end.

(** The name and the type of a field given on the command line as
    [name] or [name@type]. *)
Definition field_spec (f : string) : string * string :=
  match lastIndexOf "@" f with
  | Some lat => (String.substring 0 lat f, substr (S lat) f)
  | None => (f, "string")
  end.

(** [keys.indexOf(f)] from position [i] on: the first element that is
    strictly equal to the string [f], or -1. *)
Fixpoint indexOf (i : Z) (f : string) (keys : list value) : Z :=
  match keys with
  | [] => (-1)%Z
  | Str s :: rest => if String.eqb s f then i else indexOf (i + 1) f rest
  | _ :: rest => indexOf (i + 1) f rest
  end.

(** The stream: [es_indexes] is [None] until the header row has come;
    from then on the three lists have the same length. *)
Record t : Type := mkExtractor {
  es_indexes : option (list Z);
  es_types : list string;
  es_fieldnames : list string
}.

(** [new ExtractorStream({}, fieldnames)]. *)
Definition create (fieldnames : list string) : t :=
  mkExtractor None [] fieldnames.

(** What one call of [_transform] did: the warnings raised through
    [vsWarn] (by their kind), the error handed to the callback, which the
    stream emits as ['error'], and the chunks pushed. *)
Record effects : Type := mkEffects {
  warned : list string;
  failed : option string;
  pushed : list string
}.

Definition nothing : effects := mkEffects [] None [].
Definition vsWarn (kind : string) : effects := mkEffects [kind] None [].
Definition fail (message : string) : effects := mkEffects [] (Some message) [].
Definition push (chunk : string) : effects := mkEffects [] None [chunk].

(** The field names whose index satisfies [p]:
    [es_fieldnames.filter(function (__, i) { return p(es_indexes[i]); })]. *)
Definition fields_where (p : Z -> bool) (fieldnames : list string)
    (indexes : list Z) : list string :=
  map fst (filter (fun fi => p (snd fi)) (combine fieldnames indexes)).

(** The first row: the header. *)
Definition header (es : t) (keys : list value) : t * effects :=
  let specs := map field_spec (es_fieldnames es) in
  let types := map snd specs in
  let indexes := map (fun sp => indexOf 0 (fst sp) keys) specs in
  let es' := mkExtractor (Some indexes) types (es_fieldnames es) in
  let missing :=
    fields_where (fun i => (i =? -1)%Z) (es_fieldnames es) indexes in
  if (0 <? List.length missing)%nat then
    (es', fail ("no such field(s): " ++ String.concat ", " missing))
  else
    let invalid :=
      filter (fun t => negb (String.eqb t "number")
                       && negb (String.eqb t "string")) types in
    if (0 <? List.length invalid)%nat then
      (es', fail ("unknown type(s): " ++ String.concat ", " invalid))
    else (es', nothing).

Section Numbers.

(** The decimal text of a number (Number::toString), which the embedding
    leaves open. *)
Variable number_text : JS.number -> string.

(** ToString of a value; an array is its elements joined by commas, [null]
    elements giving the empty text. *)
Fixpoint to_text (v : value) : string :=
  match v with
  | Null => "null"
  | Bool b => if b then "true" else "false"
  | Number n => number_text n
  | Str s => s
  | Array elements =>
      String.concat ","
        (map (fun e => match e with Null => EmptyString | _ => to_text e end)
           elements)
  | Object _ => "[object Object]"
  end.

(** [Number(v)]. *)
Definition to_number (v : value) : JS.number :=
  match v with
  | Null => JS.of_int 0
  | Bool b => JS.of_int (if b then 1 else 0)
  | Number n => n
  | Str s => JS.StringToNumber s
  | Array _ => JS.StringToNumber (to_text v)
  | Object _ => JS.NaN
  end.

(** [JSON.stringify(n)] for a number. *)
Definition stringify_number (n : JS.number) : string :=
  match n with
  | JS.Dec _ _ => number_text n
  | _ => "null"
  end.

(** [JSON.stringify(v)]. *)
Fixpoint stringify (v : value) : string :=
  match v with
  | Null => "null"
  | Bool b => if b then "true" else "false"
  | Number n => stringify_number n
  | Str s => JSON.stringify s
  | Array elements =>
      ("[" ++ String.concat "," (map stringify elements) ++ "]")%string
  | Object members =>
      ("{" ++ String.concat ","
                (map (fun m => (JSON.stringify (fst m) ++ ":"
                                ++ stringify (snd m))%string) members)
       ++ "}")%string
  end.

(** [obj['entry'][i]]: [None] is [undefined]. *)
Definition element (entry : list value) (i : Z) : option value :=
  if (i <? 0)%Z then None else nth_error entry (Z.to_nat i).

(** One element of [values]: the text of a field, or the error of a bad
    number ([inr], with its message). *)
Definition field_text (entry : list value) (i : Z) (type fieldname : string)
    : string + string :=
  if String.eqb type "number" then
    match element entry i with
    | Some rawvalue =>
        let value := to_number rawvalue in
        if JS.isNaN value
        then inr ("bad number in field " ++ JSON.quoted fieldname)%string
        else inl (stringify_number value)
    | None => inr ("bad number in field " ++ JSON.quoted fieldname)%string
    end
  else
    match element entry i with
    | Some rawvalue => inl (stringify rawvalue)
    | None => inl EmptyString
    end.

(** [values]: one element per index, with the type and the field name at
    the same position. *)
Fixpoint field_texts (entry : list value) (indexes : list Z)
    (types fieldnames : list string) : list (string + string) :=
  match indexes with
  | [] => []
  | i :: indexes' =>
      field_text entry i (hd EmptyString types) (hd EmptyString fieldnames)
      :: field_texts entry indexes' (tl types) (tl fieldnames)
  end.

Fixpoint first_error (values : list (string + string)) : option string :=
  match values with
  | [] => None
  | inr e :: _ => Some e
  | inl _ :: rest => first_error rest
  end.

Definition texts (values : list (string + string)) : list string :=
  flat_map (fun v => match v with inl s => [s] | inr _ => [] end) values.

(** A row after the header. *)
Definition row (es : t) (indexes : list Z) (obj : value) : effects :=
  match own_array "entry" obj with
  | None => vsWarn ("missing " ++ JSON.quoted "entry")
  | Some entry =>
      match fields_where (fun i => (Z.of_nat (List.length entry) <=? i)%Z)
              (es_fieldnames es) indexes with
      | _ :: _ => vsWarn "missing value"
      | [] =>
          let values :=
            field_texts entry indexes (es_types es) (es_fieldnames es) in
          match first_error values with
          | Some message => vsWarn message
          | None =>
              push (String.concat " " (texts values)
                    ++ String "010"%char EmptyString)
          end
      end
  end.

(** [ExtractorStream.prototype._transform]. *)
Definition _transform (es : t) (obj : value) : t * effects :=
  if not_an_object obj then (es, vsWarn "not an object")
  else
    match es_indexes es with
    | None =>
        match own_array "keys" obj with
        | None =>
            (es, mkEffects [("missing " ++ JSON.quoted "keys")%string]
                   (Some ("header row has no " ++ JSON.quoted "keys")%string)
                   [])
        | Some keys => header es keys
        end
    | Some indexes => (es, row es indexes obj)
    end.

(** The stream over the objects of a dump.  The listener of its ['error']
    event is cmdutil's [fail], which exits: nothing happens after an
    error. *)
Fixpoint run (es : t) (objs : list value) : effects :=
  match objs with
  | [] => nothing
  | obj :: rest =>
      let '(es', e) := _transform es obj in
      match failed e with
      | Some _ => e
      | None =>
          let e' := run es' rest in
          mkEffects (warned e ++ warned e') (failed e') (pushed e ++ pushed e')
      end
  end.

End Numbers.

End ExtractorStream.


(** A text without the sign [@] in it. *)
Definition no_at (s : string) : bool :=
  forallb (fun c => negb (Ascii.eqb c "@"%char)) (list_ascii_of_string s).




(** * lib/dcaudit.js: the job that runs the audit

    The parts of the launcher and of the reporter that decide on plain
    data: which objects of a listing are the two table dumps, and where
    the output of a job is. *)

Module DcAudit.

(** jsprim's [startsWith(str, prefix)] and [endsWith(str, suffix)]. *)
Fixpoint startsWith (str prefix : string) : bool :=
  match prefix, str with
  | EmptyString, _ => true
  | String p prefix', String c str' =>
      Ascii.eqb c p && startsWith str' prefix'
  | String _ _, EmptyString => false
  end.

Definition endsWith (str suffix : string) : bool :=
  String.eqb
    (substr (String.length str - String.length suffix) str)
    suffix.

(** An entry of a directory listing. *)
Record dirent : Type := mkDirent {
  type : string;
  name : string
}.

(** The two fields of the launch that the listing fills in. *)
Record shard_files : Type := mkShardFiles {
  aj_entry_manta : option dirent;
  aj_entry_dircounts : option dirent
}.

(** The listener of the ['entry'] event in [stageListShardFiles]. *)
Definition onEntry (aj : shard_files) (entry : dirent) : shard_files :=
  if negb (String.eqb (type entry) "object") then aj
  else if negb (endsWith (name entry) ".gz") then aj
  else if startsWith (name entry) "manta-" then
    mkShardFiles (Some entry) (aj_entry_dircounts aj)
  else if startsWith (name entry) "manta_directory_counts-" then
    mkShardFiles (aj_entry_manta aj) (Some entry)
  else aj.

(** [stageListShardFiles] over the entries of the listing, in order. *)
Definition stageListShardFiles (entries : list dirent) : shard_files :=
  fold_left onEntry entries (mkShardFiles None None).

(** [stageCheckShardFiles]: the error it hands on, if any. *)
Definition stageCheckShardFiles (aj : shard_files) : option string :=
  match aj_entry_manta aj with
  | None => Some (JSON.quoted "manta" ++ " table backup not found")%string
  | Some _ =>
      match aj_entry_dircounts aj with
      | None =>
          Some (JSON.quoted "manta_directory_counts"
                ++ " table backup not found")%string
      | Some _ => None
      end
  end.

(** [jobPath.indexOf('/') == -1]. *)
Definition no_slash (s : string) : bool :=
  forallb (fun c => negb (Ascii.eqb c "/"%char)) (list_ascii_of_string s).

(** [jobObjectPath]. *)
Definition jobObjectPath (jobPath obj : string) : string :=
  let jobPath :=
    if no_slash jobPath then String.concat "/" ["/poseidon/jobs"; jobPath]
    else jobPath in
  String.concat "/" [jobPath; obj].

(** [data.split('\n')]. *)
Fixpoint split_lines (data : string) : list string :=
  match data with
  | EmptyString => [EmptyString]
  | String c r =>
      if Ascii.eqb c "010"%char then EmptyString :: split_lines r
      else
        match split_lines r with
        | first :: rest => String c first :: rest
        | [] => [String c EmptyString]
        end
  end.

(** The check of [reportFetchJobOutputs] on the contents of [out.txt]: the
    path of the output object, or [None] for the error
    [unexpected format]. *)
Definition output_path (data : string) : option string :=
  match split_lines data with
  | [path; second] => if String.eqb second EmptyString then Some path else None
  | _ => None
  end.

End DcAudit.

(** A table dump among the entries of a listing. *)
Definition is_dump (prefix : string) (entry : DcAudit.dirent) : bool :=
  String.eqb (DcAudit.type entry) "object"
  && DcAudit.endsWith (DcAudit.name entry) ".gz"
  && DcAudit.startsWith (DcAudit.name entry) prefix.

(** A record read from the other side: the two counts change places, and
    a status that names one side becomes the status that names the
    other. *)
Definition mirrored_status (st : string) : string :=
  if String.eqb st "warn: missing optimized count"
  then "warn: leaked optimized count"
  else if String.eqb st "warn: leaked optimized count"
  then "warn: missing optimized count"
  else if String.eqb st "error: count mismatch (no optimized count)"
  then "error: count mismatch (no entries)"
  else if String.eqb st "error: count mismatch (no entries)"
  then "error: count mismatch (no optimized count)"
  else st.

Definition mirrored (d : AuditStream.diagnostic) : AuditStream.diagnostic :=
  AuditStream.mkDiagnostic (AuditStream.dirname d) (AuditStream.nreported d)
    (AuditStream.ndirents d) (mirrored_status (AuditStream.status d)).

(** A row of two sources with its slots exchanged. *)
Definition swapped (r : row) : row :=
  mkRow (row_key r) [slot 1 r; slot 0 r].

(** * Proofs *)

(** ** Order on key tokens *)

Lemma str_ltb_lt a b : JS.str_ltb a b = true <-> String_as_OT.lt a b.
Proof.
  unfold JS.str_ltb, String_as_OT.lt.
  destruct (String_as_OT.compare a b); split; congruence.
Qed.

Lemma str_ltb_irrefl a : JS.str_ltb a a = false.
Proof.
  destruct (JS.str_ltb a a) eqn:E; [|reflexivity].
  apply str_ltb_lt in E.
  exfalso; exact (StrictOrder_Irreflexive (R:=String_as_OT.lt) a E).
Qed.

Lemma str_ltb_trans a b c :
  JS.str_ltb a b = true -> JS.str_ltb b c = true -> JS.str_ltb a c = true.
Proof.
  rewrite !str_ltb_lt. apply (StrictOrder_Transitive (R:=String_as_OT.lt)).
Qed.

Lemma str_ltb_total a b :
  JS.str_ltb a b = false -> JS.str_ltb b a = false -> a = b.
Proof.
  intros H1 H2.
  destruct (String_as_OT.compare_spec a b) as [E|L|L].
  - exact E.
  - apply str_ltb_lt in L. congruence.
  - apply str_ltb_lt in L. congruence.
Qed.

Lemma str_ltb_asym a b : JS.str_ltb a b = true -> JS.str_ltb b a = false.
Proof.
  intros H. destruct (JS.str_ltb b a) eqn:E; [|reflexivity].
  pose proof (str_ltb_trans _ _ _ H E) as C.
  rewrite str_ltb_irrefl in C. discriminate.
Qed.

Lemma str_lt_le_trans a b c :
  JS.str_ltb a b = true -> JS.str_ltb c b = false -> JS.str_ltb a c = true.
Proof.
  intros H1 H2.
  destruct (JS.str_ltb b c) eqn:E.
  - eapply str_ltb_trans; eassumption.
  - rewrite <- (str_ltb_total _ _ E H2). exact H1.
Qed.

Lemma str_le_trans a b c :
  JS.str_ltb b a = false -> JS.str_ltb c b = false -> JS.str_ltb c a = false.
Proof.
  intros H1 H2.
  destruct (JS.str_ltb c a) eqn:E; [|reflexivity].
  pose proof (str_lt_le_trans _ _ _ E H1) as C.
  congruence.
Qed.

(** ** Lists *)

Lemma Forall2_nth_error_right {A B} (R : A -> B -> Prop) l l' :
  Forall2 R l l' ->
  forall i y, nth_error l' i = Some y ->
    exists x, nth_error l i = Some x /\ R x y.
Proof.
  induction 1 as [|x y l l' Hxy _ IH]; intros i z Hz.
  - destruct i; discriminate.
  - destruct i as [|i]; simpl in *.
    + inversion Hz; subst. eauto.
    + eauto.
Qed.

Lemma Forall2_same_length {A B} (R : A -> B -> Prop) l l' :
  Forall2 R l l' -> List.length l' = List.length l.
Proof. induction 1; simpl; congruence. Qed.

Lemma Forall2_In_right {A B} (R : A -> B -> Prop) l l' :
  Forall2 R l l' -> forall y, In y l' -> exists x, In x l /\ R x y.
Proof.
  induction 1 as [|x y l l' Hxy _ IH]; intros z Hz.
  - destruct Hz.
  - destruct Hz as [->|Hz].
    + exists x; split; [left; reflexivity|assumption].
    + destruct (IH _ Hz) as (x' & Hin & Hr). exists x'; split; [right|]; assumption.
Qed.

Lemma nth_nth_error {A} (l : list A) i d :
  nth i l d = match nth_error l i with Some x => x | None => d end.
Proof.
  revert i; induction l as [|a l IH]; intros [|i]; simpl; auto.
Qed.

Lemma last_snoc {A} (l : list A) x d : last (l ++ [x]) d = x.
Proof. apply last_last. Qed.

Lemma StronglySorted_snoc {A} (R : A -> A -> Prop) l x :
  StronglySorted R l -> Forall (fun y => R y x) l ->
  StronglySorted R (l ++ [x]).
Proof.
  induction 1 as [|a l Hs IH Ha]; intros Hall; simpl.
  - constructor; constructor.
  - inversion Hall; subst. constructor.
    + apply IH; assumption.
    + apply Forall_app; split; [assumption|]. constructor; [assumption|constructor].
Qed.

Lemma StronglySorted_app_inv {A} (R : A -> A -> Prop) l1 l2 :
  StronglySorted R (l1 ++ l2) ->
  StronglySorted R l1 /\ StronglySorted R l2 /\
  (forall x y, In x l1 -> In y l2 -> R x y).
Proof.
  induction l1 as [|a l1 IH]; simpl; intros H.
  - repeat split; [constructor|assumption|intros x y []].
  - inversion H as [|? ? Hs Ha]; subst.
    destruct (IH Hs) as (S1 & S2 & C).
    apply Forall_app in Ha; destruct Ha as [Ha1 Ha2].
    repeat split.
    + constructor; assumption.
    + assumption.
    + intros x y [->|Hx] Hy.
      * rewrite Forall_forall in Ha2. auto.
      * auto.
Qed.

(** ** The first loop of kick *)

Lemma pull1_pulls c i src :
  pulls src (fst (pull1 c i src)) (snd (pull1 c i src)).
Proof.
  unfold pull1.
  destruct (src_next src) eqn:Hn.
  - simpl. apply pulls_keep. left. congruence.
  - destruct (src_done src) eqn:Hd.
    + simpl. apply pulls_keep. right. assumption.
    + unfold read.
      destruct (src_stream src) as [|d rest] eqn:Hs.
      * destruct (ended_in_read c i); simpl.
        -- rewrite Hn. apply pulls_end; assumption.
        -- rewrite Hd. apply pulls_wait; assumption.
      * destruct (available c i); simpl.
        -- apply (pulls_data src d rest); assumption.
        -- rewrite Hd. apply pulls_wait; assumption.
Qed.

Lemma pulls_refl src : exists st, pulls src src st.
Proof.
  destruct (src_next src) eqn:Hn.
  - exists Ready. apply pulls_keep. left; congruence.
  - destruct (src_done src) eqn:Hd.
    + exists Ready. apply pulls_keep. right; assumption.
    + exists Blocked. apply pulls_wait; assumption.
Qed.

Lemma pull_all c srcs :
  forall i,
    Forall2 (fun s s' => exists st, pulls s s' st) srcs
      (pull_sources (pull c i srcs)).
Proof.
  induction srcs as [|src rest IH]; intros i; simpl.
  - constructor.
  - pose proof (pull1_pulls c i src) as Hp.
    destruct (pull1 c i src) as [src' st]; simpl in Hp.
    specialize (IH (S i)).
    assert (Hrest : Forall2 (fun s s' => exists st, pulls s s' st) rest rest).
    { clear. induction rest; constructor; auto using pulls_refl. }
    destruct st; destruct (pull c (S i) rest); simpl in *;
      constructor; eauto.
Qed.

Lemma pull_pulled c srcs :
  forall i l b,
    pull c i srcs = Pulled l b ->
    Forall2 (fun s s' => exists st, pulls s s' st /\ st <> Disorder /\
                                    (b = false -> st = Ready)) srcs l.
Proof.
  induction srcs as [|src rest IH]; intros i l b; simpl.
  - intros H; inversion H; subst. constructor.
  - pose proof (pull1_pulls c i src) as Hp.
    destruct (pull1 c i src) as [src' st]; simpl in Hp.
    destruct st.
    + destruct (pull c (S i) rest) as [l' b'|] eqn:E; [|discriminate].
      intros H; inversion H; subst. constructor.
      * exists Ready. repeat split; [assumption|discriminate].
      * simpl. eapply IH; eassumption.
    + destruct (pull c (S i) rest) as [l' b'|] eqn:E; [|discriminate].
      intros H; inversion H; subst. constructor.
      * exists Blocked. repeat split; [assumption|discriminate|discriminate].
      * specialize (IH _ _ _ E).
        eapply Forall2_impl; [|exact IH].
        intros s s' (st & H1 & H2 & _). exists st. repeat split; auto.
        discriminate.
    + discriminate.
Qed.

Lemma pull_out_of_order c srcs :
  forall i j l,
    pull c i srcs = OutOfOrder j l ->
    (i <= j)%nat /\
    exists s s', nth_error srcs (j - i) = Some s /\
                 nth_error l (j - i) = Some s' /\
                 pulls s s' Disorder.
Proof.
  induction srcs as [|src rest IH]; intros i j l; simpl.
  - discriminate.
  - pose proof (pull1_pulls c i src) as Hp.
    destruct (pull1 c i src) as [src' st]; simpl in Hp.
    destruct st.
    + destruct (pull c (S i) rest) as [|j' l'] eqn:E; [discriminate|].
      intros H; inversion H; subst.
      destruct (IH _ _ _ E) as (Hle & s & s' & H1 & H2 & H3).
      split; [lia|]. exists s, s'.
      replace (j - i)%nat with (S (j - S i)) by lia. simpl. auto.
    + destruct (pull c (S i) rest) as [|j' l'] eqn:E; [discriminate|].
      intros H; inversion H; subst.
      destruct (IH _ _ _ E) as (Hle & s & s' & H1 & H2 & H3).
      split; [lia|]. exists s, s'.
      replace (j - i)%nat with (S (j - S i)) by lia. simpl. auto.
    + intros H; inversion H; subst. split; [lia|].
      exists src, src'. rewrite Nat.sub_diag. simpl. auto.
Qed.

Lemma pulls_pending s s' st : pulls s s' st -> pending s' = pending s.
Proof.
  unfold pending, buffered.
  destruct 1 as [|? ?|Hn Hd Hs|d rest Hn Hd Hs]; simpl; try reflexivity.
  - rewrite Hn, Hs. reflexivity.
  - rewrite Hn, Hs. reflexivity.
Qed.

Lemma pulls_source_ok inp hist s s' st :
  pulls s s' st -> source_ok inp hist s -> source_ok inp hist s'.
Proof.
  intros Hp [Hc Hsy Hl Hd].
  pose proof (pulls_pending _ _ _ Hp) as Hpend.
  split.
  - rewrite Hpend. assumption.
  - destruct Hp as [|? ?|Hn Hd' Hs|d rest Hn Hd' Hs]; simpl; auto.
    rewrite Hsy, Hn. reflexivity.
  - destruct Hp; simpl; auto.
  - destruct Hp as [|? ?|Hn Hd' Hs|d rest Hn Hd' Hs]; simpl; auto.
    congruence.
Qed.

Lemma pulls_ready s s' :
  pulls s s' Ready -> src_next s' <> None \/ src_done s' = true.
Proof.
  inversion 1; subst; simpl; auto.
  left; discriminate.
Qed.

(** ** The second loop of kick *)

Lemma fold_earlier_none srcs :
  forall acc, fold_left earlier srcs acc = None ->
    acc = None /\ Forall (fun s => src_next_join s = None) srcs.
Proof.
  induction srcs as [|s rest IH]; intros acc H; simpl in *.
  - auto.
  - destruct (IH _ H) as [Ha Hr].
    unfold earlier in Ha.
    destruct (src_next_join s) eqn:E.
    + destruct acc; [destruct (JS.str_ltb s0 s1)|]; discriminate.
    + auto.
Qed.

Lemma fold_earlier_some srcs :
  forall acc j, fold_left earlier srcs acc = Some j ->
    (acc = Some j \/ exists s, In s srcs /\ src_next_join s = Some j) /\
    (forall a, acc = Some a -> JS.str_ltb a j = false) /\
    (forall s k, In s srcs -> src_next_join s = Some k ->
                 JS.str_ltb k j = false).
Proof.
  induction srcs as [|s rest IH]; intros acc j H; simpl in *.
  - subst. repeat split.
    + left; reflexivity.
    + intros a Ha; inversion Ha; subst. apply str_ltb_irrefl.
    + intros ? ? [].
  - destruct (IH _ _ H) as (H1 & H2 & H3). clear IH.
    unfold earlier in H1, H2.
    destruct (src_next_join s) as [k|] eqn:E.
    + destruct acc as [a|].
      * destruct (JS.str_ltb k a) eqn:L.
        -- repeat split.
           ++ right. destruct H1 as [H1|(s' & Hin & Hs')].
              ** inversion H1; subst. exists s; auto.
              ** exists s'; auto.
           ++ intros a' Ha'; inversion Ha'; subst.
              specialize (H2 _ eq_refl).
              apply str_ltb_asym in L.
              eapply str_le_trans; eassumption.
           ++ intros s' k' [->|Hin] Hk'.
              ** rewrite E in Hk'; inversion Hk'; subst. auto.
              ** eauto.
        -- repeat split.
           ++ destruct H1 as [H1|(s' & Hin & Hs')]; [left; assumption|].
              right; exists s'; auto.
           ++ assumption.
           ++ intros s' k' [->|Hin] Hk'.
              ** rewrite E in Hk'; inversion Hk'; subst.
                 specialize (H2 _ eq_refl).
                 eapply str_le_trans; eassumption.
              ** eauto.
      * repeat split.
        -- right. destruct H1 as [H1|(s' & Hin & Hs')].
           ++ inversion H1; subst. exists s; auto.
           ++ exists s'; auto.
        -- discriminate.
        -- intros s' k' [->|Hin] Hk'.
           ++ rewrite E in Hk'; inversion Hk'; subst. auto.
           ++ eauto.
    + repeat split.
      * destruct H1 as [H1|(s' & Hin & Hs')]; [left; assumption|].
        right; exists s'; auto.
      * assumption.
      * intros s' k' [->|Hin] Hk'; [congruence|eauto].
Qed.

Lemma earliest_none srcs :
  earliest srcs = None -> Forall (fun s => src_next_join s = None) srcs.
Proof. intros H. apply (fold_earlier_none _ _ H). Qed.

Lemma earliest_some srcs j :
  earliest srcs = Some j ->
  (exists s, In s srcs /\ src_next_join s = Some j) /\
  (forall s k, In s srcs -> src_next_join s = Some k ->
               JS.str_ltb k j = false).
Proof.
  intros H. destruct (fold_earlier_some _ _ _ H) as ([C|H1] & _ & H3).
  - discriminate.
  - auto.
Qed.

(** ** The third loop of kick *)

Lemma eq_nullable_true j o : JS.eq_nullable j o = true -> o = Some j.
Proof.
  destruct o as [k|]; simpl; [|discriminate].
  intros H. apply String.eqb_eq in H. congruence.
Qed.

Lemma take_source_ok inp hist j s :
  source_ok inp hist s ->
  source_ok inp
    (hist ++ match fst (take j s) with Some d => [d] | None => [] end)
    (snd (take j s)).
Proof.
  intros [Hc Hsy Hl Hd]. unfold take.
  destruct (JS.eq_nullable j (src_next_join s)) eqn:E; simpl.
  - apply eq_nullable_true in E.
    rewrite E in Hsy.
    destruct (src_next s) as [d|] eqn:Hn; [|discriminate].
    simpl in Hsy. inversion Hsy as [Hj].
    split; simpl.
    + rewrite Hc. unfold pending, buffered. rewrite Hn. simpl.
      rewrite <- app_assoc. reflexivity.
    + reflexivity.
    + unfold last_key. rewrite map_app. simpl. rewrite last_snoc.
      rewrite E. congruence.
    + assumption.
  - rewrite app_nil_r. split; assumption.
Qed.

Lemma take_slot_key j s d :
  src_next_join s = option_map join_field (src_next s) ->
  fst (take j s) = Some d -> join_field d = j /\ src_next_join s = Some j.
Proof.
  intros Hsy. unfold take.
  destruct (JS.eq_nullable j (src_next_join s)) eqn:E; simpl; [|discriminate].
  intros Hn. apply eq_nullable_true in E.
  rewrite Hn, E in Hsy. simpl in Hsy. inversion Hsy. split; congruence.
Qed.

Lemma take_hit j s :
  src_next_join s = option_map join_field (src_next s) ->
  src_next_join s = Some j -> exists d, fst (take j s) = Some d.
Proof.
  intros Hsy Hj. unfold take. rewrite Hj. simpl.
  rewrite String.eqb_refl. simpl.
  rewrite Hj in Hsy. destruct (src_next s) as [d|]; [eauto|discriminate].
Qed.

(** ** The trace *)

Lemma rows_emit_row r js srcs : rows (emit (Row r) js srcs) = rows js ++ [r].
Proof. unfold rows, emit; simpl. rewrite flat_map_app. reflexivity. Qed.

Lemma rows_emit_other o js srcs :
  (forall r, o <> Row r) -> rows (emit o js srcs) = rows js.
Proof.
  intros H. unfold rows, emit; simpl. rewrite flat_map_app. simpl.
  destruct o; try (rewrite app_nil_r; reflexivity).
  exfalso; eapply H; reflexivity.
Qed.

Lemma joined_rows i js js' : rows js' = rows js -> joined i js' = joined i js.
Proof. unfold joined. intros ->. reflexivity. Qed.

Lemma joined_snoc i js js' r :
  rows js' = rows js ++ [r] -> joined i js' = joined i js ++ slot_list i r.
Proof.
  unfold joined. intros ->. rewrite flat_map_app. simpl.
  rewrite app_nil_r. reflexivity.
Qed.

Lemma exited_emit o js srcs :
  exited (emit o js srcs) = exited js || is_fatal o.
Proof.
  unfold exited, emit; simpl. rewrite existsb_app. simpl.
  rewrite orb_false_r. reflexivity.
Qed.

Lemma ended_emit o js srcs :
  ended (emit o js srcs) = ended js || is_end o.
Proof.
  unfold ended, emit; simpl. rewrite existsb_app. simpl.
  rewrite orb_false_r. reflexivity.
Qed.

Lemma existsb_map_row (p : output -> bool) rs :
  (forall r, p (Row r) = false) -> existsb p (map Row rs) = false.
Proof.
  intros H. induction rs; simpl; [reflexivity|]. rewrite H. assumption.
Qed.

(** While the run is not over the trace holds rows only. *)
Lemma trace_rows_only js :
  trace_shape (js_trace js) -> exited js = false -> ended js = false ->
  js_trace js = map Row (rows js).
Proof.
  unfold exited, ended, rows. intros Hs Hx He.
  inversion Hs as [rs Hrs|rs Hrs|rs i Hrs].
  - clear. induction rs; simpl; [reflexivity|]. congruence.
  - rewrite <- Hrs in He. rewrite existsb_app in He. simpl in He.
    rewrite orb_true_r in He. discriminate.
  - rewrite <- Hrs in Hx. rewrite existsb_app in Hx. simpl in Hx.
    rewrite orb_true_r in Hx. discriminate.
Qed.

Lemma filter_not_done_empty srcs :
  Forall (fun s => src_done s = true) srcs ->
  List.length (filter (fun s => negb (src_done s)) srcs) = 0%nat.
Proof.
  induction 1 as [|s l Hs _ IH]; simpl; [reflexivity|].
  rewrite Hs. simpl. assumption.
Qed.

(** ** The invariant *)

Lemma create_nth_error ins i src :
  nth_error (js_sources (create ins)) i = Some src ->
  exists inp, nth_error ins i = Some inp /\
              src = mkSource inp None None None false.
Proof.
  unfold create; simpl. rewrite nth_error_map.
  destruct (nth_error ins i) as [inp|]; simpl; [|discriminate].
  intros H; inversion H; subst. eauto.
Qed.

Lemma create_invariant ins : invariant ins (create ins).
Proof.
  split.
  - unfold create; simpl. apply length_map.
  - intros i src H. apply create_nth_error in H.
    destruct H as (inp & Hi & ->). exists inp. split; [assumption|].
    split; simpl; try reflexivity. discriminate.
  - reflexivity.
  - apply (shape_rows []).
  - constructor.
  - discriminate.
Qed.

Lemma pulled_sources_ok ins js l :
  invariant ins js ->
  Forall2 (fun s s' => exists st, pulls s s' st) (js_sources js) l ->
  forall i src', nth_error l i = Some src' ->
    exists inp, nth_error ins i = Some inp /\
                source_ok inp (joined i js) src'.
Proof.
  intros Hinv Hall i src' Hi.
  destruct (Forall2_nth_error_right _ _ _ Hall _ _ Hi) as (src & Hsrc & st & Hst).
  destruct (inv_sources _ _ Hinv _ _ Hsrc) as (inp & Hinp & Hok).
  exists inp. split; [assumption|].
  eapply pulls_source_ok; eassumption.
Qed.

Lemma pulled_sync ins js l :
  invariant ins js ->
  Forall2 (fun s s' => exists st, pulls s s' st) (js_sources js) l ->
  forall s, In s l -> src_next_join s = option_map join_field (src_next s).
Proof.
  intros Hinv Hall s Hin.
  destruct (In_nth_error _ _ Hin) as (i & Hi).
  destruct (pulled_sources_ok _ _ _ Hinv Hall _ _ Hi) as (inp & _ & Hok).
  apply (so_sync _ _ _ Hok).
Qed.

Lemma slot_output j l i s :
  nth_error l i = Some s ->
  slot i (mkRow j (map (fun s => fst (take j s)) l)) = fst (take j s).
Proof.
  intros H. unfold slot; simpl. rewrite nth_nth_error, nth_error_map, H.
  reflexivity.
Qed.

Lemma slot_output_some j l i d :
  slot i (mkRow j (map (fun s => fst (take j s)) l)) = Some d ->
  exists s, nth_error l i = Some s /\ fst (take j s) = Some d.
Proof.
  unfold slot; simpl. rewrite nth_nth_error, nth_error_map.
  destruct (nth_error l i) as [s|]; simpl; [|discriminate].
  eauto.
Qed.

Lemma output_row_ok ins js l j :
  invariant ins js ->
  Forall2 (fun s s' => exists st, pulls s s' st) (js_sources js) l ->
  earliest l = Some j ->
  row_ok (List.length ins) (mkRow j (map (fun s => fst (take j s)) l)).
Proof.
  intros Hinv Hall He.
  repeat split.
  - simpl. rewrite length_map, (Forall2_same_length _ _ _ Hall).
    apply (inv_length _ _ Hinv).
  - destruct (earliest_some _ _ He) as ((s & Hin & Hj) & _).
    destruct (In_nth_error _ _ Hin) as (i & Hi).
    destruct (take_hit j s (pulled_sync _ _ _ Hinv Hall _ Hin) Hj) as (d & Hd).
    exists i, d. rewrite (slot_output _ _ _ _ Hi). assumption.
  - intros i d Hs. apply slot_output_some in Hs.
    destruct Hs as (s & Hi & Hd).
    apply nth_error_In in Hi.
    apply (take_slot_key j s d (pulled_sync _ _ _ Hinv Hall _ Hi) Hd).
Qed.

(** After a pass of the first loop that is not blocked, a source without a
    buffered record is done. *)
Lemma pulled_settled c i srcs l :
  pull c i srcs = Pulled l false ->
  Forall (fun s => src_next s <> None \/ src_done s = true) l.
Proof.
  intros Hp. apply pull_pulled in Hp.
  induction Hp as [|s s' srcs' l' (st & H1 & _ & H3) _ IH]; constructor; auto.
  rewrite (H3 eq_refl) in H1. apply pulls_ready in H1. assumption.
Qed.

Lemma pass_invariant ins c js :
  invariant ins js ->
  js_waiting js = false -> exited js = false -> ended js = false ->
  invariant ins (fst (pass c js)).
Proof.
  intros Hinv Hw Hx He.
  pose proof (trace_rows_only _ (inv_shape _ _ Hinv) Hx He) as Htr.
  unfold pass. rewrite Hw, (inv_working _ _ Hinv). simpl.
  pose proof (pull_all c (js_sources js) 0) as Hall.
  destruct (pull c 0 (js_sources js)) as [l b|j l] eqn:Ep; simpl in Hall.
  - destruct b.
    + (* blocked *)
      simpl. split; simpl.
      * rewrite (Forall2_same_length _ _ _ Hall). apply (inv_length _ _ Hinv).
      * intros i src' Hi.
        apply (pulled_sources_ok _ _ _ Hinv Hall _ _ Hi).
      * reflexivity.
      * apply (inv_shape _ _ Hinv).
      * apply (inv_rows _ _ Hinv).
      * intros Hend. change (ended js = true) in Hend. congruence.
    + destruct (earliest l) as [j|] eqn:Ee.
      * (* a row is pushed *)
        simpl. split.
        -- simpl. rewrite length_map, (Forall2_same_length _ _ _ Hall).
           apply (inv_length _ _ Hinv).
        -- intros i src'' Hi. simpl in Hi. rewrite nth_error_map in Hi.
           destruct (nth_error l i) as [src'|] eqn:Hl; [|discriminate].
           simpl in Hi. inversion Hi; subst src''.
           destruct (pulled_sources_ok _ _ _ Hinv Hall _ _ Hl)
             as (inp & Hinp & Hok).
           exists inp. split; [assumption|].
           rewrite (joined_snoc i js _ _ (rows_emit_row _ _ _)).
           unfold slot_list. rewrite (slot_output _ _ _ _ Hl).
           apply take_source_ok. assumption.
        -- reflexivity.
        -- simpl. rewrite Htr.
           replace (map Row (rows js) ++ [Row (mkRow j (map (fun s => fst (take j s)) l))])
             with (map Row (rows js ++ [mkRow j (map (fun s => fst (take j s)) l)]))
             by (rewrite map_app; reflexivity).
           apply shape_rows.
        -- rewrite rows_emit_row. apply Forall_app. split.
           ++ apply (inv_rows _ _ Hinv).
           ++ constructor; [|constructor].
              eapply output_row_ok; eassumption.
        -- rewrite ended_emit. simpl. rewrite He. discriminate.
      * (* the end of the stream *)
        assert (Hdone : Forall (fun s => src_done s = true /\ src_next s = None) l).
        { pose proof (pulled_settled _ _ _ _ Ep) as Hset.
          pose proof (earliest_none _ Ee) as Hnone.
          rewrite Forall_forall in *. intros s Hin.
          pose proof (pulled_sync _ _ _ Hinv Hall _ Hin) as Hsy.
          rewrite (Hnone _ Hin) in Hsy.
          assert (Hn : src_next s = None).
          { destruct (src_next s); [discriminate|reflexivity]. }
          destruct (Hset _ Hin) as [C|D]; [congruence|auto]. }
        rewrite filter_not_done_empty
          by (eapply Forall_impl; [|exact Hdone]; intros s [H _]; exact H).
        simpl. split.
        -- simpl. rewrite (Forall2_same_length _ _ _ Hall).
           apply (inv_length _ _ Hinv).
        -- intros i src' Hi. simpl in Hi.
           rewrite (joined_rows i js _)
             by (apply rows_emit_other; discriminate).
           apply (pulled_sources_ok _ _ _ Hinv Hall _ _ Hi).
        -- reflexivity.
        -- simpl. rewrite Htr. apply shape_end.
        -- rewrite rows_emit_other by discriminate. apply (inv_rows _ _ Hinv).
        -- intros _. simpl. split; assumption.
  - (* a source is out of order *)
    simpl. split.
    + simpl. rewrite (Forall2_same_length _ _ _ Hall). apply (inv_length _ _ Hinv).
    + intros i src' Hi. simpl in Hi.
      rewrite (joined_rows i js _) by (apply rows_emit_other; discriminate).
      apply (pulled_sources_ok _ _ _ Hinv Hall _ _ Hi).
    + reflexivity.
    + simpl. rewrite Htr. apply shape_error.
    + rewrite rows_emit_other by discriminate. apply (inv_rows _ _ Hinv).
    + rewrite ended_emit. simpl. rewrite He. discriminate.
Qed.

Lemma mark_done_nth_error i srcs :
  forall k s', nth_error (mark_done i srcs) k = Some s' ->
    exists s, nth_error srcs k = Some s /\
      (s' = s \/
       (k = i /\
        s' = mkSource (src_stream s) (src_next s) (src_next_join s)
               (src_last_join s) true)).
Proof.
  revert i. induction srcs as [|s rest IH]; intros i k s' H.
  - destruct i, k; discriminate.
  - destruct i as [|i]; simpl in H.
    + destruct k as [|k]; simpl in *.
      * inversion H; subst. eauto.
      * eauto.
    + destruct k as [|k]; simpl in *.
      * inversion H; subst. eauto.
      * destruct (IH _ _ _ H) as (s0 & H0 & [->|[-> ->]]); eauto.
Qed.

Lemma mark_done_length i srcs :
  List.length (mark_done i srcs) = List.length srcs.
Proof.
  revert i. induction srcs as [|s rest IH]; intros [|i]; simpl; auto.
Qed.

Lemma mark_done_invariant ins js i src :
  invariant ins js ->
  nth_error (js_sources js) i = Some src -> src_stream src = [] ->
  invariant ins
    (mkJoin (js_waiting js) (js_working js) (mark_done i (js_sources js))
       (js_trace js)).
Proof.
  intros Hinv Hi Hs. split; simpl.
  - rewrite mark_done_length. apply (inv_length _ _ Hinv).
  - intros k s' Hk.
    destruct (mark_done_nth_error _ _ _ _ Hk) as (s & Hsk & [->|[-> ->]]).
    + apply (inv_sources _ _ Hinv _ _ Hsk).
    + rewrite Hi in Hsk. inversion Hsk; subst s.
      destruct (inv_sources _ _ Hinv _ _ Hi) as (inp & Hinp & [Hc Hsy Hl Hd]).
      exists inp. split; [assumption|].
      split; simpl; auto.
  - apply (inv_working _ _ Hinv).
  - apply (inv_shape _ _ Hinv).
  - apply (inv_rows _ _ Hinv).
  - intros He. destruct (inv_ended _ _ Hinv He) as [Hw Hall].
    split; [assumption|].
    rewrite Forall_forall in *. intros s' Hin.
    destruct (In_nth_error _ _ Hin) as (k & Hk).
    destruct (mark_done_nth_error _ _ _ _ Hk) as (s & Hsk & [->|[-> ->]]).
    + apply Hall. eapply nth_error_In; eassumption.
    + simpl. split; [reflexivity|].
      apply (Hall s). eapply nth_error_In; eassumption.
Qed.

Lemma wake_invariant ins js :
  invariant ins js ->
  invariant ins (mkJoin false (js_working js) (js_sources js) (js_trace js)).
Proof.
  intros [H1 H2 H3 H4 H5 H6]. split; simpl; auto.
  intros He. split; [reflexivity|]. apply (H6 He).
Qed.

Lemma pass_pushed c js js' :
  pass c js = (js', true) ->
  js_waiting js' = js_waiting js /\ exited js' = exited js /\
  ended js' = ended js /\
  exists r, js_trace js' = js_trace js ++ [Row r].
Proof.
  unfold pass.
  destruct (js_waiting js || js_working js); [intros H; inversion H|].
  destruct (pull c 0 (js_sources js)) as [l [|]|]; try (intros H; inversion H; fail).
  destruct (earliest l) as [j|].
  - intros H; inversion H; subst; clear H.
    rewrite exited_emit, ended_emit. simpl. rewrite !orb_false_r.
    repeat split; eauto.
  - destruct (_ =? _)%nat; intros H; inversion H.
Qed.

(** Whatever holds at the start and is kept by one pass of [kick], by
    waking up and by the end of a source holds after every sequence of
    events. *)
Section Reachable.

Variable ins : list (list datum).
Variable P : t -> Prop.

Hypothesis P_pass :
  forall c js, invariant ins js -> P js ->
    js_waiting js = false -> exited js = false -> ended js = false ->
    P (fst (pass c js)).
Hypothesis P_wake :
  forall js, invariant ins js -> P js ->
    P (mkJoin false (js_working js) (js_sources js) (js_trace js)).
Hypothesis P_done :
  forall js i src, invariant ins js -> P js ->
    nth_error (js_sources js) i = Some src -> src_stream src = [] ->
    P (mkJoin (js_waiting js) (js_working js)
         (mark_done i (js_sources js)) (js_trace js)).

Lemma kick_preserves more :
  forall c js, invariant ins js -> P js ->
    js_waiting js = false -> exited js = false -> ended js = false ->
    invariant ins (kick c more js) /\ P (kick c more js).
Proof.
  induction more as [|c' more IH]; intros c js Hinv HP Hw Hx He; simpl.
  - pose proof (pass_invariant ins c js Hinv Hw Hx He) as H1.
    pose proof (P_pass c js Hinv HP Hw Hx He) as H2.
    destruct (pass c js) as [js' pushed]. auto.
  - pose proof (pass_invariant ins c js Hinv Hw Hx He) as H1.
    pose proof (P_pass c js Hinv HP Hw Hx He) as H2.
    destruct (pass c js) as [js' pushed] eqn:Ep. simpl in *.
    destruct pushed; [|auto].
    destruct (pass_pushed _ _ _ Ep) as (Hw' & Hx' & He' & _).
    apply IH; congruence.
Qed.

Lemma kickIfWaiting_preserves c more js :
  invariant ins js -> P js -> exited js = false ->
  invariant ins (kickIfWaiting c more js) /\ P (kickIfWaiting c more js).
Proof.
  intros Hinv HP Hx. unfold kickIfWaiting.
  destruct (js_waiting js) eqn:Hw; simpl; [|auto].
  apply kick_preserves; auto using wake_invariant.
  change (ended js = false).
  destruct (ended js) eqn:He; [|reflexivity].
  destruct (inv_ended _ _ Hinv He). congruence.
Qed.

Lemma dispatch_preserves e js :
  invariant ins js -> P js ->
  invariant ins (dispatch e js) /\ P (dispatch e js).
Proof.
  intros Hinv HP. unfold dispatch.
  destruct (exited js) eqn:Hx; [auto|].
  destruct e as [c more|i c more|i c more].
  - destruct (ended js) eqn:He; [auto|].
    unfold _read.
    destruct (js_working js); simpl; [auto|].
    destruct (js_waiting js) eqn:Hw; [auto|].
    apply kick_preserves; auto.
  - apply kickIfWaiting_preserves; auto.
  - destruct (nth_error (js_sources js) i) as [src|] eqn:Hi; [|auto].
    destruct (src_stream src) eqn:Hs; [|auto].
    apply kickIfWaiting_preserves.
    + eapply mark_done_invariant; eassumption.
    + eapply P_done; eassumption.
    + exact Hx.
Qed.

Lemma run_preserves es :
  forall js, invariant ins js -> P js ->
    invariant ins (run es js) /\ P (run es js).
Proof.
  induction es as [|e es IH]; intros js Hinv HP; simpl.
  - auto.
  - destruct (dispatch_preserves e js Hinv HP). apply IH; assumption.
Qed.

Lemma reachable es :
  P (create ins) ->
  invariant ins (run es (create ins)) /\ P (run es (create ins)).
Proof.
  intros H. apply run_preserves; [apply create_invariant|assumption].
Qed.

End Reachable.

Lemma run_invariant ins es : invariant ins (run es (create ins)).
Proof.
  apply (reachable ins (fun _ => True)); auto.
Qed.

(** ** Rows never go back *)

Lemma key_le_refl a : key_le a a.
Proof. apply str_ltb_irrefl. Qed.

Lemma key_le_trans a b c : key_le a b -> key_le b c -> key_le a c.
Proof. unfold key_le. intros H1 H2. eapply str_le_trans; eassumption. Qed.

Lemma last_row_key_snoc rs r : last_row_key (rs ++ [r]) = Some (row_key r).
Proof. unfold last_row_key. rewrite map_app. simpl. apply last_snoc. Qed.

Lemma last_row_key_cons r r' rs :
  last_row_key (r :: r' :: rs) = last_row_key (r' :: rs).
Proof. reflexivity. Qed.

Lemma sorted_last_max rs :
  StronglySorted key_le (map row_key rs) ->
  forall r, In r rs -> exists kl, last_row_key rs = Some kl /\
                                  key_le (row_key r) kl.
Proof.
  induction rs as [|a rs IH]; intros Hs r Hin.
  - destruct Hin.
  - simpl in Hs. inversion Hs as [|? ? Hs' Ha]; subst.
    destruct rs as [|b rs].
    + destruct Hin as [->|[]]. exists (row_key r). split; [reflexivity|].
      apply key_le_refl.
    + rewrite last_row_key_cons.
      destruct Hin as [->|Hin].
      * destruct (IH Hs' b (or_introl eq_refl)) as (kl & Hkl & Hle).
        exists kl. split; [assumption|].
        inversion Ha; subst. eapply key_le_trans; eassumption.
      * apply IH; assumption.
Qed.

Lemma pulls_src_ordered rs s s' st :
  StronglySorted key_le (map row_key rs) ->
  src_ordered rs s -> pulls s s' st -> st <> Disorder ->
  src_ordered rs s'.
Proof.
  intros Hs [Hn Hl] Hp Hst.
  destruct Hp as [|? ?|Hnx Hd Hstr|d rest Hnx Hd Hstr].
  - split; assumption.
  - split; assumption.
  - split; simpl; auto.
  - split; simpl; [|discriminate].
    intros r k Hin Hk. inversion Hk; subst k.
    destruct (JS.lt_nullable (join_field d) (src_last_join s)) eqn:E;
      [congruence|].
    destruct (Hl Hnx) as [->|[C|Hlast]].
    + destruct Hin.
    + congruence.
    + destruct (sorted_last_max rs Hs r Hin) as (kl & Hkl & Hle).
      rewrite Hlast, Hkl in E. simpl in E.
      eapply key_le_trans; eassumption.
Qed.


Lemma take_ordered rs r j s :
  row_key r = j ->
  src_ordered rs s ->
  (forall k, src_next_join s = Some k -> key_le j k) ->
  (src_next s = None -> src_stream s = []) ->
  src_ordered (rs ++ [r]) (snd (take j s)).
Proof.
  intros Hr [Hn Hl] Hmin Hset. unfold take.
  destruct (JS.eq_nullable j (src_next_join s)) eqn:E; simpl.
  - apply eq_nullable_true in E. split; simpl.
    + discriminate.
    + intros _. right; right. rewrite last_row_key_snoc. congruence.
  - split.
    + intros r' k Hin Hk. apply in_app_or in Hin.
      destruct Hin as [Hin|[<-|[]]].
      * eapply Hn; eassumption.
      * rewrite Hr. auto.
    + intros Hnone. right; left. auto.
Qed.

Lemma mark_done_In i srcs s' :
  In s' (mark_done i srcs) ->
  exists s, In s srcs /\ src_stream s' = src_stream s /\
            src_next s' = src_next s /\ src_next_join s' = src_next_join s /\
            src_last_join s' = src_last_join s.
Proof.
  intros Hin. destruct (In_nth_error _ _ Hin) as (k & Hk).
  destruct (mark_done_nth_error _ _ _ _ Hk) as (s & Hs & [->|[_ ->]]);
    exists s; (split; [eapply nth_error_In; eassumption|]); simpl; auto.
Qed.

Lemma pass_ordered ins c js :
  invariant ins js -> (exited js = false -> ordered js) ->
  js_waiting js = false -> exited js = false -> ended js = false ->
  exited (fst (pass c js)) = false -> ordered (fst (pass c js)).
Proof.
  intros Hinv Hord Hw Hx He. specialize (Hord Hx).
  destruct Hord as [Hrows Hsrcs].
  unfold pass. rewrite Hw, (inv_working _ _ Hinv). simpl.
  pose proof (pull_all c (js_sources js) 0) as Hall.
  destruct (pull c 0 (js_sources js)) as [l b|j l] eqn:Ep; simpl in Hall.
  - assert (Hl : Forall (src_ordered (rows js)) l).
    { pose proof (pull_pulled _ _ _ _ _ Ep) as Hpp.
      rewrite Forall_forall in *. intros s' Hin.
      destruct (Forall2_In_right _ _ _ Hpp _ Hin) as (s & Hs & st & H1 & H2 & _).
      eapply pulls_src_ordered; eauto. }
    destruct b.
    + intros _. split; assumption.
    + destruct (earliest l) as [j|] eqn:Ee.
      * intros _. simpl.
        destruct (earliest_some _ _ Ee) as ((s0 & Hin0 & Hj0) & Hmin).
        rewrite Forall_forall in Hl.
        split.
        -- rewrite rows_emit_row, map_app. simpl.
           apply StronglySorted_snoc; [assumption|].
           rewrite Forall_forall. intros k Hk.
           apply in_map_iff in Hk. destruct Hk as (r & <- & Hr).
           apply (ord_next _ _ (Hl _ Hin0) r j Hr Hj0).
        -- rewrite rows_emit_row. simpl.
           rewrite Forall_forall. intros s'' Hin.
           apply in_map_iff in Hin. destruct Hin as (s' & <- & Hs').
           apply take_ordered; auto.
           ++ intros k Hk. apply (Hmin _ _ Hs' Hk).
           ++ intros Hnone.
              pose proof (pulled_settled _ _ _ _ Ep) as Hset.
              rewrite Forall_forall in Hset.
              destruct (Hset _ Hs') as [C|D]; [congruence|].
              destruct (In_nth_error _ _ Hs') as (i & Hi).
              destruct (pulled_sources_ok _ _ _ Hinv Hall _ _ Hi)
                as (inp & _ & Hok).
              apply (so_done _ _ _ Hok D).
      * destruct (_ =? _)%nat; simpl.
        -- intros _. split; rewrite rows_emit_other by discriminate; assumption.
        -- rewrite exited_emit. simpl. rewrite orb_true_r. discriminate.
  - simpl. rewrite exited_emit. simpl. rewrite orb_true_r. discriminate.
Qed.

Lemma run_ordered ins es :
  exited (run es (create ins)) = false -> ordered (run es (create ins)).
Proof.
  apply (reachable ins (fun js => exited js = false -> ordered js)).
  - intros c js Hinv HP Hw Hx He. apply (pass_ordered ins); assumption.
  - intros js Hinv HP Hx. destruct (HP Hx) as [H1 H2]. split; assumption.
  - intros js i src Hinv HP Hi Hs Hx. destruct (HP Hx) as [H1 H2].
    split; [assumption|]. simpl.
    rewrite Forall_forall in *. intros s' Hin.
    destruct (mark_done_In _ _ _ Hin) as (s & Hs0 & E1 & E2 & E3 & E4).
    destruct (H2 _ Hs0) as [Hn Hl].
    split.
    + intros r k Hr Hk. rewrite E3 in Hk. eauto.
    + intros Hnone. rewrite E1, E4. rewrite E2 in Hnone. auto.
  - intros _. split.
    + constructor.
    + unfold create; simpl. rewrite Forall_forall. intros s Hin.
      split; [intros r k []|]. intros _. left. reflexivity.
Qed.

(** ** Well-formed inputs *)

Lemma key_token_not_below_null k :
  key_token k = true -> JS.lt_nullable k None = false.
Proof.
  destruct k as [|c r]; simpl; [discriminate|].
  intros H. apply Ascii.eqb_eq in H. subst c.
  unfold JS.lt_nullable, JS.StringToNumber, JS.trim. simpl.
  destruct (JS.trim_right r); reflexivity.
Qed.

Lemma snoc_cases {A} (l : list A) : l = [] \/ exists h d, l = h ++ [d].
Proof.
  induction l as [|h d _] using rev_ind; [left; reflexivity|].
  right. eauto.
Qed.

Lemma last_key_snoc l d : last_key (l ++ [d]) = Some (join_field d).
Proof. unfold last_key. rewrite map_app. simpl. apply last_snoc. Qed.

Lemma keys_app l1 l2 : keys (l1 ++ l2) = keys l1 ++ keys l2.
Proof. apply map_app. Qed.

(** A well-formed input never trips the order check. *)
Lemma well_formed_no_disorder inp hist s s' :
  well_formed inp -> source_ok inp hist s -> pulls s s' Disorder -> False.
Proof.
  intros [Htok Hsorted] [Hc Hsy Hl Hd] Hp.
  inversion Hp as [| | |d rest Hn Hdn Hstr Hs' Hst]; subst.
  destruct (JS.lt_nullable (join_field d) (src_last_join s)) eqn:E;
    [|discriminate].
  rewrite Hl in E.
  unfold pending, buffered in Hsorted, Htok.
  rewrite Hn, Hstr in Hsorted, Htok. simpl in Hsorted, Htok.
  destruct (snoc_cases hist) as [->|(h & d0 & ->)].
  - change (last_key []) with (@None string) in E. simpl in Htok.
    inversion Htok as [|? ? Hk _]; subst.
    rewrite (key_token_not_below_null _ Hk) in E. discriminate.
  - rewrite last_key_snoc in E. simpl in E.
    rewrite keys_app in Hsorted.
    destruct (StronglySorted_app_inv _ _ _ Hsorted) as (_ & _ & Hcross).
    assert (Hlt : key_lt (join_field d0) (join_field d)).
    { apply Hcross.
      - rewrite keys_app. apply in_or_app. right. left. reflexivity.
      - left. reflexivity. }
    apply str_ltb_asym in Hlt. congruence.
Qed.

Lemma well_formed_pending_sorted inp hist s :
  well_formed inp -> source_ok inp hist s ->
  StronglySorted key_lt (keys (pending s)).
Proof.
  intros [_ Hsorted] [Hc _ _ _]. rewrite Hc, keys_app in Hsorted.
  apply (StronglySorted_app_inv _ _ _ Hsorted).
Qed.

Lemma pulls_all_pending srcs l :
  Forall2 (fun s s' => exists st, pulls s s' st) srcs l ->
  forall s', In s' l -> exists s, In s srcs /\ pending s' = pending s.
Proof.
  intros Hall s' Hin.
  destruct (Forall2_In_right _ _ _ Hall _ Hin) as (s & Hs & st & Hp).
  exists s. split; [assumption|]. eapply pulls_pending; eassumption.
Qed.

Lemma take_pending_subset j s d :
  In d (pending (snd (take j s))) -> In d (pending s).
Proof.
  unfold take. destruct (JS.eq_nullable j (src_next_join s)); simpl; auto.
  unfold pending, buffered; simpl. intros H. apply in_or_app. right. assumption.
Qed.

Lemma pass_ahead ins c js :
  Forall well_formed ins ->
  invariant ins js -> ahead js ->
  js_waiting js = false -> ended js = false ->
  ahead (fst (pass c js)).
Proof.
  intros Hwf Hinv [Hx Hrows Hpend] Hw He.
  unfold pass. rewrite Hw, (inv_working _ _ Hinv). simpl.
  pose proof (pull_all c (js_sources js) 0) as Hall.
  destruct (pull c 0 (js_sources js)) as [l b|j l] eqn:Ep; simpl in Hall.
  - assert (Hl : forall r s' d, In r (rows js) -> In s' l ->
                   In d (pending s') -> key_lt (row_key r) (join_field d)).
    { intros r s' d Hr Hs' Hd.
      destruct (pulls_all_pending _ _ Hall _ Hs') as (s & Hs & E).
      rewrite E in Hd. eauto. }
    destruct b.
    + split; assumption.
    + destruct (earliest l) as [j|] eqn:Ee.
      * simpl.
        destruct (earliest_some _ _ Ee) as ((s0 & Hin0 & Hj0) & Hmin).
        pose proof (pulled_sync _ _ _ Hinv Hall) as Hsync.
        split.
        -- rewrite exited_emit. simpl. rewrite Hx. reflexivity.
        -- rewrite rows_emit_row, map_app. simpl.
           apply StronglySorted_snoc; [assumption|].
           rewrite Forall_forall. intros k Hk.
           apply in_map_iff in Hk. destruct Hk as (r & <- & Hr).
           pose proof (Hsync _ Hin0) as Hsy0. rewrite Hj0 in Hsy0.
           destruct (src_next s0) as [d0|] eqn:Hn0; [|discriminate].
           simpl in Hsy0. injection Hsy0 as Hk0. rewrite Hk0.
           apply (Hl r s0 d0 Hr Hin0).
           unfold pending, buffered. rewrite Hn0. left. reflexivity.
        -- rewrite rows_emit_row. simpl.
           intros r s'' d Hr Hs'' Hd.
           apply in_map_iff in Hs''. destruct Hs'' as (s' & <- & Hs').
           apply in_app_or in Hr. destruct Hr as [Hr|[<-|[]]].
           ++ apply (Hl r s' d Hr Hs'). eapply take_pending_subset; eassumption.
           ++ simpl.
              destruct (In_nth_error _ _ Hs') as (i & Hi).
              destruct (pulled_sources_ok _ _ _ Hinv Hall _ _ Hi)
                as (inp & Hinp & Hok).
              assert (Hwfi : well_formed inp).
              { rewrite Forall_forall in Hwf. apply Hwf.
                eapply nth_error_In; eassumption. }
              pose proof (well_formed_pending_sorted _ _ _ Hwfi Hok) as Hps.
              pose proof (Hsync _ Hs') as Hsy.
              pose proof (pulled_settled _ _ _ _ Ep) as Hset.
              rewrite Forall_forall in Hset. specialize (Hset _ Hs').
              unfold take in Hd. unfold pending, buffered in Hps.
              destruct (src_next s') as [dn|] eqn:Hn.
              ** simpl in Hsy, Hps. rewrite Hsy in Hd. simpl in Hd.
                 inversion Hps as [|? ? Hps' Hall']; subst.
                 rewrite Forall_forall in Hall'.
                 destruct (String.eqb j (join_field dn)) eqn:Ej.
                 --- apply String.eqb_eq in Ej. subst j.
                     simpl in Hd. unfold pending, buffered in Hd. simpl in Hd.
                     apply Hall'. apply in_map. assumption.
                 --- simpl in Hd. unfold pending, buffered in Hd.
                     rewrite Hn in Hd. simpl in Hd.
                     assert (Hlt : key_lt j (join_field dn)).
                     { pose proof (Hmin _ _ Hs' Hsy) as Hle.
                       unfold key_lt.
                       destruct (JS.str_ltb j (join_field dn)) eqn:L;
                         [reflexivity|].
                       rewrite (str_ltb_total _ _ L Hle) in Ej.
                       rewrite String.eqb_refl in Ej. discriminate. }
                     destruct Hd as [<-|Hd]; [assumption|].
                     eapply str_ltb_trans; [exact Hlt|].
                     apply Hall'. apply in_map. assumption.
              ** destruct Hset as [C|D];
                   [exfalso; apply C; first [reflexivity|assumption]|].
                 rewrite (so_done _ _ _ Hok D) in Hd.
                 simpl in Hsy. rewrite Hsy in Hd. simpl in Hd.
                 unfold pending, buffered in Hd. rewrite Hn in Hd.
                 rewrite (so_done _ _ _ Hok D) in Hd. destruct Hd.
      * assert (Hdone : Forall (fun s => src_done s = true) l).
        { pose proof (pulled_settled _ _ _ _ Ep) as Hset.
          pose proof (earliest_none _ Ee) as Hnone.
          rewrite Forall_forall in *. intros s Hin.
          pose proof (pulled_sync _ _ _ Hinv Hall _ Hin) as Hsy.
          rewrite (Hnone _ Hin) in Hsy.
          destruct (src_next s) eqn:Hn; [discriminate|].
          destruct (Hset _ Hin) as [C|D]; [congruence|auto]. }
        rewrite (filter_not_done_empty _ Hdone). simpl.
        split.
        -- rewrite exited_emit. simpl. rewrite Hx. reflexivity.
        -- rewrite rows_emit_other by discriminate. assumption.
        -- rewrite rows_emit_other by discriminate. simpl. assumption.
  - exfalso.
    destruct (pull_out_of_order _ _ _ _ _ Ep) as (_ & s & s' & H1 & H2 & H3).
    destruct (inv_sources _ _ Hinv _ _ H1) as (inp & Hinp & Hok).
    eapply well_formed_no_disorder; try eassumption.
    rewrite Forall_forall in Hwf. apply Hwf. eapply nth_error_In; eassumption.
Qed.

Lemma run_ahead ins es :
  Forall well_formed ins -> ahead (run es (create ins)).
Proof.
  intros Hwf.
  apply (reachable ins ahead).
  - intros c js Hinv HP Hw Hx He. apply (pass_ahead ins); assumption.
  - intros js Hinv [H1 H2 H3]. split; assumption.
  - intros js i src Hinv [H1 H2 H3] Hi Hs. split; try assumption.
    simpl. intros r s' d Hr Hs' Hd.
    destruct (mark_done_In _ _ _ Hs') as (s & Hs0 & E1 & E2 & _).
    apply (H3 r s d Hr Hs0).
    unfold pending, buffered in *. rewrite E1, E2 in Hd. assumption.
  - split.
    + reflexivity.
    + constructor.
    + intros r src d [].
Qed.

(** ** Progress: from any state the stream can run to its end *)

Lemma pull1_prompt_not_blocked i s : snd (pull1 prompt i s) <> Blocked.
Proof.
  unfold pull1, read. simpl.
  destruct (src_next s); simpl; [discriminate|].
  destruct (src_done s); simpl; [discriminate|].
  destruct (src_stream s); simpl; [discriminate|].
  destruct (JS.lt_nullable _ _); discriminate.
Qed.

Lemma pull_prompt_not_blocked srcs :
  forall i l b, pull prompt i srcs = Pulled l b -> b = false.
Proof.
  induction srcs as [|s rest IH]; intros i l b; simpl.
  - intros H; inversion H; reflexivity.
  - pose proof (pull1_prompt_not_blocked i s) as Hnb.
    destruct (pull1 prompt i s) as [s' st]; simpl in Hnb.
    destruct st; try congruence.
    destruct (pull prompt (S i) rest) as [l' b'|] eqn:E; [|discriminate].
    intros H; inversion H; subst. simpl. eapply IH; eassumption.
Qed.

Lemma pulls_all_backlog srcs l :
  Forall2 (fun s s' => exists st, pulls s s' st) srcs l ->
  backlog l = backlog srcs.
Proof.
  unfold backlog.
  induction 1 as [|s s' srcs l (st & Hp) _ IH]; simpl; [reflexivity|].
  rewrite (pulls_pending _ _ _ Hp), IH. reflexivity.
Qed.

Lemma take_pending_le j s :
  (List.length (pending (snd (take j s))) <= List.length (pending s))%nat.
Proof.
  unfold take. destruct (JS.eq_nullable j (src_next_join s)); simpl; [|lia].
  unfold pending, buffered; simpl. rewrite length_app. lia.
Qed.

Lemma take_pending_lt j s :
  src_next_join s = option_map join_field (src_next s) ->
  src_next_join s = Some j ->
  (List.length (pending (snd (take j s))) < List.length (pending s))%nat.
Proof.
  intros Hsy Hj. unfold take. rewrite Hj. simpl. rewrite String.eqb_refl. simpl.
  rewrite Hj in Hsy. destruct (src_next s) as [d|] eqn:Hn; [|discriminate].
  unfold pending, buffered; simpl. rewrite Hn. simpl. lia.
Qed.

Lemma take_backlog j l :
  (forall s, In s l ->
     src_next_join s = option_map join_field (src_next s)) ->
  (exists s, In s l /\ src_next_join s = Some j) ->
  (backlog (map (fun s => snd (take j s)) l) < backlog l)%nat.
Proof.
  unfold backlog.
  induction l as [|a l IH]; intros Hsy (s & Hin & Hj).
  - destruct Hin.
  - simpl.
    assert (Hle : (list_sum (map (fun s => List.length (pending s))
                               (map (fun s => snd (take j s)) l))
                   <= list_sum (map (fun s => List.length (pending s)) l))%nat).
    { clear. induction l as [|b l IH]; simpl; [lia|].
      pose proof (take_pending_le j b). lia. }
    destruct Hin as [->|Hin].
    + pose proof (take_pending_lt j s (Hsy _ (or_introl eq_refl)) Hj). lia.
    + pose proof (take_pending_le j a).
      assert ((list_sum (map (fun s => List.length (pending s))
                               (map (fun s => snd (take j s)) l))
                   < list_sum (map (fun s => List.length (pending s)) l))%nat).
      { apply IH; [intros; apply Hsy; right; assumption|eauto]. }
      lia.
Qed.

Lemma kick_prompt_finishes ins n :
  forall js, invariant ins js ->
    js_waiting js = false -> exited js = false -> ended js = false ->
    (backlog (js_sources js) <= n)%nat ->
    finished (kick prompt (repeat prompt n) js) = true.
Proof.
  induction n as [|n IH]; intros js Hinv Hw Hx He Hn.
  - simpl.
    pose proof (pass_invariant ins prompt js Hinv Hw Hx He) as Hinv'.
    destruct (pass prompt js) as [js' pushed] eqn:Ep.
    revert Ep. unfold pass. rewrite Hw, (inv_working _ _ Hinv). simpl.
    pose proof (pull_all prompt (js_sources js) 0) as Hall.
    destruct (pull prompt 0 (js_sources js)) as [l b|j l] eqn:Epull;
      simpl in Hall.
    + rewrite (pull_prompt_not_blocked _ _ _ _ Epull) in *.
      destruct (earliest l) as [j|] eqn:Ee.
      * exfalso.
        pose proof (take_backlog j l (pulled_sync _ _ _ Hinv Hall)
                      (proj1 (earliest_some _ _ Ee))) as Hlt.
        rewrite (pulls_all_backlog _ _ Hall) in Hlt. lia.
      * destruct (_ =? _)%nat; intros H; inversion H; subst; unfold finished;
          rewrite ?ended_emit, ?exited_emit; simpl;
          rewrite ?orb_true_r; reflexivity.
    + intros H; inversion H; subst. unfold finished.
      rewrite exited_emit. simpl. rewrite !orb_true_r. reflexivity.
  - simpl.
    pose proof (pass_invariant ins prompt js Hinv Hw Hx He) as Hinv'.
    destruct (pass prompt js) as [js' pushed] eqn:Ep.
    destruct pushed.
    + destruct (pass_pushed _ _ _ Ep) as (Hw' & Hx' & He' & _).
      simpl in Hinv'.
      apply IH; try congruence.
      revert Ep. unfold pass. rewrite Hw, (inv_working _ _ Hinv). simpl.
      pose proof (pull_all prompt (js_sources js) 0) as Hall.
      destruct (pull prompt 0 (js_sources js)) as [l b|j l] eqn:Epull;
        simpl in Hall; [|intros H; inversion H].
      destruct b; [intros H; inversion H|].
      destruct (earliest l) as [j|] eqn:Ee.
      * intros H; inversion H; subst; clear H. simpl.
        pose proof (take_backlog j l (pulled_sync _ _ _ Hinv Hall)
                      (proj1 (earliest_some _ _ Ee))) as Hlt.
        rewrite (pulls_all_backlog _ _ Hall) in Hlt. lia.
      * destruct (_ =? _)%nat; intros H; inversion H.
    + revert Ep. unfold pass. rewrite Hw, (inv_working _ _ Hinv). simpl.
      pose proof (pull_all prompt (js_sources js) 0) as Hall.
      destruct (pull prompt 0 (js_sources js)) as [l b|j l] eqn:Epull;
        simpl in Hall.
      * rewrite (pull_prompt_not_blocked _ _ _ _ Epull) in *.
        destruct (earliest l) as [j|] eqn:Ee; [intros H; inversion H|].
        destruct (_ =? _)%nat; intros H; inversion H; subst; unfold finished;
          rewrite ?ended_emit, ?exited_emit; simpl;
          rewrite ?orb_true_r; reflexivity.
      * intros H; inversion H; subst. unfold finished.
        rewrite exited_emit. simpl. rewrite !orb_true_r. reflexivity.
Qed.

Lemma finish_finishes ins js :
  invariant ins js -> finished (dispatch (finish js) js) = true.
Proof.
  intros Hinv. unfold dispatch, finish.
  destruct (exited js) eqn:Hx.
  - unfold finished. rewrite Hx. apply orb_true_r.
  - destruct (js_waiting js) eqn:Hw.
    + unfold kickIfWaiting. rewrite Hw. simpl.
      apply (kick_prompt_finishes ins); auto using wake_invariant.
      change (ended js = false).
      destruct (ended js) eqn:He; [|reflexivity].
      destruct (inv_ended _ _ Hinv He). congruence.
    + destruct (ended js) eqn:He.
      * unfold finished. rewrite He. reflexivity.
      * unfold _read. rewrite Hw, (inv_working _ _ Hinv). simpl.
        apply (kick_prompt_finishes ins); auto.
Qed.

(** ** Every record read was checked against its predecessor *)

Lemma snoc_not_disordered l d :
  ~ disordered l ->
  (forall k, last_key l = Some k -> JS.str_ltb (join_field d) k = false) ->
  ~ disordered (l ++ [d]).
Proof.
  intros Hnd Hlast (pre & d1 & d2 & post & E & Hlt).
  destruct (snoc_cases post) as [->|(post' & x & ->)].
  - change (pre ++ [d1; d2]) with (pre ++ [d1] ++ [d2]) in E.
    rewrite app_assoc in E. apply app_inj_tail in E. destruct E as [-> ->].
    rewrite (Hlast _ (last_key_snoc _ _)) in Hlt. discriminate.
  - change (pre ++ d1 :: d2 :: post' ++ [x])
      with (pre ++ (d1 :: d2 :: post') ++ [x]) in E.
    rewrite app_assoc in E. apply app_inj_tail in E. destruct E as [-> _].
    apply Hnd. exists pre, d1, d2, post'. split; [reflexivity|assumption].
Qed.

Lemma pulls_checked hist inp s s' st :
  source_ok inp hist s -> pulls s s' st -> st <> Disorder ->
  ~ disordered (hist ++ buffered s) -> ~ disordered (hist ++ buffered s').
Proof.
  intros Hok Hp Hst Hnd.
  destruct Hp as [|? ?|Hn Hd Hs|d rest Hn Hd Hs]; try assumption.
  - unfold buffered in *. simpl. rewrite Hn in Hnd. assumption.
  - unfold buffered in *. simpl. rewrite Hn, app_nil_r in Hnd.
    apply snoc_not_disordered; [assumption|].
    intros k Hk.
    destruct (JS.lt_nullable (join_field d) (src_last_join s)) eqn:E;
      [congruence|].
    rewrite (so_last _ _ _ Hok), Hk in E. exact E.
Qed.

Lemma take_same_history hist j s :
  src_next_join s = option_map join_field (src_next s) ->
  (hist ++ match fst (take j s) with Some d => [d] | None => [] end)
    ++ buffered (snd (take j s)) = hist ++ buffered s.
Proof.
  intros Hsy. unfold take.
  destruct (JS.eq_nullable j (src_next_join s)) eqn:E; simpl.
  - apply eq_nullable_true in E. rewrite E in Hsy.
    unfold buffered. simpl.
    destruct (src_next s); [|discriminate]. apply app_nil_r.
  - rewrite app_nil_r. reflexivity.
Qed.

Lemma pass_checked ins c js :
  invariant ins js ->
  (exited js = false ->
   forall i src, nth_error (js_sources js) i = Some src ->
     ~ disordered (joined i js ++ buffered src)) ->
  js_waiting js = false -> exited js = false -> ended js = false ->
  exited (fst (pass c js)) = false ->
  forall i src, nth_error (js_sources (fst (pass c js))) i = Some src ->
    ~ disordered (joined i (fst (pass c js)) ++ buffered src).
Proof.
  intros Hinv Hchk Hw Hx He. specialize (Hchk Hx).
  unfold pass. rewrite Hw, (inv_working _ _ Hinv). simpl.
  pose proof (pull_all c (js_sources js) 0) as Hall.
  destruct (pull c 0 (js_sources js)) as [l b|j l] eqn:Ep; simpl in Hall.
  - assert (Hl : forall i s', nth_error l i = Some s' ->
                   ~ disordered (joined i js ++ buffered s')).
    { pose proof (pull_pulled _ _ _ _ _ Ep) as Hpp.
      intros i s' Hi.
      destruct (Forall2_nth_error_right _ _ _ Hpp _ _ Hi)
        as (s & Hs & st & H1 & H2 & _).
      destruct (inv_sources _ _ Hinv _ _ Hs) as (inp & _ & Hok).
      eapply pulls_checked; eauto. }
    destruct b.
    + intros _ i src Hi. simpl in Hi. apply (Hl _ _ Hi).
    + destruct (earliest l) as [j|] eqn:Ee.
      * simpl. intros _ i src'' Hi. simpl in Hi. rewrite nth_error_map in Hi.
        destruct (nth_error l i) as [s'|] eqn:Hli; [|discriminate].
        simpl in Hi. inversion Hi; subst src''.
        rewrite (joined_snoc i js _ _ (rows_emit_row _ _ _)).
        unfold slot_list. rewrite (slot_output _ _ _ _ Hli).
        rewrite take_same_history.
        -- apply (Hl _ _ Hli).
        -- apply (pulled_sync _ _ _ Hinv Hall). eapply nth_error_In; eassumption.
      * destruct (_ =? _)%nat; simpl.
        -- intros _ i src Hi. simpl in Hi.
           rewrite (joined_rows i js _) by (apply rows_emit_other; discriminate).
           apply (Hl _ _ Hi).
        -- rewrite exited_emit. simpl. rewrite orb_true_r. discriminate.
  - simpl. rewrite exited_emit. simpl. rewrite orb_true_r. discriminate.
Qed.

Lemma run_checked ins es :
  exited (run es (create ins)) = false ->
  forall i src, nth_error (js_sources (run es (create ins))) i = Some src ->
    ~ disordered (joined i (run es (create ins)) ++ buffered src).
Proof.
  apply (reachable ins
           (fun js => exited js = false ->
              forall i src, nth_error (js_sources js) i = Some src ->
                ~ disordered (joined i js ++ buffered src))).
  - intros c js Hinv HP Hw Hx He. apply (pass_checked ins); assumption.
  - intros js Hinv HP Hx i src Hi. apply (HP Hx i src Hi).
  - intros js i src Hinv HP Hi Hs Hx k s' Hk. simpl in Hk.
    destruct (mark_done_nth_error _ _ _ _ Hk) as (s & Hsk & [->|[-> ->]]).
    + apply (HP Hx _ _ Hsk).
    + apply (HP Hx _ _ Hsk).
  - intros _ i src Hi. apply create_nth_error in Hi.
    destruct Hi as (inp & _ & ->).
    intros (pre & d1 & d2 & post & E & _).
    destruct pre; discriminate.
Qed.

Lemma ended_not_exited js :
  trace_shape (js_trace js) -> ended js = true -> exited js = false.
Proof.
  unfold ended, exited. intros Hs He.
  inversion Hs as [rs Hrs|rs Hrs|rs i Hrs]; rewrite <- Hrs in *.
  - rewrite existsb_map_row in He by reflexivity. discriminate.
  - rewrite existsb_app, existsb_map_row by reflexivity. reflexivity.
  - rewrite existsb_app, existsb_map_row in He by reflexivity.
    discriminate.
Qed.

(** At the end of the stream every input has been joined entirely. *)
Lemma ended_all_joined ins js i inp :
  invariant ins js -> ended js = true -> nth_error ins i = Some inp ->
  joined i js = inp /\
  exists src, nth_error (js_sources js) i = Some src /\ buffered src = [] /\
              src_stream src = [].
Proof.
  intros Hinv He Hi.
  destruct (nth_error (js_sources js) i) as [src|] eqn:Hs.
  - destruct (inv_sources _ _ Hinv _ _ Hs) as (inp' & Hinp' & Hok).
    rewrite Hi in Hinp'. inversion Hinp'; subst inp'.
    destruct (inv_ended _ _ Hinv He) as (_ & Hall).
    rewrite Forall_forall in Hall.
    destruct (Hall src (nth_error_In _ _ Hs)) as (Hd & Hn).
    assert (Hb : buffered src = []) by (unfold buffered; rewrite Hn; reflexivity).
    pose proof (so_done _ _ _ Hok Hd) as Hstr.
    split.
    + rewrite (so_conserve _ _ _ Hok). unfold pending.
      rewrite Hb, Hstr, app_nil_r. reflexivity.
    + eauto.
  - apply nth_error_None in Hs. rewrite (inv_length _ _ Hinv) in Hs.
    assert (i < List.length ins)%nat by (apply nth_error_Some; congruence).
    lia.
Qed.

Lemma disordered_never_ends ins es i inp :
  nth_error ins i = Some inp -> disordered inp ->
  ended (run es (create ins)) = false.
Proof.
  intros Hi Hdis.
  destruct (ended (run es (create ins))) eqn:He; [|reflexivity].
  exfalso.
  pose proof (run_invariant ins es) as Hinv.
  pose proof (ended_not_exited _ (inv_shape _ _ Hinv) He) as Hx.
  destruct (ended_all_joined _ _ _ _ Hinv He Hi) as (Hj & src & Hs & Hb & _).
  apply (run_checked ins es Hx i src Hs).
  rewrite Hb, app_nil_r, Hj. assumption.
Qed.

(** ** The rows of a complete run are determined by the inputs *)

Lemma in_slots i rs d :
  In d (flat_map (slot_list i) rs) ->
  exists r, In r rs /\ slot i r = Some d.
Proof.
  intros H. apply in_flat_map in H. destruct H as (r & Hr & Hd).
  exists r. split; [assumption|].
  unfold slot_list in Hd. destruct (slot i r); [|destruct Hd].
  destruct Hd as [->|[]]. reflexivity.
Qed.

(** The first record of a source among sorted rows sits in the first row
    or belongs to a later key. *)
Lemma first_slot n i d r rs rest :
  StronglySorted key_lt (map row_key (r :: rs)) ->
  Forall (row_ok n) (r :: rs) ->
  flat_map (slot_list i) (r :: rs) = d :: rest ->
  slot i r = Some d \/ (slot i r = None /\ key_lt (row_key r) (join_field d)).
Proof.
  intros Hs Hok E. simpl in E. unfold slot_list at 1 in E.
  destruct (slot i r) as [d'|] eqn:Hsl.
  - inversion E; subst. left; reflexivity.
  - right. split; [reflexivity|]. simpl in E.
    assert (Hin : In d (flat_map (slot_list i) rs)) by (rewrite E; left; reflexivity).
    destruct (in_slots _ _ _ Hin) as (r' & Hr' & Hd).
    inversion Hok as [|? ? _ Hok']; subst.
    rewrite Forall_forall in Hok'.
    destruct (Hok' _ Hr') as (_ & _ & Hkey).
    rewrite (Hkey _ _ Hd).
    simpl in Hs. inversion Hs as [|? ? _ Hall]; subst.
    rewrite Forall_forall in Hall. apply Hall. apply in_map. assumption.
Qed.

Lemma first_key_le n r1 rs1 r2 rs2 :
  StronglySorted key_lt (map row_key (r2 :: rs2)) ->
  Forall (row_ok n) (r1 :: rs1) -> Forall (row_ok n) (r2 :: rs2) ->
  (forall i, flat_map (slot_list i) (r1 :: rs1) =
             flat_map (slot_list i) (r2 :: rs2)) ->
  key_le (row_key r2) (row_key r1).
Proof.
  intros Hs2 Hok1 Hok2 Heq.
  inversion Hok1 as [|? ? (_ & (i & d & Hsl) & Hkey) _]; subst.
  specialize (Heq i). simpl in Heq. unfold slot_list at 1 in Heq.
  rewrite Hsl in Heq. simpl in Heq. symmetry in Heq.
  destruct (first_slot _ _ _ _ _ _ Hs2 Hok2 Heq) as [H|[_ H]].
  - inversion Hok2 as [|? ? (_ & _ & Hkey2) _]; subst.
    rewrite <- (Hkey _ _ Hsl), (Hkey2 _ _ H). apply key_le_refl.
  - rewrite <- (Hkey _ _ Hsl). unfold key_le. apply str_ltb_asym. assumption.
Qed.

Lemma first_slots_agree n r1 rs1 r2 rs2 i d :
  StronglySorted key_lt (map row_key (r2 :: rs2)) ->
  Forall (row_ok n) (r1 :: rs1) -> Forall (row_ok n) (r2 :: rs2) ->
  (forall i, flat_map (slot_list i) (r1 :: rs1) =
             flat_map (slot_list i) (r2 :: rs2)) ->
  row_key r1 = row_key r2 ->
  slot i r1 = Some d -> slot i r2 = Some d.
Proof.
  intros Hs2 Hok1 Hok2 Heq Hk Hsl.
  inversion Hok1 as [|? ? (_ & _ & Hkey) _]; subst.
  specialize (Heq i). simpl in Heq. unfold slot_list at 1 in Heq.
  rewrite Hsl in Heq. simpl in Heq. symmetry in Heq.
  destruct (first_slot _ _ _ _ _ _ Hs2 Hok2 Heq) as [H|[_ H]]; [assumption|].
  rewrite (Hkey _ _ Hsl), Hk in H. unfold key_lt in H.
  rewrite str_ltb_irrefl in H. discriminate.
Qed.

Lemma rows_determined n rs1 :
  forall rs2,
    StronglySorted key_lt (map row_key rs1) ->
    StronglySorted key_lt (map row_key rs2) ->
    Forall (row_ok n) rs1 -> Forall (row_ok n) rs2 ->
    (forall i, flat_map (slot_list i) rs1 = flat_map (slot_list i) rs2) ->
    rs1 = rs2.
Proof.
  induction rs1 as [|r1 rs1 IH]; intros rs2 Hs1 Hs2 Hok1 Hok2 Heq.
  - destruct rs2 as [|r2 rs2]; [reflexivity|].
    inversion Hok2 as [|? ? (_ & (i & d & Hsl) & _) _]; subst.
    specialize (Heq i). simpl in Heq. unfold slot_list at 1 in Heq.
    rewrite Hsl in Heq. discriminate.
  - destruct rs2 as [|r2 rs2].
    + inversion Hok1 as [|? ? (_ & (i & d & Hsl) & _) _]; subst.
      specialize (Heq i). simpl in Heq. unfold slot_list at 1 in Heq.
      rewrite Hsl in Heq. discriminate.
    + assert (Hk : row_key r1 = row_key r2).
      { apply str_ltb_total.
        - apply (first_key_le n r1 rs1 r2 rs2); auto.
        - apply (first_key_le n r2 rs2 r1 rs1); auto. }
      assert (Hslots : forall i, slot i r1 = slot i r2).
      { intros i.
        destruct (slot i r1) as [d|] eqn:E1.
        - symmetry. apply (first_slots_agree n r1 rs1 r2 rs2 i d); auto.
        - destruct (slot i r2) as [d|] eqn:E2; [|reflexivity].
          rewrite <- E1.
          apply (first_slots_agree n r2 rs2 r1 rs1 i d); auto. }
      assert (Hr : r1 = r2).
      { destruct r1 as [k1 sl1], r2 as [k2 sl2]. simpl in Hk. subst k2.
        f_equal.
        destruct (Forall_inv Hok1) as (Hl1 & _).
        destruct (Forall_inv Hok2) as (Hl2 & _).
        simpl in Hl1, Hl2.
        apply (nth_ext _ _ None None); [congruence|].
        intros i _. apply (Hslots i). }
      subst r2. f_equal.
      simpl in Hs1, Hs2.
      apply IH.
      * inversion Hs1; assumption.
      * inversion Hs2; assumption.
      * apply (Forall_inv_tail Hok1).
      * apply (Forall_inv_tail Hok2).
      * intros i. specialize (Heq i). simpl in Heq.
        apply app_inv_head in Heq. assumption.
Qed.

Lemma joined_out_of_range ins js i :
  invariant ins js -> (List.length ins <= i)%nat -> joined i js = [].
Proof.
  intros Hinv Hi. unfold joined.
  pose proof (inv_rows _ _ Hinv) as Hrows.
  induction Hrows as [|r rs (Hlen & _) _ IH]; simpl; [reflexivity|].
  rewrite IH. unfold slot_list, slot.
  rewrite nth_overflow by lia. reflexivity.
Qed.

Lemma complete_runs_agree ins es1 es2 :
  Forall well_formed ins ->
  ended (run es1 (create ins)) = true ->
  ended (run es2 (create ins)) = true ->
  rows (run es1 (create ins)) = rows (run es2 (create ins)).
Proof.
  intros Hwf He1 He2.
  pose proof (run_invariant ins es1) as Hinv1.
  pose proof (run_invariant ins es2) as Hinv2.
  apply (rows_determined (List.length ins)).
  - apply (ahead_rows _ (run_ahead ins es1 Hwf)).
  - apply (ahead_rows _ (run_ahead ins es2 Hwf)).
  - apply (inv_rows _ _ Hinv1).
  - apply (inv_rows _ _ Hinv2).
  - intros i. change (joined i (run es1 (create ins)) =
                      joined i (run es2 (create ins))).
    destruct (nth_error ins i) as [inp|] eqn:Hi.
    + destruct (ended_all_joined _ _ _ _ Hinv1 He1 Hi) as [-> _].
      destruct (ended_all_joined _ _ _ _ Hinv2 He2 Hi) as [-> _].
      reflexivity.
    + apply nth_error_None in Hi.
      rewrite !(joined_out_of_range ins) by assumption. reflexivity.
Qed.

Lemma run_snoc es e js : run (es ++ [e]) js = dispatch e (run es js).
Proof. unfold run. rewrite fold_left_app. reflexivity. Qed.

(** ** The parser *)

Lemma json_ws_is_ws c : JSON.is_json_ws c = true -> JS.is_ws c = true.
Proof.
  destruct c as [[] [] [] [] [] [] [] []]; vm_compute; congruence.
Qed.

Lemma trim_left_head s c r :
  JS.trim_left s = String c r -> JS.is_ws c = false.
Proof.
  induction s as [|a s IH]; simpl; [discriminate|].
  destruct (JS.is_ws a) eqn:E; [assumption|].
  intros H; inversion H; subst. assumption.
Qed.

Lemma skip_ws_head c r : JS.is_ws c = false -> JSON.skip_ws (String c r) = String c r.
Proof.
  intros H. simpl.
  destruct (JSON.is_json_ws c) eqn:E; [|reflexivity].
  apply json_ws_is_ws in E. congruence.
Qed.

Lemma elements_not_string elem n :
  forall t us rest, JSON.elements elem n t <> Some (JSON.VString us, rest).
Proof.
  induction n as [|n IH]; intros t us rest; simpl; [discriminate|].
  destruct (elem t) as [[v [|c t']]|]; try discriminate.
  destruct c as [[] [] [] [] [] [] [] []]; try discriminate.
  apply IH.
Qed.

Lemma members_not_string elem n :
  forall t us rest, JSON.members elem n t <> Some (JSON.VString us, rest).
Proof.
  induction n as [|n IH]; intros t us rest; simpl; [discriminate|].
  destruct (JSON.skip_ws t) as [|q t1]; [discriminate|].
  destruct (Ascii.eqb q JSON.dquote); [|discriminate].
  destruct (JSON.string_body t1) as [[u t2]|]; [|discriminate].
  destruct (JSON.skip_ws t2) as [|c2 t3]; [discriminate|].
  destruct c2 as [[] [] [] [] [] [] [] []]; try discriminate.
  destruct (elem t3) as [[v [|c t']]|]; try discriminate.
  destruct c as [[] [] [] [] [] [] [] []]; try discriminate.
  apply IH.
Qed.

(** A text that parses to a string starts, after JSON white space, with a
    double quote. *)
Lemma element_string_starts fuel s us rest :
  JSON.element fuel s = Some (JSON.VString us, rest) ->
  exists r, JSON.skip_ws s = String JSON.dquote r.
Proof.
  destruct fuel as [|f]; simpl; [discriminate|].
  destruct (JSON.skip_ws s) as [|c r]; [discriminate|].
  destruct (Ascii.eqb c JSON.dquote) eqn:E.
  - apply Ascii.eqb_eq in E. subst c. eauto.
  - intros H. exfalso. revert H.
    destruct (Ascii.eqb c "["%char).
    + destruct (JSON.skip_ws r) as [|c' t].
      * apply elements_not_string.
      * destruct c' as [[] [] [] [] [] [] [] []];
          first [discriminate | apply elements_not_string].
    + destruct (Ascii.eqb c "{"%char).
      * destruct (JSON.skip_ws r) as [|c' t].
        -- apply members_not_string.
        -- destruct c' as [[] [] [] [] [] [] [] []];
             first [discriminate | apply members_not_string].
      * destruct (JSON.scalar_token _); discriminate.
Qed.

Lemma parse_string_starts s us :
  JSON.parse s = Some (JSON.VString us) ->
  exists r, JSON.skip_ws s = String JSON.dquote r.
Proof.
  unfold JSON.parse.
  destruct (JSON.element _ s) as [[v [|c t]]|] eqn:E; try discriminate.
  intros H; inversion H; subst.
  eapply element_string_starts; eassumption.
Qed.

Lemma strsplit_two line p0 p1 :
  strsplit line 2 = [p0; p1] ->
  exists rest, p1 = JS.trim_left rest.
Proof.
  unfold strsplit. cbn [Nat.sub split_ws].
  destruct (JS.span (fun c => negb (JS.is_ws c)) line) as [field [|c rest]];
    [discriminate|].
  intros H; inversion H. exists (String c rest). reflexivity.
Qed.

(** Every line ends in one warning and no record, or in one record and no
    warning. *)
Lemma transform_effect line :
  (exists kind,
     SplitStream._transform line = SplitStream.vsWarn kind /\
     In kind ["line garbled"; "not an integer"; "invalid JSON";
              "not a string"]) \/
  (exists d, SplitStream._transform line = SplitStream.push d).
Proof.
  unfold SplitStream._transform.
  destruct (strsplit (JS.trim line) 2) as [|p0 [|p1 [|p2 ps]]];
    try (left; eexists; split; [reflexivity|simpl; tauto]).
  destruct (JS.parseInt10 p0) as [count|];
    [|left; eexists; split; [reflexivity|simpl; tauto]].
  destruct (JS.str_neq_num p0 (JS.of_int count));
    [left; eexists; split; [reflexivity|simpl; tauto]|].
  destruct (JSON.parse p1) as [[us|]|];
    try (left; eexists; split; [reflexivity|simpl; tauto]).
  right. eexists. reflexivity.
Qed.

(** What the parser lets through: the key is field 2 as written, it is the
    text of a JSON string, and it starts with a double quote. *)
Lemma transform_pushed line d :
  In d (SplitStream.pushed (SplitStream._transform line)) ->
  key_token (join_field d) = true /\
  (exists us, JSON.parse (join_field d) = Some (JSON.VString us)) /\
  (exists p0, strsplit (JS.trim line) 2 = [p0; join_field d]).
Proof.
  unfold SplitStream._transform.
  destruct (strsplit (JS.trim line) 2) as [|p0 [|p1 [|p2 ps]]] eqn:Es;
    try (simpl; tauto).
  destruct (JS.parseInt10 p0) as [count|]; [|simpl; tauto].
  destruct (JS.str_neq_num p0 (JS.of_int count)); [simpl; tauto|].
  destruct (JSON.parse p1) as [[us|]|] eqn:Ep; try (simpl; tauto).
  simpl. intros [<-|[]]. simpl.
  repeat split; eauto.
  destruct (strsplit_two _ _ _ Es) as (rest & Hrest).
  destruct (parse_string_starts _ _ Ep) as (r & Hr).
  destruct p1 as [|c p1']; [discriminate|].
  symmetry in Hrest. apply trim_left_head in Hrest.
  rewrite (skip_ws_head _ _ Hrest) in Hr. inversion Hr; subst.
  reflexivity.
Qed.

Lemma run_pushed lines :
  forall d, In d (SplitStream.pushed (SplitStream.run lines)) ->
    exists line, In line lines /\
                 In d (SplitStream.pushed (SplitStream._transform line)).
Proof.
  unfold SplitStream.run.
  assert (H : forall acc d,
             In d (SplitStream.pushed
                     (fold_left
                        (fun acc line =>
                           let e := SplitStream._transform line in
                           SplitStream.mkEffects
                             (SplitStream.warned acc ++ SplitStream.warned e)
                             (SplitStream.pushed acc ++ SplitStream.pushed e))
                        lines acc)) ->
             In d (SplitStream.pushed acc) \/
             exists line, In line lines /\
                 In d (SplitStream.pushed (SplitStream._transform line))).
  { induction lines as [|l lines IH]; intros acc d; simpl.
    - auto.
    - intros Hd. destruct (IH _ _ Hd) as [Ha|(line & Hl & Hin)].
      + simpl in Ha. apply in_app_or in Ha. destruct Ha as [Ha|Ha]; eauto.
      + eauto. }
  intros d Hd. destruct (H _ _ Hd) as [[]|Hx]. assumption.
Qed.

Lemma run_key_tokens lines :
  Forall (fun d => key_token (join_field d) = true)
    (SplitStream.pushed (SplitStream.run lines)).
Proof.
  rewrite Forall_forall. intros d Hd.
  destruct (run_pushed _ _ Hd) as (line & _ & Hin).
  apply (transform_pushed _ _ Hin).
Qed.

(** * The claims *)

(** ** Classifier *)

(** C1. For every joined row with two slots, the raw side in slot 0 and
    the reported side in slot 1, the classifier emits the status the
    decision table gives: [count okay] (only in verbose mode, otherwise
    the row is left out) when both counts are present and equal,
    [error: count mismatch] when both are present and differ,
    [warn: missing optimized count] or
    [error: count mismatch (no optimized count)] when only the raw count
    is there and is zero or not, [warn: leaked optimized count] or
    [error: count mismatch (no entries)] when only the reported count is
    there and is zero or not. *)
Theorem C1_decision_table (verbose : bool) (key : string)
    (raw reported : option datum) :
  option_map (map AuditStream.status)
    (AuditStream._transform verbose (mkRow key [raw; reported])) =
  match decision_table (count_of raw) (count_of reported) with
  | Some st => Some (if suppressed verbose st then [] else [st])
  | None => None
  end.
Proof.
  unfold AuditStream._transform, AuditStream.emitRow, suppressed; simpl.
  destruct raw as [[r kr]|], reported as [[c kc]|]; simpl.
  - unfold AuditStream.loose_neq.
    destruct (Z.eqb_spec r c) as [->|Hne].
    + rewrite Z.eqb_refl. destruct verbose; reflexivity.
    + assert (E : (c =? r)%Z = false) by (apply Z.eqb_neq; congruence).
      rewrite E. reflexivity.
  - destruct (r =? 0)%Z; reflexivity.
  - destruct (c =? 0)%Z; reflexivity.
  - reflexivity.
Qed.

(** The record [emitRow] pushes for a row: its [dirname] is the key of the
    row, and a count is 0 when its slot is absent. *)
Lemma emitted_record_fields (verbose : bool) (key : string)
    (raw reported : option datum) (ds : list AuditStream.diagnostic)
    (d : AuditStream.diagnostic) :
  AuditStream._transform verbose (mkRow key [raw; reported]) = Some ds ->
  In d ds ->
  AuditStream.dirname d = key /\
  AuditStream.ndirents d = count_or_zero raw /\
  AuditStream.nreported d = count_or_zero reported.
Proof.
  unfold AuditStream._transform, AuditStream.emitRow, AuditStream.emitRowRaw,
    AuditStream.or0, count_or_zero; simpl.
  assert (Hz : forall n : Z, (if (n =? 0)%Z then 0%Z else n) = n).
  { intros n. destruct (Z.eqb_spec n 0); congruence. }
  destruct raw as [[r kr]|], reported as [[c kc]|]; simpl;
    try discriminate.
  - destruct (c =? r)%Z; simpl.
    + destruct verbose; simpl; intros H; inversion H; subst.
      * intros [<-|[]]. simpl. rewrite !Hz. auto.
      * intros [].
    + intros H; inversion H; subst. intros [<-|[]]. simpl.
      rewrite !Hz. auto.
  - intros H; inversion H; subst. intros [<-|[]]. simpl.
    rewrite !Hz. auto.
  - intros H; inversion H; subst. intros [<-|[]]. simpl.
    rewrite !Hz. auto.
Qed.

(** C4 as stated fails: on the line [5 "a"] the parser hands on the key
    token ["a"] with its quotes, JSON.parse decodes that token to the one
    code unit [a], and the record emitted for a row with that key has the
    token, not the decoded string, as its [dirname]; a reader who decodes
    the [dirname] written to the output gets the token back, quotes
    included. *)
Lemma C4_dirname_not_decoded :
  SplitStream.pushed (SplitStream._transform ("5 " ++ JSON.quoted "a")%string)
    = [(5%Z, JSON.quoted "a")] /\
  JSON.parse (JSON.quoted "a") = Some (JSON.VString (units "a")) /\
  exists d,
    AuditStream._transform false
      (mkRow (JSON.quoted "a") [Some (5%Z, JSON.quoted "a"); None])
      = Some [d] /\
    units (AuditStream.dirname d) <> units "a" /\
    JSON.parse (JSON.stringify (AuditStream.dirname d))
      = Some (JSON.VString (units (JSON.quoted "a"))).
Proof.
  split; [reflexivity|]. split; [reflexivity|].
  eexists. split; [reflexivity|]. split.
  - vm_compute. discriminate.
  - vm_compute. reflexivity.
Qed.

(** ** Parser *)

(** C3 at the failing inputs: fields with a leading zero, a sign or a
    fractional part are not canonical, and the parser lets each of them
    through as a record, without a warning. *)
Theorem C3_noncanonical_accepted :
  canonical "05" = false /\
  SplitStream._transform ("05 " ++ JSON.quoted "a")%string
    = SplitStream.push (5%Z, JSON.quoted "a") /\
  canonical "+5" = false /\
  SplitStream._transform ("+5 " ++ JSON.quoted "a")%string
    = SplitStream.push (5%Z, JSON.quoted "a") /\
  canonical "-5" = false /\
  SplitStream._transform ("-5 " ++ JSON.quoted "a")%string
    = SplitStream.push ((-5)%Z, JSON.quoted "a") /\
  canonical "5.0" = false /\
  SplitStream._transform ("5.0 " ++ JSON.quoted "a")%string
    = SplitStream.push (5%Z, JSON.quoted "a").
Proof. repeat split; vm_compute; reflexivity. Qed.

(** The line [5 bogus] raises one warning and gives no record. *)
Lemma five_bogus :
  SplitStream._transform "5 bogus" = SplitStream.vsWarn "invalid JSON".
Proof. vm_compute. reflexivity. Qed.

(** C8 at the failing input: a file whose one line has the non-canonical
    count [05] goes through without any warning, and the line contributes
    a record. *)
Theorem C8_noncanonical_not_warned :
  canonical "05" = false /\
  SplitStream.run [("05 " ++ JSON.quoted "a")%string]
    = SplitStream.mkEffects [] [(5%Z, JSON.quoted "a")] /\
  option_map Main.nwarnings
    (Main.auditcounts false
       [[("05 " ++ JSON.quoted "a")%string]; []]
       (Main.eager [[("05 " ++ JSON.quoted "a")%string]; []]))
    = Some 0%nat.
Proof. repeat split; vm_compute; reflexivity. Qed.

(** Warnings do not stop the stream: the lines after a malformed one are
    parsed all the same, and each malformed line counts once. *)
Lemma warnings_do_not_stop :
  SplitStream.run
    [ "5 bogus"; ("3 " ++ JSON.quoted "a")%string; "garbled";
      ("x " ++ JSON.quoted "b")%string; ("4 " ++ JSON.quoted "c")%string ]
  = SplitStream.mkEffects
      ["invalid JSON"; "line garbled"; "not an integer"]
      [(3%Z, JSON.quoted "a"); (4%Z, JSON.quoted "c")].
Proof. vm_compute. reflexivity. Qed.

(** ** End to end *)

Lemma scenario_inputs :
  map SplitStream.pushed (map SplitStream.run [scenario_A; scenario_B]) =
  [ [(3%Z, JSON.quoted "a"); (5%Z, JSON.quoted "b"); (2%Z, JSON.quoted "c")];
    [(3%Z, JSON.quoted "a"); (0%Z, JSON.quoted "b"); (7%Z, JSON.quoted "d")] ].
Proof. vm_compute. reflexivity. Qed.

Lemma scenario_well_formed :
  Forall well_formed
    (map SplitStream.pushed (map SplitStream.run [scenario_A; scenario_B])).
Proof.
  rewrite scenario_inputs.
  repeat constructor.
Qed.

(** C2 as stated fails: in the scenario both files have a record for the
    key [b], with counts 5 and 0, so the classifier reports a plain
    [error: count mismatch] for it, not the status of a row without a
    reported count. *)
Lemma C2_key_b_has_both_counts :
  option_map (fun r => option_map (map summary) (Main.diagnostics r))
    (Main.auditcounts false [scenario_A; scenario_B]
       (Main.eager [scenario_A; scenario_B]))
  <> Some (Some
       [ (5%Z, 0%Z, "error: count mismatch (no optimized count)");
         (2%Z, 0%Z, "error: count mismatch (no optimized count)");
         (0%Z, 7%Z, "error: count mismatch (no entries)") ]).
Proof. vm_compute. intros H. discriminate H. Qed.

Lemma auditcounts_two verbose f1 f2 schedule :
  Main.auditcounts verbose [f1; f2] schedule =
  Some (Main.mkResult
          (Main.audit verbose
             (rows (run schedule
                      (create (map SplitStream.pushed
                                 (map SplitStream.run [f1; f2]))))))
          (fold_left (fun n _ => Main.streamWarn n)
             (flat_map SplitStream.warned (map SplitStream.run [f1; f2]))
             0%nat)
          (ended (run schedule
                    (create (map SplitStream.pushed
                               (map SplitStream.run [f1; f2])))))
          (exited (run schedule
                     (create (map SplitStream.pushed
                                (map SplitStream.run [f1; f2])))))).
Proof. reflexivity. Qed.

Lemma scenario_eager_ends :
  ended
    (run (Main.eager [scenario_A; scenario_B])
       (create
          (map SplitStream.pushed
             (map SplitStream.run [scenario_A; scenario_B])))) = true.
Proof. vm_compute. reflexivity. Qed.

(** C2, as the code has it.  On the two files of the scenario, in
    non-verbose mode, every run that completes, whatever the schedule of
    the event loop, writes exactly three diagnostics, in key order: none
    for [a] (counts equal); for [b] ndirents 5, nreported 0 and
    [error: count mismatch]; for [c] ndirents 2, nreported 0 and
    [error: count mismatch (no optimized count)]; for [d] ndirents 0,
    nreported 7 and [error: count mismatch (no entries)].  No warning is
    counted and the run does not fail. *)
Theorem C2_end_to_end (schedule : list event) (r : Main.result) :
  Main.auditcounts false [scenario_A; scenario_B] schedule = Some r ->
  Main.completed r = true ->
  Main.diagnostics r =
    Some [ AuditStream.mkDiagnostic (JSON.quoted "b") 5 0
             "error: count mismatch";
           AuditStream.mkDiagnostic (JSON.quoted "c") 2 0
             "error: count mismatch (no optimized count)";
           AuditStream.mkDiagnostic (JSON.quoted "d") 0 7
             "error: count mismatch (no entries)" ] /\
  Main.nwarnings r = 0%nat /\
  Main.failed r = false.
Proof.
  intros H Hc. rewrite auditcounts_two in H.
  assert (Hr : r =
    Main.mkResult
      (Main.audit false
         (rows (run schedule
                  (create (map SplitStream.pushed
                             (map SplitStream.run [scenario_A; scenario_B]))))))
      (fold_left (fun n _ => Main.streamWarn n)
         (flat_map SplitStream.warned
            (map SplitStream.run [scenario_A; scenario_B])) 0%nat)
      (ended (run schedule
                (create (map SplitStream.pushed
                           (map SplitStream.run [scenario_A; scenario_B])))))
      (exited (run schedule
                 (create (map SplitStream.pushed
                            (map SplitStream.run [scenario_A; scenario_B]))))))
    by congruence.
  clear H. subst r.
  cbn [Main.completed Main.diagnostics Main.nwarnings Main.failed] in *.
  split; [|split].
  - rewrite (complete_runs_agree _ schedule
               (Main.eager [scenario_A; scenario_B])
               scenario_well_formed Hc scenario_eager_ends).
    vm_compute. reflexivity.
  - vm_compute. reflexivity.
  - apply (ahead_alive _ (run_ahead _ schedule scenario_well_formed)).
Qed.

Lemma C2_end_to_end_witness :
  Main.auditcounts false [scenario_A; scenario_B]
    (Main.eager [scenario_A; scenario_B]) =
  Some (Main.mkResult
          (Some [ AuditStream.mkDiagnostic (JSON.quoted "b") 5 0
                    "error: count mismatch";
                  AuditStream.mkDiagnostic (JSON.quoted "c") 2 0
                    "error: count mismatch (no optimized count)";
                  AuditStream.mkDiagnostic (JSON.quoted "d") 0 7
                    "error: count mismatch (no entries)" ])
          0 true false) /\
  Main.completed
    (Main.mkResult
          (Some [ AuditStream.mkDiagnostic (JSON.quoted "b") 5 0
                    "error: count mismatch";
                  AuditStream.mkDiagnostic (JSON.quoted "c") 2 0
                    "error: count mismatch (no optimized count)";
                  AuditStream.mkDiagnostic (JSON.quoted "d") 0 7
                    "error: count mismatch (no entries)" ])
          0 true false) = true /\
  Main.nwarnings
    (Main.mkResult
          (Some [ AuditStream.mkDiagnostic (JSON.quoted "b") 5 0
                    "error: count mismatch";
                  AuditStream.mkDiagnostic (JSON.quoted "c") 2 0
                    "error: count mismatch (no optimized count)";
                  AuditStream.mkDiagnostic (JSON.quoted "d") 0 7
                    "error: count mismatch (no entries)" ])
          0 true false) = 0%nat.
Proof.
  split; [vm_compute; reflexivity|]. split; [reflexivity|].
  apply (C2_end_to_end (Main.eager [scenario_A; scenario_B])).
  - vm_compute. reflexivity.
  - reflexivity.
Defined.

(** ** Merge engine *)

Lemma sorted_NoDup l : StronglySorted key_lt l -> NoDup l.
Proof.
  induction 1 as [|a l _ IH Ha]; constructor; [|assumption].
  intros Hin. rewrite Forall_forall in Ha. specialize (Ha _ Hin).
  unfold key_lt in Ha. rewrite str_ltb_irrefl in Ha. discriminate.
Qed.

Lemma slot_some_lt i r d :
  slot i r = Some d -> (i < List.length (row_slots r))%nat.
Proof.
  unfold slot. intros H.
  destruct (Nat.lt_ge_cases i (List.length (row_slots r))) as [L|G];
    [assumption|].
  rewrite nth_overflow in H by assumption. discriminate.
Qed.

Lemma joined_in_input ins js i d :
  invariant ins js -> In d (joined i js) ->
  exists inp, nth_error ins i = Some inp /\ In d inp.
Proof.
  intros Hinv Hd.
  destruct (in_slots _ _ _ Hd) as (r & Hr & Hsl).
  pose proof (inv_rows _ _ Hinv) as Hrows.
  rewrite Forall_forall in Hrows. destruct (Hrows _ Hr) as (Hlen & _).
  pose proof (slot_some_lt _ _ _ Hsl) as Hlt.
  rewrite Hlen, <- (inv_length _ _ Hinv) in Hlt.
  destruct (nth_error (js_sources js) i) as [src|] eqn:Hs.
  - destruct (inv_sources _ _ Hinv _ _ Hs) as (inp & Hinp & Hok).
    exists inp. split; [assumption|].
    rewrite (so_conserve _ _ _ Hok). apply in_or_app. left. assumption.
  - apply nth_error_None in Hs. lia.
Qed.



Lemma pull1_reads c i src d rest :
  src_next src = None -> src_done src = false ->
  src_stream src = d :: rest -> available c i = true ->
  pull1 c i src =
  (mkSource rest (Some d) (Some (join_field d)) (src_last_join src) false,
   if JS.lt_nullable (join_field d) (src_last_join src)
   then Disorder else Ready).
Proof.
  intros Hn Hd Hs Ha. unfold pull1, read. rewrite Hn, Hd, Hs, Ha. simpl.
  reflexivity.
Qed.

Lemma pull_detects c srcs :
  forall base i src d rest,
    nth_error srcs i = Some src ->
    src_next src = None -> src_done src = false ->
    src_stream src = d :: rest -> available c (base + i) = true ->
    JS.lt_nullable (join_field d) (src_last_join src) = true ->
    exists j l, pull c base srcs = OutOfOrder j l.
Proof.
  induction srcs as [|a srcs IH]; intros base i src d rest Hi Hn Hd Hs Ha Hlt.
  - destruct i; discriminate.
  - destruct i as [|i]; simpl in Hi.
    + inversion Hi; subst a. simpl.
      rewrite Nat.add_0_r in Ha.
      rewrite (pull1_reads c base src d rest Hn Hd Hs Ha), Hlt. eauto.
    + simpl. destruct (pull1 c base a) as [a' st].
      replace (base + S i)%nat with (S base + i)%nat in Ha by lia.
      destruct (IH (S base) i src d rest Hi Hn Hd Hs Ha Hlt) as (j & l & E).
      rewrite E. destruct st; eauto.
Qed.

Lemma pull_nth c srcs :
  forall base l b i s,
    pull c base srcs = Pulled l b -> nth_error srcs i = Some s ->
    nth_error l i = Some (fst (pull1 c (base + i) s)).
Proof.
  induction srcs as [|a srcs IH]; intros base l b i s Hp Hi.
  - destruct i; discriminate.
  - simpl in Hp.
    destruct (pull1 c base a) as [a' st] eqn:E1.
    destruct (pull c (S base) srcs) as [l' b'|] eqn:E2;
      [|destruct st; discriminate].
    assert (Hl : l = a' :: l') by (destruct st; congruence).
    subst l.
    destruct i as [|i]; simpl in *.
    + inversion Hi; subst a. rewrite Nat.add_0_r, E1. reflexivity.
    + replace (base + S i)%nat with (S base + i)%nat by lia.
      eapply IH; eassumption.
Qed.

Lemma pulled_ordered c base srcs l b rs :
  StronglySorted key_le (map row_key rs) ->
  Forall (src_ordered rs) srcs ->
  pull c base srcs = Pulled l b ->
  Forall (src_ordered rs) l.
Proof.
  intros Hs Hsrcs Hp.
  pose proof (pull_pulled _ _ _ _ _ Hp) as Hpp.
  rewrite Forall_forall in *. intros s' Hin.
  destruct (Forall2_In_right _ _ _ Hpp _ Hin) as (s & Hsin & st & H1 & H2 & _).
  eapply pulls_src_ordered; eauto.
Qed.

Lemma last_row_key_In rs k :
  last_row_key rs = Some k -> exists r, In r rs /\ row_key r = k.
Proof.
  destruct (snoc_cases rs) as [->|(h & r & ->)].
  - discriminate.
  - rewrite last_row_key_snoc. intros H; inversion H; subst.
    exists r. split; [apply in_or_app; right; left|]; reflexivity.
Qed.

Lemma exited_run_fixed es js : exited js = true -> run es js = js.
Proof.
  intros Hx. induction es as [|e es IH]; simpl; [reflexivity|].
  unfold dispatch. rewrite Hx. exact IH.
Qed.

Lemma filter_end_rows rs : filter is_end (map Row rs) = [].
Proof. induction rs; simpl; auto. Qed.

(** C6. Whenever a source hands over a record whose key is below the last
    key that source contributed to a pushed row, the pass of [kick] that
    reads it ends with the ['error'] event of an out-of-order source: no
    row is pushed in it or after it, the stream is never ended, and no
    later event changes anything; the input of that source is what it had
    joined before, then the record read, then the rest, and what it has
    joined never grows again, so the record at the violation and the
    records after it never reach a row (this is how "no output at or after
    the violation" is read).  Hence on an input that breaks its own order
    no schedule ends the stream, and the run can always be brought to the
    fatal error. *)
Theorem C6_fatal_on_disorder (ins : list (list datum)) (es : list event) :
  (forall c more i src d rest k,
     finished (run es (create ins)) = false ->
     js_waiting (run es (create ins)) = false ->
     nth_error (js_sources (run es (create ins))) i = Some src ->
     src_next src = None -> src_done src = false ->
     src_stream src = d :: rest -> available c i = true ->
     last_key (joined i (run es (create ins))) = Some k ->
     key_lt (join_field d) k ->
     exists j,
       js_trace (kick c more (run es (create ins))) =
         js_trace (run es (create ins)) ++ [Error j] /\
       rows (kick c more (run es (create ins))) = rows (run es (create ins)) /\
       ended (kick c more (run es (create ins))) = false /\
       (forall es', run es' (kick c more (run es (create ins))) =
                    kick c more (run es (create ins))) /\
       nth_error ins i = Some (joined i (run es (create ins)) ++ d :: rest) /\
       (forall es',
          joined i (run es' (kick c more (run es (create ins)))) =
          joined i (run es (create ins)))) /\
  (forall i inp,
     nth_error ins i = Some inp -> disordered inp ->
     ended (run es (create ins)) = false /\
     exited (dispatch (finish (run es (create ins))) (run es (create ins)))
       = true).
Proof.
  pose proof (run_invariant ins es) as Hinv.
  split.
  - intros c more i src d rest k Hfin Hw Hi Hn Hd Hs Ha Hk Hlt.
    unfold finished in Hfin. apply orb_false_elim in Hfin.
    destruct Hfin as [He Hx].
    destruct (inv_sources _ _ Hinv _ _ Hi) as (inp & Hinp & Hok).
    assert (Hbelow : JS.lt_nullable (join_field d) (src_last_join src) = true).
    { rewrite (so_last _ _ _ Hok), Hk. exact Hlt. }
    destruct (pull_detects c _ 0 i src d rest Hi Hn Hd Hs Ha Hbelow)
      as (j & l & Ep).
    assert (Hpass : pass c (run es (create ins)) =
                    (emit (Error j) (run es (create ins)) l, false)).
    { unfold pass. rewrite Hw, (inv_working _ _ Hinv), Ep. reflexivity. }
    assert (Hkick : kick c more (run es (create ins)) =
                    emit (Error j) (run es (create ins)) l).
    { destruct more; simpl; rewrite Hpass; reflexivity. }
    assert (Hfix : forall es',
              run es' (emit (Error j) (run es (create ins)) l) =
              emit (Error j) (run es (create ins)) l).
    { intros es'. apply exited_run_fixed.
      rewrite exited_emit. apply orb_true_r. }
    exists j. rewrite Hkick.
    split; [reflexivity|].
    split; [apply rows_emit_other; discriminate|].
    split; [rewrite ended_emit, He; reflexivity|].
    split; [exact Hfix|].
    split.
    + rewrite Hinp, (so_conserve _ _ _ Hok). unfold pending, buffered.
      rewrite Hn, Hs. reflexivity.
    + intros es'. rewrite Hfix. apply joined_rows.
      apply rows_emit_other. discriminate.
  - intros i inp Hi Hdis. split.
    + apply (disordered_never_ends ins es i inp Hi Hdis).
    + pose proof (finish_finishes ins _ Hinv) as Hfin.
      unfold finished in Hfin.
      rewrite <- run_snoc in *.
      rewrite (disordered_never_ends ins _ i inp Hi Hdis) in Hfin.
      exact Hfin.
Qed.

(** C7. Under every schedule the assertions of [kick] hold, the stream is
    ended at most once, and when it has been ended the end is the last
    thing it did, exactly once, every source is done, holds no buffered
    record and has nothing left to read, and every record of every input
    is part of a pushed row. *)
Theorem C7_end_of_stream (ins : list (list datum)) (es : list event) :
  ~ In AssertionFailed (js_trace (run es (create ins))) /\
  (end_count (run es (create ins)) <= 1)%nat /\
  (ended (run es (create ins)) = true ->
   js_trace (run es (create ins)) =
     map Row (rows (run es (create ins))) ++ [EndOfStream] /\
   end_count (run es (create ins)) = 1%nat /\
   Forall (fun s => src_done s = true /\ src_next s = None /\
                    src_stream s = [])
     (js_sources (run es (create ins))) /\
   forall i inp, nth_error ins i = Some inp ->
     joined i (run es (create ins)) = inp).
Proof.
  pose proof (run_invariant ins es) as Hinv.
  pose proof (inv_shape _ _ Hinv) as Hshape.
  remember (run es (create ins)) as js eqn:Ejs.
  split; [|split].
  - intros Hin.
    inversion Hshape as [rs Hrs|rs Hrs|rs i Hrs]; rewrite <- Hrs in Hin;
      try (apply in_app_or in Hin; destruct Hin as [Hin|[Hin|[]]];
           [|discriminate]);
      apply in_map_iff in Hin; destruct Hin as (r & Hr & _); discriminate.
  - unfold end_count.
    inversion Hshape as [rs Hrs|rs Hrs|rs i Hrs];
      rewrite ?filter_app, ?filter_end_rows; simpl; lia.
  - intros He.
    assert (Htr : js_trace js = map Row (rows js) ++ [EndOfStream]).
    { unfold ended in He. unfold rows.
      inversion Hshape as [rs Hrs|rs Hrs|rs i Hrs]; rewrite <- Hrs in *.
      - rewrite existsb_map_row in He by reflexivity. discriminate.
      - rewrite flat_map_app. simpl. rewrite app_nil_r.
        f_equal. f_equal. clear. induction rs; simpl; congruence.
      - rewrite existsb_app, existsb_map_row in He by reflexivity.
        discriminate. }
    split; [assumption|]. split.
    + unfold end_count. rewrite Htr, filter_app, filter_end_rows.
      reflexivity.
    + split.
      * destruct (inv_ended _ _ Hinv He) as (_ & Hall).
        rewrite Forall_forall in *. intros s Hs.
        destruct (Hall _ Hs) as (Hd & Hn). repeat split; try assumption.
        destruct (In_nth_error _ _ Hs) as (i & Hi).
        destruct (inv_sources _ _ Hinv _ _ Hi) as (inp & _ & Hok).
        apply (so_done _ _ _ Hok Hd).
      * intros i inp Hi.
        apply (ended_all_joined _ _ _ _ Hinv He Hi).
Qed.

(** C9. Under every schedule and for every source, what the source has
    read from its upstream so far is what it has contributed to pushed
    rows followed by what sits in its one [src_next] buffer, which is at
    most one record; nothing read is held anywhere else or lost. *)
Theorem C9_one_buffered_record (ins : list (list datum)) (es : list event)
    (i : nat) (src : source) :
  nth_error (js_sources (run es (create ins))) i = Some src ->
  exists inp,
    nth_error ins i = Some inp /\
    inp = pulled i (run es (create ins)) ++ src_stream src /\
    pulled i (run es (create ins)) =
      joined i (run es (create ins)) ++ buffered src /\
    (List.length (buffered src) <= 1)%nat.
Proof.
  intros Hi.
  destruct (inv_sources _ _ (run_invariant ins es) _ _ Hi)
    as (inp & Hinp & Hok).
  exists inp. split; [assumption|].
  unfold pulled. rewrite Hi. repeat split.
  - rewrite <- app_assoc. apply (so_conserve _ _ _ Hok).
  - unfold buffered. destruct (src_next src); simpl; lia.
Qed.

(** C10. In a run on key tokens, when source [i] is handed its next
    record [d]: the order check fails exactly when the key of [d] is
    strictly below the last key the source contributed to a pushed row; it
    cannot fail on the first record of the source, because a key token
    compared with the absent last key is never below it; a key equal to
    the last key of the source passes, and the row pushed by that pass of
    [kick] then has that same key again, with [d] in slot [i].
    Conversely, a pass that leaves the first loop on source [j] out of
    order has read, for source [j], a record strictly below the last key
    that source contributed. *)
Theorem C10_order_check (ins : list (list datum)) (es : list event)
    (c : choice) (i : nat) (src : source) (d : datum) (rest : list datum) :
  Forall (Forall (fun d => key_token (join_field d) = true)) ins ->
  exited (run es (create ins)) = false ->
  nth_error (js_sources (run es (create ins))) i = Some src ->
  src_next src = None -> src_done src = false ->
  src_stream src = d :: rest -> available c i = true ->
  (snd (pull1 c i src) = Disorder <->
   exists k, last_key (joined i (run es (create ins))) = Some k /\
             key_lt (join_field d) k) /\
  (joined i (run es (create ins)) = [] -> snd (pull1 c i src) = Ready) /\
  (last_key (joined i (run es (create ins))) = Some (join_field d) ->
   snd (pull1 c i src) = Ready /\
   forall js', js_waiting (run es (create ins)) = false ->
     pass c (run es (create ins)) = (js', true) ->
     exists r, js_trace js' = js_trace (run es (create ins)) ++ [Row r] /\
               row_key r = join_field d /\ slot i r = Some d) /\
  (forall j l, pull c 0 (js_sources (run es (create ins))) = OutOfOrder j l ->
     exists s e more k,
       nth_error (js_sources (run es (create ins))) j = Some s /\
       src_next s = None /\ src_stream s = e :: more /\
       last_key (joined j (run es (create ins))) = Some k /\
       key_lt (join_field e) k).
Proof.
  intros Htok Hx Hi Hn Hd Hs Ha.
  pose proof (run_invariant ins es) as Hinv.
  remember (run es (create ins)) as js eqn:Ejs.
  destruct (inv_sources _ _ Hinv _ _ Hi) as (inp & Hinp & Hok).
  rewrite (pull1_reads c i src d rest Hn Hd Hs Ha). cbn [snd].
  rewrite (so_last _ _ _ Hok).
  assert (Hkt : forall j s e more inp',
             nth_error (js_sources js) j = Some s ->
             nth_error ins j = Some inp' ->
             source_ok inp' (joined j js) s ->
             src_next s = None -> src_stream s = e :: more ->
             key_token (join_field e) = true).
  { intros j s e more inp' Hj Hinp' Hok' Hn' Hs'.
    rewrite Forall_forall in Htok.
    pose proof (Htok _ (nth_error_In _ _ Hinp')) as Hall.
    rewrite Forall_forall in Hall. apply Hall.
    rewrite (so_conserve _ _ _ Hok'). apply in_or_app. right.
    unfold pending, buffered. rewrite Hn', Hs'. left. reflexivity. }
  split; [|split; [|split]].
  - destruct (last_key (joined i js)) as [k|] eqn:Hk.
    + simpl. split.
      * destruct (JS.str_ltb (join_field d) k) eqn:E; [|discriminate].
        intros _. exists k. split; [reflexivity|exact E].
      * intros (k' & Hk' & Hlt). inversion Hk'; subst k'.
        unfold key_lt in Hlt. rewrite Hlt. reflexivity.
    + rewrite (key_token_not_below_null _
                 (Hkt _ _ _ _ _ Hi Hinp Hok Hn Hs)).
      split; [discriminate|]. intros (k' & Hk' & _). discriminate.
  - intros Hj. rewrite Hj.
    change (last_key []) with (@None string).
    rewrite (key_token_not_below_null _ (Hkt _ _ _ _ _ Hi Hinp Hok Hn Hs)).
    reflexivity.
  - intros Hk. rewrite Hk. cbn [JS.lt_nullable]. rewrite str_ltb_irrefl.
    split; [reflexivity|].
    intros js' Hw Hpass.
    destruct (run_ordered ins es) as [Hrows Hsrcs];
      [rewrite <- Ejs; assumption|].
    rewrite <- Ejs in Hrows, Hsrcs.
    revert Hpass. unfold pass. rewrite Hw, (inv_working _ _ Hinv). simpl.
    pose proof (pull_all c (js_sources js) 0) as Hall.
    destruct (pull c 0 (js_sources js)) as [l b|j l] eqn:Ep;
      [|intros H; inversion H].
    simpl in Hall.
    destruct b; [intros H; inversion H|].
    destruct (earliest l) as [j|] eqn:Ee;
      [|destruct (_ =? _)%nat; intros H; inversion H].
    intros H; inversion H; subst js'; clear H.
    pose proof (pull_nth _ _ _ _ _ _ _ Ep Hi) as Hli. simpl in Hli.
    rewrite (pull1_reads c i src d rest Hn Hd Hs Ha) in Hli. simpl in Hli.
    destruct (earliest_some _ _ Ee) as ((s0 & Hin0 & Hj0) & Hmin).
    assert (Hjk : j = join_field d).
    { apply str_ltb_total.
      - (* the last row has the key of [d], and no buffered key is below it *)
        pose proof (pulled_ordered _ _ _ _ _ _ Hrows Hsrcs Ep) as Hl.
        rewrite Forall_forall in Hl, Hsrcs.
        destruct (ord_last _ _ (Hsrcs _ (nth_error_In _ _ Hi)) Hn)
          as [Hr|[Hr|Hr]].
        + exfalso. unfold joined in Hk. rewrite Hr in Hk. discriminate.
        + congruence.
        + rewrite (so_last _ _ _ Hok), Hk in Hr. symmetry in Hr.
          destruct (last_row_key_In _ _ Hr) as (r & Hrin & Hrk).
          pose proof (ord_next _ _ (Hl _ Hin0) r j Hrin Hj0) as Hle.
          rewrite Hrk in Hle. exact Hle.
      - apply (Hmin _ _ (nth_error_In _ _ Hli)). reflexivity. }
    eexists. split; [reflexivity|]. split; [exact Hjk|].
    rewrite (slot_output _ _ _ _ Hli). unfold take. simpl.
    rewrite Hjk, String.eqb_refl. reflexivity.
  - intros j l Ep.
    destruct (pull_out_of_order _ _ _ _ _ Ep) as (_ & s & s' & H1 & _ & H3).
    rewrite Nat.sub_0_r in H1.
    destruct (inv_sources _ _ Hinv _ _ H1) as (inp' & Hinp' & Hok').
    inversion H3 as [| | |e more Hn' Hd' Hs' Es' Est]; subst.
    destruct (JS.lt_nullable (join_field e) (src_last_join s)) eqn:E;
      [|discriminate].
    rewrite (so_last _ _ _ Hok') in E.
    destruct (last_key (joined j (run es (create ins)))) as [k|] eqn:Hk.
    + exists s, e, more, k. repeat split; assumption.
    + rewrite (key_token_not_below_null _
                 (Hkt _ _ _ _ _ H1 Hinp' Hok' Hn' Hs')) in E.
      discriminate.
Qed.

(** ** The statements on small runs *)

Lemma C6_fatal_on_disorder_witness :
  finished (run example_first_pass (create example_disorder)) = false /\
  js_waiting (run example_first_pass (create example_disorder)) = false /\
  nth_error (js_sources (run example_first_pass (create example_disorder))) 0
    = Some (mkSource [(1%Z, JSON.quoted "a")] None None
              (Some (JSON.quoted "b")) false) /\
  last_key (joined 0 (run example_first_pass (create example_disorder)))
    = Some (JSON.quoted "b") /\
  key_lt (join_field (1%Z, JSON.quoted "a")) (JSON.quoted "b") /\
  exists j,
    js_trace (kick prompt [] (run example_first_pass (create example_disorder)))
      = js_trace (run example_first_pass (create example_disorder))
        ++ [Error j] /\
    rows (kick prompt [] (run example_first_pass (create example_disorder)))
      = rows (run example_first_pass (create example_disorder)) /\
    ended (kick prompt [] (run example_first_pass (create example_disorder)))
      = false /\
    (forall es',
      run es' (kick prompt [] (run example_first_pass (create example_disorder)))
      = kick prompt [] (run example_first_pass (create example_disorder))) /\
    nth_error example_disorder 0 =
      Some (joined 0 (run example_first_pass (create example_disorder))
            ++ [(1%Z, JSON.quoted "a")]) /\
    (forall es',
       joined 0
         (run es'
            (kick prompt [] (run example_first_pass (create example_disorder))))
       = joined 0 (run example_first_pass (create example_disorder))).
Proof.
  split; [vm_compute; reflexivity|].
  split; [vm_compute; reflexivity|].
  split; [vm_compute; reflexivity|].
  split; [vm_compute; reflexivity|].
  split; [vm_compute; reflexivity|].
  refine (proj1 (C6_fatal_on_disorder example_disorder example_first_pass)
            prompt [] 0%nat
            (mkSource [(1%Z, JSON.quoted "a")] None None
               (Some (JSON.quoted "b")) false)
            (1%Z, JSON.quoted "a") [] (JSON.quoted "b")
            _ _ _ _ _ _ _ _ _);
    vm_compute; reflexivity.
Defined.

Lemma C7_end_of_stream_witness :
  ended (run [WantData prompt [prompt; prompt]]
           (create example_equal_keys)) = true /\
  end_count (run [WantData prompt [prompt; prompt]]
               (create example_equal_keys)) = 1%nat.
Proof.
  split; [vm_compute; reflexivity|].
  refine (proj1 (proj2
            (proj2 (proj2 (C7_end_of_stream example_equal_keys
                             [WantData prompt [prompt; prompt]])) _))).
  vm_compute. reflexivity.
Defined.

Lemma C9_one_buffered_record_witness :
  nth_error
    (js_sources (run [WantData (mkChoice (fun _ => true) (fun _ => false)) []]
                   (create [ [(1%Z, JSON.quoted "a"); (2%Z, JSON.quoted "c")];
                             [(3%Z, JSON.quoted "b")] ]))) 1
    = Some (mkSource [] (Some (3%Z, JSON.quoted "b"))
              (Some (JSON.quoted "b")) None false) /\
  exists inp,
    nth_error [ [(1%Z, JSON.quoted "a"); (2%Z, JSON.quoted "c")];
                [(3%Z, JSON.quoted "b")] ] 1 = Some inp /\
    inp =
      pulled 1
        (run [WantData (mkChoice (fun _ => true) (fun _ => false)) []]
           (create [ [(1%Z, JSON.quoted "a"); (2%Z, JSON.quoted "c")];
                     [(3%Z, JSON.quoted "b")] ]))
      ++ src_stream (mkSource [] (Some (3%Z, JSON.quoted "b"))
                       (Some (JSON.quoted "b")) None false) /\
    pulled 1
      (run [WantData (mkChoice (fun _ => true) (fun _ => false)) []]
         (create [ [(1%Z, JSON.quoted "a"); (2%Z, JSON.quoted "c")];
                   [(3%Z, JSON.quoted "b")] ]))
    = joined 1
        (run [WantData (mkChoice (fun _ => true) (fun _ => false)) []]
           (create [ [(1%Z, JSON.quoted "a"); (2%Z, JSON.quoted "c")];
                     [(3%Z, JSON.quoted "b")] ]))
      ++ buffered (mkSource [] (Some (3%Z, JSON.quoted "b"))
                     (Some (JSON.quoted "b")) None false) /\
    (List.length
       (buffered (mkSource [] (Some (3%Z, JSON.quoted "b"))
                    (Some (JSON.quoted "b")) None false)) <= 1)%nat.
Proof.
  split; [vm_compute; reflexivity|].
  apply (C9_one_buffered_record
           [ [(1%Z, JSON.quoted "a"); (2%Z, JSON.quoted "c")];
             [(3%Z, JSON.quoted "b")] ]
           [WantData (mkChoice (fun _ => true) (fun _ => false)) []] 1%nat).
  vm_compute. reflexivity.
Defined.

Lemma C10_order_check_witness :
  Forall (Forall (fun d => key_token (join_field d) = true))
    example_equal_keys /\
  exited (run example_first_pass (create example_equal_keys)) = false /\
  nth_error (js_sources (run example_first_pass (create example_equal_keys))) 0
    = Some (mkSource [(2%Z, JSON.quoted "a")] None None
              (Some (JSON.quoted "a")) false) /\
  last_key (joined 0 (run example_first_pass (create example_equal_keys)))
    = Some (join_field (2%Z, JSON.quoted "a")) /\
  snd (pull1 prompt 0
         (mkSource [(2%Z, JSON.quoted "a")] None None
            (Some (JSON.quoted "a")) false)) = Ready.
Proof.
  assert (Htok : Forall (Forall (fun d => key_token (join_field d) = true))
                   example_equal_keys).
  { repeat constructor. }
  split; [exact Htok|].
  split; [vm_compute; reflexivity|].
  split; [vm_compute; reflexivity|].
  split; [vm_compute; reflexivity|].
  refine (proj1 (proj1 (proj2 (proj2
            (C10_order_check example_equal_keys example_first_pass prompt
               0%nat
               (mkSource [(2%Z, JSON.quoted "a")] None None
                  (Some (JSON.quoted "a")) false)
               (2%Z, JSON.quoted "a") [] Htok _ _ _ _ _ _))) _));
    vm_compute; reflexivity.
Defined.

(** ** From the input lines to the diagnostics *)

Lemma audit_In verbose rs :
  forall ds d, Main.audit verbose rs = Some ds -> In d ds ->
    exists r ds', In r rs /\ AuditStream._transform verbose r = Some ds' /\
                  In d ds'.
Proof.
  induction rs as [|r rs IH]; intros ds d; simpl.
  - intros H; inversion H; subst. intros [].
  - destruct (AuditStream._transform verbose r) as [ds1|] eqn:E1;
      [|discriminate].
    destruct (Main.audit verbose rs) as [ds2|] eqn:E2; [|discriminate].
    intros H; inversion H; subst. intros Hin.
    apply in_app_or in Hin. destruct Hin as [Hin|Hin].
    + exists r, ds1. auto.
    + destruct (IH _ _ eq_refl Hin) as (r' & ds' & H1 & H2 & H3).
      exists r', ds'. auto.
Qed.

Lemma transform_two_slots verbose r ds :
  AuditStream._transform verbose r = Some ds ->
  exists e1 e2, r = mkRow (row_key r) [e1; e2].
Proof.
  unfold AuditStream._transform. destruct r as [k sl]. simpl.
  destruct sl as [|e1 [|e2 [|e3 sl]]]; try discriminate.
  intros _. eauto.
Qed.

(** On two sources every row has two slots, one of them populated, so the
    assertions of AuditStream hold on everything JoinStream pushes. *)
Lemma audit_never_throws verbose (in1 in2 : list datum) es :
  Main.audit verbose (rows (run es (create [in1; in2]))) <> None.
Proof.
  pose proof (inv_rows _ _ (run_invariant [in1; in2] es)) as Hrows.
  induction Hrows as [|r rs (Hlen & (i & d & Hsl) & _) _ IH]; simpl.
  - discriminate.
  - destruct (Main.audit verbose rs) as [more|]; [|congruence].
    destruct r as [k sl]. simpl in Hlen.
    destruct sl as [|e1 [|e2 [|e3 sl]]]; try discriminate.
    unfold AuditStream._transform, AuditStream.emitRow. simpl.
    destruct e1 as [[r1 k1]|], e2 as [[r2 k2]|]; simpl.
    + destruct (negb (r2 =? r1)%Z); [discriminate|].
      destruct (negb verbose); discriminate.
    + discriminate.
    + discriminate.
    + exfalso. unfold slot in Hsl. simpl in Hsl.
      destruct i as [|[|[|i]]]; discriminate.
Qed.

(** C4, as the code has it.  Every record the program writes belongs to a
    row the merge pushed; its [dirname] is the key of that row, which is
    field 2 of an input line exactly as written there (the serialised
    literal, quotes included, not its decoded value); its [ndirents] is
    the raw count of the row, or 0 when the raw slot is absent; its
    [nreported] is the reported count, or 0 when the reported slot is
    absent. *)
Theorem C4_output_record (verbose : bool) (f1 f2 : list string)
    (schedule : list event) (r : Main.result)
    (ds : list AuditStream.diagnostic) (d : AuditStream.diagnostic) :
  Main.auditcounts verbose [f1; f2] schedule = Some r ->
  Main.diagnostics r = Some ds ->
  In d ds ->
  exists raw reported,
    In (mkRow (AuditStream.dirname d) [raw; reported])
       (rows (run schedule
                (create (map SplitStream.pushed
                           (map SplitStream.run [f1; f2]))))) /\
    AuditStream.ndirents d = count_or_zero raw /\
    AuditStream.nreported d = count_or_zero reported /\
    exists line p0,
      In line (f1 ++ f2) /\
      strsplit (JS.trim line) 2 = [p0; AuditStream.dirname d].
Proof.
  intros H Hds Hd. rewrite auditcounts_two in H.
  injection H as Hr. rewrite <- Hr in Hds.
  cbn [Main.diagnostics] in Hds. clear Hr r.
  destruct (audit_In _ _ _ _ Hds Hd) as (rw & ds' & Hrw & Htr & Hd').
  destruct (transform_two_slots _ _ _ Htr) as (raw & reported & Erw).
  rewrite Erw in Htr.
  destruct (emitted_record_fields _ _ _ _ _ _ Htr Hd') as (Hname & Hn & Hrep).
  exists raw, reported.
  rewrite Hname, <- Erw. repeat split; try assumption.
  (* the key of the row is the key of a record of one of the inputs *)
  set (ins := map SplitStream.pushed (map SplitStream.run [f1; f2])) in *.
  pose proof (run_invariant ins schedule) as Hinv.
  pose proof (inv_rows _ _ Hinv) as Hrows.
  rewrite Forall_forall in Hrows.
  destruct (Hrows _ Hrw) as (_ & (i & e & Hsl) & Hkey).
  assert (He : In e (joined i (run schedule (create ins)))).
  { unfold joined. apply in_flat_map. exists rw. split; [assumption|].
    unfold slot_list. rewrite Hsl. left. reflexivity. }
  destruct (joined_in_input _ _ _ _ Hinv He) as (inp & Hinp & Hin).
  assert (Hfile : exists f, In f [f1; f2] /\
                            In e (SplitStream.pushed (SplitStream.run f))).
  { subst ins. simpl in Hinp.
    destruct i as [|[|i]]; simpl in Hinp.
    - inversion Hinp; subst. exists f1. split; [left; reflexivity|assumption].
    - inversion Hinp; subst. exists f2.
      split; [right; left; reflexivity|assumption].
    - destruct i; discriminate. }
  destruct Hfile as (f & Hf & Hpushed).
  destruct (run_pushed _ _ Hpushed) as (line & Hline & Hl).
  destruct (transform_pushed _ _ Hl) as (_ & _ & p0 & Hsplit).
  exists line, p0. split.
  - apply in_or_app. destruct Hf as [<-|[<-|[]]]; auto.
  - rewrite <- (Hkey _ _ Hsl). exact Hsplit.
Qed.

Lemma C4_output_record_witness :
  Main.auditcounts false [scenario_A; scenario_B]
    (Main.eager [scenario_A; scenario_B])
  = Some (Main.mkResult
            (Some [ AuditStream.mkDiagnostic (JSON.quoted "b") 5 0
                      "error: count mismatch";
                    AuditStream.mkDiagnostic (JSON.quoted "c") 2 0
                      "error: count mismatch (no optimized count)";
                    AuditStream.mkDiagnostic (JSON.quoted "d") 0 7
                      "error: count mismatch (no entries)" ])
            0 true false) /\
  exists raw reported,
    In (mkRow (JSON.quoted "c") [raw; reported])
       (rows (run (Main.eager [scenario_A; scenario_B])
                (create (map SplitStream.pushed
                           (map SplitStream.run [scenario_A; scenario_B])))))
    /\
    2%Z = count_or_zero raw /\
    0%Z = count_or_zero reported /\
    exists line p0,
      In line (scenario_A ++ scenario_B) /\
      strsplit (JS.trim line) 2 = [p0; JSON.quoted "c"].
Proof.
  split; [vm_compute; reflexivity|].
  refine (C4_output_record false scenario_A scenario_B
            (Main.eager [scenario_A; scenario_B]) _ _
            (AuditStream.mkDiagnostic (JSON.quoted "c") 2 0
               "error: count mismatch (no optimized count)")
            _ _ _).
  - vm_compute. reflexivity.
  - reflexivity.
  - right. left. reflexivity.
Defined.

(** ** Warnings and the lines after them *)

Lemma run_fold lines :
  forall acc,
    fold_left
      (fun acc line =>
         let e := SplitStream._transform line in
         SplitStream.mkEffects
           (SplitStream.warned acc ++ SplitStream.warned e)
           (SplitStream.pushed acc ++ SplitStream.pushed e))
      lines acc =
    SplitStream.mkEffects
      (SplitStream.warned acc ++ SplitStream.warned (SplitStream.run lines))
      (SplitStream.pushed acc ++ SplitStream.pushed (SplitStream.run lines)).
Proof.
  induction lines as [|l lines IH]; intros acc.
  - unfold SplitStream.run. simpl. rewrite !app_nil_r.
    destruct acc; reflexivity.
  - simpl. rewrite IH.
    assert (Hrun : SplitStream.run (l :: lines) =
              fold_left
                (fun acc line =>
                   let e := SplitStream._transform line in
                   SplitStream.mkEffects
                     (SplitStream.warned acc ++ SplitStream.warned e)
                     (SplitStream.pushed acc ++ SplitStream.pushed e))
                lines
                (SplitStream.mkEffects
                   (SplitStream.warned (SplitStream._transform l))
                   (SplitStream.pushed (SplitStream._transform l))))
      by reflexivity.
    rewrite Hrun, (IH (SplitStream.mkEffects _ _)). simpl.
    rewrite <- !app_assoc. reflexivity.
Qed.

(** A malformed line changes nothing for the lines after it: the stream
    over two stretches of lines does what it does over each of them. *)
Lemma run_app l1 l2 :
  SplitStream.run (l1 ++ l2) =
  SplitStream.mkEffects
    (SplitStream.warned (SplitStream.run l1)
       ++ SplitStream.warned (SplitStream.run l2))
    (SplitStream.pushed (SplitStream.run l1)
       ++ SplitStream.pushed (SplitStream.run l2)).
Proof.
  unfold SplitStream.run at 1. rewrite fold_left_app.
  fold (SplitStream.run l1). apply run_fold.
Qed.

(** Every line is either warned about or turned into a record. *)
Lemma run_lengths lines :
  (List.length (SplitStream.warned (SplitStream.run lines)) +
   List.length (SplitStream.pushed (SplitStream.run lines)) =
   List.length lines)%nat.
Proof.
  induction lines as [|l lines IH].
  - reflexivity.
  - rewrite (run_app [l] lines : SplitStream.run (l :: lines) = _).
    cbn [SplitStream.warned SplitStream.pushed]. rewrite !length_app.
    assert (H1 : (List.length (SplitStream.warned (SplitStream.run [l])) +
                  List.length (SplitStream.pushed (SplitStream.run [l])) = 1)%nat).
    { unfold SplitStream.run. simpl.
      destruct (transform_effect l) as [(k & -> & _)|(d & ->)]; reflexivity. }
    cbn [List.length]. lia.
Qed.

(** Under the eager schedule the run is over after the one call of
    [_read], whatever the two files hold. *)
Lemma eager_finishes f1 f2 :
  finished
    (run (Main.eager [f1; f2])
       (create (map SplitStream.pushed (map SplitStream.run [f1; f2]))))
  = true.
Proof.
  unfold Main.eager, run. simpl fold_left.
  unfold dispatch, _read. simpl.
  apply (kick_prompt_finishes
           [SplitStream.pushed (SplitStream.run f1);
            SplitStream.pushed (SplitStream.run f2)]);
    try reflexivity.
  - apply create_invariant.
  - unfold backlog, pending, buffered. simpl.
    pose proof (run_lengths f1). pose proof (run_lengths f2). lia.
Qed.

(** * Further properties of the program *)

(** ** Rendering and reading back a count *)

Ltac digit_value :=
  match goal with
  | |- context [JS.digit_val ?c] =>
      let v := eval vm_compute in (JS.digit_val c) in
      change (JS.digit_val c) with v
  end.

Lemma digits_val_acc u :
  forall acc,
    JS.digits_val (Zpos acc) (NilEmpty.string_of_uint u) =
    Zpos (Pos.of_uint_acc u acc).
Proof.
  induction u; intros acc;
    cbn [NilEmpty.string_of_uint JS.digits_val Pos.of_uint_acc];
    try reflexivity;
    rewrite <- IHu; f_equal; digit_value; lia.
Qed.

Lemma digits_val_uint u :
  JS.digits_val 0 (NilEmpty.string_of_uint u) = Z.of_uint u.
Proof.
  unfold Z.of_uint.
  induction u;
    cbn [NilEmpty.string_of_uint JS.digits_val Pos.of_uint Z.of_N];
    try reflexivity;
    try (rewrite <- digits_val_acc; f_equal; digit_value; lia).
  exact IHu.
Qed.

(** ** Writing a string as JSON and reading it back *)

Lemma string_body_escape c s us r :
  JSON.string_body s = Some (us, r) ->
  JSON.string_body (JSON.escape c ++ s) = Some (N_of_ascii c :: us, r).
Proof.
  intros IH.
  destruct c as [[] [] [] [] [] [] [] []];
    vm_compute JSON.escape; cbn [append JSON.string_body];
    vm_compute Ascii.eqb; cbv iota;
    repeat (vm_compute JSON.hex4 || vm_compute JSON.escape_unit
            || vm_compute (JS.code _ <? _)%nat); cbv iota;
    rewrite IH; reflexivity.
Qed.

Lemma append_assoc (a b c : string) : ((a ++ b) ++ c = a ++ (b ++ c))%string.
Proof. induction a; simpl; congruence. Qed.

Lemma append_empty_r (a : string) : (a ++ EmptyString)%string = a.
Proof. induction a; simpl; congruence. Qed.

Lemma string_body_escape_all s rest :
  JSON.string_body (JSON.escape_all s ++ String JSON.dquote rest) =
  Some (units s, rest).
Proof.
  induction s as [|c s IH].
  - reflexivity.
  - cbn [JSON.escape_all]. rewrite append_assoc.
    apply string_body_escape. exact IH.
Qed.

(** [JSON.parse(JSON.stringify(s))] is the string [s] again. *)
Lemma parse_stringify s :
  JSON.parse (JSON.stringify s) = Some (JSON.VString (units s)).
Proof.
  unfold JSON.parse, JSON.stringify, JSON.quoted.
  cbn [JSON.element JSON.skip_ws].
  change (JSON.is_json_ws JSON.dquote) with false. cbv iota.
  change (Ascii.eqb JSON.dquote JSON.dquote) with true. cbv iota.
  rewrite string_body_escape_all. reflexivity.
Qed.

(** ** White space around and inside a line *)

Lemma trim_left_blank pad s :
  blank pad = true -> JS.trim_left (pad ++ s) = JS.trim_left s.
Proof.
  unfold blank. induction pad as [|c pad IH]; simpl; [reflexivity|].
  intros H. apply andb_prop in H. destruct H as [Hc Hp].
  rewrite Hc. auto.
Qed.

Lemma trim_right_blank_only pad : blank pad = true -> JS.trim_right pad = EmptyString.
Proof.
  unfold blank. induction pad as [|c pad IH]; simpl; [reflexivity|].
  intros H. apply andb_prop in H. destruct H as [Hc Hp].
  rewrite (IH Hp), Hc. reflexivity.
Qed.

Lemma trim_right_blank s pad :
  blank pad = true -> JS.trim_right (s ++ pad) = JS.trim_right s.
Proof.
  intros Hp. induction s as [|c s IH]; simpl.
  - apply trim_right_blank_only. assumption.
  - rewrite IH. reflexivity.
Qed.

Lemma trim_left_blank_all s :
  JS.trim_left s = EmptyString -> blank s = true.
Proof.
  unfold blank. induction s as [|c s IH]; simpl; [reflexivity|].
  destruct (JS.is_ws c); [auto|discriminate].
Qed.

Lemma trim_left_append s t :
  JS.trim_left s <> EmptyString ->
  JS.trim_left (s ++ t) = (JS.trim_left s ++ t)%string.
Proof.
  induction s as [|c s IH]; simpl; [congruence|].
  destruct (JS.is_ws c); auto.
Qed.

Lemma trim_right_keep s c :
  JS.is_ws c = false ->
  JS.trim_right (s ++ String c EmptyString) = (s ++ String c EmptyString)%string.
Proof.
  intros Hc. induction s as [|a s IH]; simpl.
  - rewrite Hc. reflexivity.
  - rewrite IH. destruct s; reflexivity.
Qed.

Lemma trim_pad pad line pad' :
  blank pad = true -> blank pad' = true ->
  JS.trim (pad ++ line ++ pad') = JS.trim line.
Proof.
  intros Hp Hp'. unfold JS.trim. rewrite trim_left_blank by assumption.
  destruct (JS.trim_left line) eqn:E.
  - pose proof (trim_left_blank_all _ E) as Hb.
    rewrite <- (append_empty_r line) at 1. rewrite append_assoc.
    rewrite (trim_left_blank line) by assumption. simpl.
    rewrite <- (append_empty_r pad'), trim_left_blank by assumption.
    reflexivity.
  - rewrite trim_left_append by congruence. rewrite E.
    apply trim_right_blank. assumption.
Qed.

(** ** Spans *)

Lemma span_app (p : ascii -> bool) a b :
  forallb p (list_ascii_of_string a) = true ->
  (forall c r, b = String c r -> p c = false) ->
  JS.span p (a ++ b) = (a, b).
Proof.
  intros Ha Hb. induction a as [|c a IH]; simpl in *.
  - destruct b as [|c r]; [reflexivity|]. simpl.
    rewrite (Hb c r eq_refl). reflexivity.
  - apply andb_prop in Ha. destruct Ha as [Hc Ha].
    rewrite Hc, (IH Ha). reflexivity.
Qed.

Lemma uint_digits u :
  forallb JS.is_digit (list_ascii_of_string (NilEmpty.string_of_uint u)) = true.
Proof. induction u; simpl; auto. Qed.

Lemma digit_not_ws c : JS.is_digit c = true -> JS.is_ws c = false.
Proof.
  unfold JS.is_digit, JS.is_ws, JS.in_range. intros H.
  apply andb_prop in H. destruct H as [H1 H2].
  apply Nat.leb_le in H1, H2.
  repeat (apply orb_false_intro); try (apply Nat.eqb_neq; lia).
  apply andb_false_intro2. apply Nat.leb_gt. lia.
Qed.

Lemma forallb_impl {A} (p q : A -> bool) l :
  (forall x, p x = true -> q x = true) ->
  forallb p l = true -> forallb q l = true.
Proof.
  intros Hpq. induction l as [|x l IH]; simpl; [reflexivity|].
  intros H. apply andb_prop in H. destruct H as [Hx Hl].
  rewrite (Hpq _ Hx), (IH Hl). reflexivity.
Qed.

Lemma uint_not_ws u :
  forallb (fun c => negb (JS.is_ws c))
    (list_ascii_of_string (NilEmpty.string_of_uint u)) = true.
Proof.
  apply (forallb_impl JS.is_digit); [|apply uint_digits].
  intros c Hc. rewrite (digit_not_ws _ Hc). reflexivity.
Qed.

(** ** The decimal text of an integer *)

Lemma to_uint_value p :
  Pos.to_uint p <> Decimal.Nil /\ Z.of_uint (Pos.to_uint p) = Zpos p.
Proof.
  pose proof (DecimalZ.of_to (Zpos p)) as Hof. simpl in Hof.
  split; [|exact Hof].
  intros E. rewrite E in Hof. discriminate.
Qed.

Lemma render_shape n :
  exists u,
    u <> Decimal.Nil /\
    JS.render n =
      (if (n <? 0)%Z then String "-" (NilEmpty.string_of_uint u)
       else NilEmpty.string_of_uint u) /\
    n = (if (n <? 0)%Z then (- Z.of_uint u)%Z else Z.of_uint u).
Proof.
  unfold JS.render. destruct n as [|p|p].
  - exists (Decimal.D0 Decimal.Nil). repeat split. discriminate.
  - destruct (to_uint_value p) as (Hn & Hv).
    exists (Pos.to_uint p). split; [assumption|]. simpl.
    split; [|congruence].
    unfold NilZero.string_of_uint. destruct (Pos.to_uint p); congruence.
  - destruct (to_uint_value p) as (Hn & Hv).
    exists (Pos.to_uint p). split; [assumption|]. simpl.
    split; [|rewrite Hv; reflexivity].
    unfold NilZero.string_of_uint. destruct (Pos.to_uint p); congruence.
Qed.

Lemma uint_head u :
  u <> Decimal.Nil ->
  exists c r, NilEmpty.string_of_uint u = String c r /\ JS.is_digit c = true.
Proof.
  destruct u; [congruence| | | | | | | | | |]; intros _; simpl; eauto.
Qed.

Lemma render_not_ws n :
  forallb (fun c => negb (JS.is_ws c)) (list_ascii_of_string (JS.render n)) = true.
Proof.
  destruct (render_shape n) as (u & _ & -> & _).
  destruct (n <? 0)%Z; simpl; apply uint_not_ws.
Qed.

Lemma render_head n : exists c r, JS.render n = String c r /\ JS.is_ws c = false.
Proof.
  destruct (render_shape n) as (u & Hu & -> & _).
  destruct (n <? 0)%Z.
  - eexists _, _. split; reflexivity.
  - destruct (uint_head u Hu) as (c & r & -> & Hc).
    exists c, r. split; [reflexivity|]. apply digit_not_ws. assumption.
Qed.

Lemma strip_sign_digit c r :
  JS.is_digit c = true -> JS.strip_sign (String c r) = (false, String c r).
Proof.
  destruct c as [[] [] [] [] [] [] [] []]; try discriminate; reflexivity.
Qed.

Lemma span_uint_end u :
  JS.span JS.is_digit (NilEmpty.string_of_uint u) =
  (NilEmpty.string_of_uint u, EmptyString).
Proof.
  rewrite <- (append_empty_r (NilEmpty.string_of_uint u)) at 1.
  apply span_app; [apply uint_digits|discriminate].
Qed.

(** [parseInt] reads an integer back from its decimal text. *)
Lemma parseInt_render n : JS.parseInt10 (JS.render n) = Some n.
Proof.
  destruct (render_shape n) as (u & Hu & Hr & Hv).
  destruct (uint_head u Hu) as (c & r & Hs & Hc).
  unfold JS.parseInt10. rewrite Hr.
  destruct (n <? 0)%Z.
  - cbn [JS.trim_left]. change (JS.is_ws "-") with false. cbv iota.
    cbn [JS.strip_sign]. rewrite span_uint_end, Hs, <- Hs.
    rewrite digits_val_uint. congruence.
  - rewrite Hs. cbn [JS.trim_left]. rewrite (digit_not_ws _ Hc).
    rewrite strip_sign_digit by assumption. rewrite <- Hs.
    rewrite span_uint_end, Hs, <- Hs. rewrite digits_val_uint. congruence.
Qed.

Lemma trim_right_no_ws s :
  forallb (fun c => negb (JS.is_ws c)) (list_ascii_of_string s) = true ->
  JS.trim_right s = s.
Proof.
  induction s as [|c s IH]; simpl; [reflexivity|].
  intros H. apply andb_prop in H. destruct H as [Hc Hs].
  rewrite (IH Hs). apply negb_true_iff in Hc. rewrite Hc.
  destruct s; reflexivity.
Qed.

Lemma trim_no_ws s :
  forallb (fun c => negb (JS.is_ws c)) (list_ascii_of_string s) = true ->
  JS.trim s = s.
Proof.
  intros H. unfold JS.trim.
  assert (E : JS.trim_left s = s).
  { destruct s as [|c s]; [reflexivity|]. simpl in *.
    apply andb_prop in H. destruct H as [Hc _].
    apply negb_true_iff in Hc. rewrite Hc. reflexivity. }
  rewrite E. apply trim_right_no_ws. assumption.
Qed.

Lemma digit_code c : JS.is_digit c = true -> (48 <= JS.code c <= 57)%nat.
Proof.
  unfold JS.is_digit, JS.in_range. intros H.
  apply andb_prop in H. destruct H as [H1 H2].
  apply Nat.leb_le in H1, H2. lia.
Qed.

Lemma non_decimal_digits s :
  forallb JS.is_digit (list_ascii_of_string s) = true ->
  JS.non_decimal s = None.
Proof.
  destruct s as [|c [|c2 r]]; [reflexivity| |].
  - intros _. destruct c as [[] [] [] [] [] [] [] []]; reflexivity.
  - simpl. intros H. apply andb_prop in H. destruct H as [_ H].
    apply andb_prop in H. destruct H as [H2 _].
    pose proof (digit_code _ H2) as Hc.
    assert (E : forall k, (57 < k)%nat -> (JS.code c2 =? k)%nat = false).
    { intros k Hk. apply Nat.eqb_neq. lia. }
    destruct c as [[] [] [] [] [] [] [] []]; try reflexivity.
    rewrite !E by lia. reflexivity.
Qed.

Lemma non_decimal_minus s : JS.non_decimal (String "-" s) = None.
Proof. reflexivity. Qed.

Lemma not_Infinity c r :
  JS.is_digit c = true -> String.eqb (String c r) "Infinity" = false.
Proof.
  destruct c as [[] [] [] [] [] [] [] []]; try discriminate; reflexivity.
Qed.

Lemma unsigned_decimal_uint u :
  u <> Decimal.Nil ->
  JS.unsigned_decimal (NilEmpty.string_of_uint u) = Some (Z.of_uint u, 0%Z).
Proof.
  intros Hu. unfold JS.unsigned_decimal.
  rewrite span_uint_end. rewrite append_empty_r.
  destruct (uint_head u Hu) as (c & r & Hs & _).
  rewrite Hs, <- Hs. cbn [JS.exponent_part].
  rewrite digits_val_uint. reflexivity.
Qed.

(** Converting the decimal text of an integer to a number gives the
    integer. *)
Lemma number_render n : JS.StringToNumber (JS.render n) = JS.Dec n 0.
Proof.
  unfold JS.StringToNumber. rewrite trim_no_ws by apply render_not_ws.
  destruct (render_shape n) as (u & Hu & Hr & Hv).
  destruct (uint_head u Hu) as (c & r & Hs & Hc).
  rewrite Hr. destruct (n <? 0)%Z.
  - rewrite non_decimal_minus. cbn [JS.strip_sign].
    rewrite Hs, not_Infinity by assumption. rewrite <- Hs.
    rewrite unsigned_decimal_uint by assumption. congruence.
  - rewrite Hs. cbv iota. rewrite <- Hs.
    rewrite non_decimal_digits by apply uint_digits.
    rewrite Hs, strip_sign_digit, not_Infinity by assumption.
    rewrite <- Hs, unsigned_decimal_uint by assumption. congruence.
Qed.

Lemma num_eqb_refl m e : JS.num_eqb (JS.Dec m e) (JS.Dec m e) = true.
Proof. simpl. apply Z.eqb_refl. Qed.

Lemma render_accepted n : JS.str_neq_num (JS.render n) (JS.of_int n) = false.
Proof.
  unfold JS.str_neq_num, JS.of_int. rewrite number_render, num_eqb_refl.
  reflexivity.
Qed.

(** ** Lines the parser accepts *)

Lemma stringify_last s :
  exists body, JSON.stringify s = (body ++ String JSON.dquote EmptyString)%string.
Proof.
  exists (String JSON.dquote (JSON.escape_all s)). reflexivity.
Qed.

Lemma trim_left_stringify s : JS.trim_left (JSON.stringify s) = JSON.stringify s.
Proof. reflexivity. Qed.

Lemma blank_head sep :
  blank sep = true -> sep <> EmptyString ->
  exists c r, sep = String c r /\ JS.is_ws c = true.
Proof.
  destruct sep as [|c r]; [congruence|]. unfold blank. simpl.
  intros H _. apply andb_prop in H. destruct H. eauto.
Qed.

Lemma split_fields field sep rest :
  forallb (fun c => negb (JS.is_ws c)) (list_ascii_of_string field) = true ->
  blank sep = true -> sep <> EmptyString ->
  JS.trim_left rest = rest ->
  strsplit (field ++ sep ++ rest) 2 = [field; rest].
Proof.
  intros Hf Hs Hne Hr.
  destruct (blank_head sep Hs Hne) as (c & r & E & Hc).
  unfold strsplit. cbn [Nat.sub split_ws].
  rewrite span_app; [|assumption|].
  - rewrite E at 1. cbn [append].
    rewrite trim_left_blank by assumption. rewrite Hr. reflexivity.
  - intros c' r' E'. rewrite E in E'. cbn [append] in E'.
    injection E' as <- _. rewrite Hc. reflexivity.
Qed.

Lemma trim_body n sep s :
  JS.trim (JS.render n ++ sep ++ JSON.stringify s) =
  (JS.render n ++ sep ++ JSON.stringify s)%string.
Proof.
  unfold JS.trim.
  destruct (render_head n) as (c & r & E & Hc).
  assert (El : JS.trim_left (JS.render n ++ sep ++ JSON.stringify s) =
               (JS.render n ++ sep ++ JSON.stringify s)%string).
  { rewrite E. cbn [append JS.trim_left]. rewrite Hc. reflexivity. }
  rewrite El.
  destruct (stringify_last s) as (body & ->).
  rewrite <- !append_assoc. apply trim_right_keep. reflexivity.
Qed.

(** X1. Every line of the form the parser is written for is accepted: an
    integer in decimal (below 2^53 in magnitude, where a double holds it
    exactly), white space, the JSON text of a string, with any
    white space before and after, gives the record of that integer and
    that JSON text, unchanged; white space inside the string does not
    split it. *)
Theorem X1_written_lines_accepted (n : Z) (s pad sep pad' : string) :
  (Z.abs n < 2 ^ 53)%Z ->
  blank pad = true -> blank sep = true -> sep <> EmptyString ->
  blank pad' = true ->
  SplitStream._transform
    (pad ++ (JS.render n ++ sep ++ JSON.stringify s) ++ pad') =
  SplitStream.push (n, JSON.stringify s).
Proof.
  intros _ Hp Hs Hne Hp'.
  unfold SplitStream._transform.
  rewrite trim_pad by assumption. rewrite trim_body.
  rewrite split_fields;
    [|apply render_not_ws|assumption|assumption|apply trim_left_stringify].
  rewrite parseInt_render, render_accepted, parse_stringify. reflexivity.
Qed.

Lemma X1_written_lines_accepted_witness :
  SplitStream._transform
    ("   " ++ (JS.render 12 ++ " " ++ JSON.stringify "/a b/c") ++ " ") =
  SplitStream.push (12%Z, JSON.stringify "/a b/c").
Proof.
  apply (X1_written_lines_accepted 12 "/a b/c" "   " " " " ");
    try reflexivity.
  discriminate.
Defined.

Lemma span_split (p : ascii -> bool) s :
  forall a b, JS.span p s = (a, b) ->
    s = (a ++ b)%string /\
    forallb p (list_ascii_of_string a) = true /\
    (forall c r, b = String c r -> p c = false).
Proof.
  induction s as [|c s IH]; intros a b; simpl.
  - intros H; inversion H; subst. repeat split. discriminate.
  - destruct (p c) eqn:Hc.
    + destruct (JS.span p s) as [a' b'] eqn:E.
      intros H; inversion H; subst.
      destruct (IH _ _ eq_refl) as (-> & Ha & Hb).
      simpl. rewrite Hc. repeat split; assumption.
    + intros H; inversion H; subst. repeat split.
      intros c' r' E. inversion E; subst. assumption.
Qed.

Lemma forallb_string_app (p : ascii -> bool) a b :
  forallb p (list_ascii_of_string (a ++ b)) =
  forallb p (list_ascii_of_string a) && forallb p (list_ascii_of_string b).
Proof.
  induction a as [|c a IH]; simpl; [reflexivity|].
  rewrite IH, andb_assoc. reflexivity.
Qed.

Lemma split_one t :
  strsplit t 2 = [t] <-> unbroken t = true.
Proof.
  unfold strsplit, unbroken. cbn [Nat.sub split_ws].
  destruct (JS.span (fun c => negb (JS.is_ws c)) t) as [a b] eqn:E.
  destruct (span_split _ _ _ _ E) as (Ht & Ha & Hb).
  destruct b as [|c r].
  - split; [intros _|reflexivity].
    rewrite Ht, append_empty_r. assumption.
  - split; [discriminate|].
    rewrite Ht, forallb_string_app. simpl.
    rewrite (Hb c r eq_refl). rewrite !andb_false_r. discriminate.
Qed.

Lemma split_at_most_two t :
  strsplit t 2 = [t] \/ exists p0 p1, strsplit t 2 = [p0; p1].
Proof.
  unfold strsplit. cbn [Nat.sub split_ws].
  destruct (JS.span (fun c => negb (JS.is_ws c)) t) as [a [|c r]]; eauto.
Qed.

(** X2. A line is turned down as [line garbled] exactly when, once
    trimmed, it has no white space left in it, so that there is no second
    field; this includes the empty line and the line of white space
    only. *)
Theorem X2_line_garbled (line : string) :
  SplitStream._transform line = SplitStream.vsWarn "line garbled" <->
  unbroken (JS.trim line) = true.
Proof.
  rewrite <- split_one. unfold SplitStream._transform.
  destruct (split_at_most_two (JS.trim line)) as [E|(p0 & p1 & E)]; rewrite E.
  - split; reflexivity.
  - split; [|intros H; inversion H].
    destruct (JS.parseInt10 p0) as [count|]; [|discriminate].
    destruct (JS.str_neq_num p0 (JS.of_int count)); [discriminate|].
    destruct (JSON.parse p1) as [[us|]|]; discriminate.
Qed.

(** X3. White space before and after a line changes nothing: the padded
    line has the effect of the line itself, whether that is a record or a
    warning. *)
Theorem X3_padding_ignored (pad line pad' : string) :
  blank pad = true -> blank pad' = true ->
  SplitStream._transform (pad ++ line ++ pad') = SplitStream._transform line.
Proof.
  intros Hp Hp'. unfold SplitStream._transform.
  rewrite trim_pad by assumption. reflexivity.
Qed.

Lemma X3_padding_ignored_witness :
  SplitStream._transform ("  " ++ ("7 " ++ JSON.quoted "d") ++ " ") =
  SplitStream._transform ("7 " ++ JSON.quoted "d").
Proof.
  apply (X3_padding_ignored "  " ("7 " ++ JSON.quoted "d") " "); reflexivity.
Defined.

(** ** The key token is one string literal *)

Lemma string_body_closes n :
  forall r us t, (String.length r <= n)%nat ->
    JSON.string_body r = Some (us, t) ->
    exists body, r = (body ++ String JSON.dquote t)%string.
Proof.
  induction n as [|n IH]; intros r us t Hlen H.
  - destruct r; [discriminate|simpl in Hlen; lia].
  - destruct r as [|c r]; [discriminate|].
    cbn [JSON.string_body] in H. simpl in Hlen.
    destruct (Ascii.eqb c JSON.dquote) eqn:Eq.
    { apply Ascii.eqb_eq in Eq. inversion H; subst.
      exists EmptyString. reflexivity. }
    destruct (Ascii.eqb c JSON.backslash) eqn:Eb.
    + destruct r as [|e r']; [discriminate|].
      assert (Hesc : forall r'' us',
                JSON.string_body r'' = Some (us', t) ->
                (String.length r'' <= n)%nat ->
                forall pre, String c (String e r') = (pre ++ r'')%string ->
                exists body,
                  String c (String e r') = (body ++ String JSON.dquote t)%string).
      { intros r'' us' H'' Hl pre E.
        destruct (IH _ _ _ Hl H'') as (body & ->).
        exists (pre ++ body)%string. rewrite E, append_assoc. reflexivity. }
      destruct (Ascii.eqb_spec e "u") as [->|Hne].
      * destruct r' as [|h1 [|h2 [|h3 [|h4 r'']]]]; try discriminate.
        destruct (JSON.hex4 h1 h2 h3 h4); [|discriminate].
        destruct (JSON.string_body r'') as [[us' t']|] eqn:E''; [|discriminate].
        inversion H; subst.
        refine (Hesc r'' us' E'' _
                  (String c (String "u" (String h1 (String h2
                     (String h3 (String h4 EmptyString)))))) _);
          [simpl in Hlen; lia|reflexivity].
      * assert (H' : match JSON.escape_unit e, JSON.string_body r' with
                     | Some u, Some (us, t) => Some (u :: us, t)
                     | _, _ => None
                     end = Some (us, t)).
        { destruct e as [[] [] [] [] [] [] [] []]; try exact H.
          congruence. }
        destruct (JSON.escape_unit e); [|discriminate].
        destruct (JSON.string_body r') as [[us' t']|] eqn:E'; [|discriminate].
        inversion H'; subst.
        refine (Hesc r' us' E' _ (String c (String e EmptyString)) _);
          [simpl in Hlen; lia|reflexivity].
    + destruct (JS.code c <? 32)%nat; [discriminate|].
      destruct (JSON.string_body r) as [[us' t']|] eqn:E'; [|discriminate].
      inversion H; subst.
      assert (Hl : (String.length r <= n)%nat) by lia.
      destruct (IH _ _ _ Hl E') as (body & ->).
      exists (String c body). reflexivity.
Qed.

Lemma last_char_app a b :
  b <> EmptyString -> last_char (a ++ b) = last_char b.
Proof.
  intros Hb. induction a as [|c a IH]; [reflexivity|].
  cbn [append last_char]. rewrite IH.
  destruct (a ++ b)%string eqn:E; [|reflexivity].
  destruct a; simpl in E; congruence.
Qed.

Lemma last_char_some s : s <> EmptyString -> exists c, last_char s = Some c.
Proof.
  induction s as [|c s IH]; [congruence|]. intros _.
  destruct s as [|c' s]; [exists c; reflexivity|].
  destruct IH as (x & Hx); [discriminate|]. exists x. exact Hx.
Qed.

Lemma trim_right_last s c :
  last_char (JS.trim_right s) = Some c -> JS.is_ws c = false.
Proof.
  induction s as [|x s IH]; [discriminate|].
  cbn [JS.trim_right].
  destruct (JS.trim_right s) as [|y t] eqn:E.
  - destruct (JS.is_ws x) eqn:Hx; [discriminate|].
    intros H; inversion H; subst. assumption.
  - intros H. apply IH. exact H.
Qed.

Lemma trim_left_suffix s : exists pre, s = (pre ++ JS.trim_left s)%string.
Proof.
  induction s as [|c s (pre & IH)]; [exists EmptyString; reflexivity|].
  simpl. destruct (JS.is_ws c).
  - exists (String c pre). simpl. congruence.
  - exists EmptyString. reflexivity.
Qed.

Lemma split_two_suffix t p0 p1 :
  strsplit t 2 = [p0; p1] -> exists pre, t = (pre ++ p1)%string.
Proof.
  unfold strsplit. cbn [Nat.sub split_ws].
  destruct (JS.span (fun c => negb (JS.is_ws c)) t) as [a b] eqn:E.
  destruct (span_split _ _ _ _ E) as (Ht & _ & _).
  destruct b as [|c r]; [discriminate|].
  intros H. injection H as <- <-.
  destruct (trim_left_suffix (String c r)) as (pre & Hpre).
  exists (a ++ pre)%string. rewrite append_assoc.
  change (if JS.is_ws c then JS.trim_left r else String c r)
    with (JS.trim_left (String c r)).
  rewrite <- Hpre. exact Ht.
Qed.

Lemma skip_ws_last t c :
  JSON.skip_ws t = EmptyString -> last_char t = Some c ->
  JSON.is_json_ws c = true.
Proof.
  induction t as [|x t IH]; [discriminate|].
  cbn [JSON.skip_ws last_char].
  destruct (JSON.is_json_ws x) eqn:Hx; [|discriminate].
  intros Hs. destruct t as [|y t].
  - intros H; inversion H; subst. assumption.
  - intros H. apply IH; assumption.
Qed.

(** What the parser pushes as the key is one string literal, from its
    opening quote to its closing quote. *)
Lemma pushed_key_literal line d :
  In d (SplitStream.pushed (SplitStream._transform line)) ->
  exists body us,
    join_field d = JSON.quoted body /\
    JSON.string_body (body ++ String JSON.dquote EmptyString) =
      Some (us, EmptyString) /\
    JSON.parse (join_field d) = Some (JSON.VString us).
Proof.
  intros Hd.
  destruct (transform_pushed _ _ Hd) as (Hk & (us & Hp) & (p0 & Hsplit)).
  destruct (split_two_suffix _ _ _ Hsplit) as (pre & Hpre).
  set (k := join_field d) in *.
  destruct k as [|q r] eqn:Ek; [discriminate|].
  simpl in Hk. apply Ascii.eqb_eq in Hk. subst q.
  assert (Hlast : forall c, last_char (String JSON.dquote r) = Some c ->
                            JS.is_ws c = false).
  { intros c Hc. apply (trim_right_last (JS.trim_left line)).
    fold (JS.trim line). rewrite Hpre, last_char_app by discriminate.
    assumption. }
  pose proof Hp as Hp'.
  unfold JSON.parse in Hp. cbn [JSON.element JSON.skip_ws] in Hp.
  change (JSON.is_json_ws JSON.dquote) with false in Hp. cbv iota in Hp.
  change (Ascii.eqb JSON.dquote JSON.dquote) with true in Hp. cbv iota in Hp.
  destruct (JSON.string_body r) as [[us' t]|] eqn:Eb; [|discriminate].
  destruct (JSON.skip_ws t) eqn:Et; [|discriminate].
  inversion Hp; subst us'.
  destruct (string_body_closes _ _ _ _ (le_n _) Eb) as (body & Hr).
  destruct t as [|x t].
  - exists body, us. subst r. repeat split; assumption.
  - exfalso.
    destruct (last_char_some (String x t)) as (c & Hc); [discriminate|].
    pose proof (skip_ws_last _ _ Et Hc) as Hj.
    assert (Hc' : last_char (String JSON.dquote r) = Some c).
    { rewrite Hr.
      assert (Er : String JSON.dquote
                     (body ++ String JSON.dquote (String x t)) =
                   (JSON.quoted body ++ String x t)%string).
      { unfold JSON.quoted. simpl. rewrite append_assoc. reflexivity. }
      rewrite Er, last_char_app by discriminate. assumption. }
    pose proof (Hlast _ Hc') as Hw.
    rewrite (json_ws_is_ws _ Hj) in Hw. discriminate.
Qed.

(** ** From a written record back to an input line *)

Lemma written_from_line verbose f1 f2 schedule r ds d :
  Main.auditcounts verbose [f1; f2] schedule = Some r ->
  Main.diagnostics r = Some ds -> In d ds ->
  exists line e,
    In line (f1 ++ f2) /\
    In e (SplitStream.pushed (SplitStream._transform line)) /\
    join_field e = AuditStream.dirname d.
Proof.
  intros H Hds Hd. rewrite auditcounts_two in H.
  injection H as Hr. rewrite <- Hr in Hds.
  cbn [Main.diagnostics] in Hds. clear Hr r.
  destruct (audit_In _ _ _ _ Hds Hd) as (rw & ds' & Hrw & Htr & Hd').
  destruct (transform_two_slots _ _ _ Htr) as (raw & reported & Erw).
  rewrite Erw in Htr.
  destruct (emitted_record_fields _ _ _ _ _ _ Htr Hd') as (Hname & _).
  set (ins := map SplitStream.pushed (map SplitStream.run [f1; f2])) in *.
  pose proof (run_invariant ins schedule) as Hinv.
  pose proof (inv_rows _ _ Hinv) as Hrows.
  rewrite Forall_forall in Hrows.
  destruct (Hrows _ Hrw) as (_ & (i & e & Hsl) & Hkey).
  assert (He : In e (joined i (run schedule (create ins)))).
  { unfold joined. apply in_flat_map. exists rw. split; [assumption|].
    unfold slot_list. rewrite Hsl. left. reflexivity. }
  destruct (joined_in_input _ _ _ _ Hinv He) as (inp & Hinp & Hin).
  assert (Hfile : exists f, In f [f1; f2] /\
                            In e (SplitStream.pushed (SplitStream.run f))).
  { subst ins. simpl in Hinp.
    destruct i as [|[|i]]; simpl in Hinp.
    - inversion Hinp; subst. exists f1. split; [left; reflexivity|assumption].
    - inversion Hinp; subst. exists f2.
      split; [right; left; reflexivity|assumption].
    - destruct i; discriminate. }
  destruct Hfile as (f & Hf & Hpushed).
  destruct (run_pushed _ _ Hpushed) as (line & Hline & Hl).
  exists line, e. split; [|split].
  - apply in_or_app. destruct Hf as [<-|[<-|[]]]; auto.
  - assumption.
  - rewrite (Hkey _ _ Hsl). symmetry. exact Hname.
Qed.

Lemma count_warnings (l : list string) :
  fold_left (fun n _ => Main.streamWarn n) l 0%nat = List.length l.
Proof.
  assert (H : forall n, fold_left (fun n _ => Main.streamWarn n) l n =
                        (n + List.length l)%nat).
  { induction l as [|x l IH]; intros n; simpl; [lia|].
    rewrite IH. unfold Main.streamWarn. lia. }
  apply H.
Qed.

(** X4. Every [dirname] the program writes is exactly one JSON string
    literal, as it stood in an input line: a double quote, a body, the
    closing double quote and nothing around them; [JSON.parse] of it gives
    a string. *)
Theorem X4_dirname_is_string_literal (verbose : bool) (f1 f2 : list string)
    (schedule : list event) (r : Main.result)
    (ds : list AuditStream.diagnostic) (d : AuditStream.diagnostic) :
  Main.auditcounts verbose [f1; f2] schedule = Some r ->
  Main.diagnostics r = Some ds ->
  In d ds ->
  exists body us,
    AuditStream.dirname d = JSON.quoted body /\
    JSON.string_body (body ++ String JSON.dquote EmptyString) =
      Some (us, EmptyString) /\
    JSON.parse (AuditStream.dirname d) = Some (JSON.VString us).
Proof.
  intros H Hds Hd.
  destruct (written_from_line _ _ _ _ _ _ _ H Hds Hd)
    as (line & e & _ & He & <-).
  apply (pushed_key_literal line). assumption.
Qed.

Lemma X4_dirname_is_string_literal_witness :
  exists body us,
    JSON.quoted "c" = JSON.quoted body /\
    JSON.string_body (body ++ String JSON.dquote EmptyString) =
      Some (us, EmptyString) /\
    JSON.parse (JSON.quoted "c") = Some (JSON.VString us).
Proof.
  refine (X4_dirname_is_string_literal false scenario_A scenario_B
            (Main.eager [scenario_A; scenario_B]) _ _
            (AuditStream.mkDiagnostic (JSON.quoted "c") 2 0
               "error: count mismatch (no optimized count)")
            _ _ _).
  - vm_compute. reflexivity.
  - reflexivity.
  - right. left. reflexivity.
Defined.

(** X5. The number of warnings the program counts is the number of input
    lines that did not become a record: once every line of both files has
    been parsed, each line has been counted once as a warning or handed on
    once as a record. *)
Theorem X5_lines_accounted (verbose : bool) (f1 f2 : list string)
    (schedule : list event) (r : Main.result) :
  Main.auditcounts verbose [f1; f2] schedule = Some r ->
  (Main.nwarnings r
   + List.length (SplitStream.pushed (SplitStream.run f1))
   + List.length (SplitStream.pushed (SplitStream.run f2))
   = List.length f1 + List.length f2)%nat.
Proof.
  intros H. rewrite auditcounts_two in H. injection H as <-.
  cbn [Main.nwarnings]. rewrite count_warnings.
  cbn [map flat_map]. rewrite app_nil_r, length_app.
  pose proof (run_lengths f1). pose proof (run_lengths f2). lia.
Qed.

Lemma X5_lines_accounted_witness :
  (0 + List.length (SplitStream.pushed (SplitStream.run scenario_A))
   + List.length (SplitStream.pushed (SplitStream.run scenario_B))
   = List.length scenario_A + List.length scenario_B)%nat.
Proof.
  apply (X5_lines_accounted false scenario_A scenario_B
           (Main.eager [scenario_A; scenario_B])
           (Main.mkResult
              (Some [ AuditStream.mkDiagnostic (JSON.quoted "b") 5 0
                        "error: count mismatch";
                      AuditStream.mkDiagnostic (JSON.quoted "c") 2 0
                        "error: count mismatch (no optimized count)";
                      AuditStream.mkDiagnostic (JSON.quoted "d") 0 7
                        "error: count mismatch (no entries)" ])
              0 true false)).
  vm_compute. reflexivity.
Defined.

(** ** Rows of any run *)

Lemma pass_rows c js :
  rows (fst (pass c js)) = rows js \/
  exists r, rows (fst (pass c js)) = rows js ++ [r] /\
            exited (fst (pass c js)) = exited js.
Proof.
  unfold pass.
  destruct (js_waiting js || js_working js).
  { left. apply rows_emit_other. discriminate. }
  destruct (pull c 0 (js_sources js)) as [l [|]|j l].
  - left. reflexivity.
  - destruct (earliest l) as [j|].
    + right. eexists. split; [apply rows_emit_row|].
      cbn [fst]. rewrite exited_emit. simpl. apply orb_false_r.
    + left. destruct (_ =? _)%nat; apply rows_emit_other; discriminate.
  - left. apply rows_emit_other. discriminate.
Qed.

Lemma run_rows_sorted ins es :
  StronglySorted key_le (map row_key (rows (run es (create ins)))) /\
  (exited (run es (create ins)) = false -> ordered (run es (create ins))).
Proof.
  apply (reachable ins
           (fun js => StronglySorted key_le (map row_key (rows js)) /\
                      (exited js = false -> ordered js))).
  - intros c js Hinv (Hs & HP) Hw Hx He.
    assert (Ho : exited (fst (pass c js)) = false -> ordered (fst (pass c js))).
    { apply (pass_ordered ins); assumption. }
    split; [|assumption].
    destruct (pass_rows c js) as [E|(r & E & Ex)].
    + rewrite E. assumption.
    + rewrite Hx in Ex. apply (ord_rows _ (Ho Ex)).
  - intros js Hinv (Hs & HP). split; [assumption|].
    intros Hx. destruct (HP Hx) as [H1 H2]. split; assumption.
  - intros js i src Hinv (Hs & HP) Hi Hst. split; [assumption|].
    intros Hx. destruct (HP Hx) as [H1 H2].
    split; [assumption|]. simpl.
    rewrite Forall_forall in *. intros s' Hin.
    destruct (mark_done_In _ _ _ Hin) as (s & Hs0 & E1 & E2 & E3 & E4).
    destruct (H2 _ Hs0) as [Hn Hl].
    split.
    + intros r k Hr Hk. rewrite E3 in Hk. eauto.
    + intros Hnone. rewrite E1, E4. rewrite E2 in Hnone. auto.
  - split; [constructor|]. intros _. split.
    + constructor.
    + unfold create; simpl. rewrite Forall_forall. intros s Hin.
      split; [intros r k []|]. intros _. left. reflexivity.
Qed.

(** X6. Whatever the inputs hold, sorted or not, and under every
    schedule, the keys of the rows pushed never go back: each row's key is
    at or above the key of every row pushed before it. *)
Theorem X6_rows_never_go_back (ins : list (list datum)) (es : list event) :
  StronglySorted key_le (map row_key (rows (run es (create ins)))).
Proof. exact (proj1 (run_rows_sorted ins es)). Qed.

(** ** Complete runs on well-formed inputs *)

Lemma sorted_keys_find inp d :
  StronglySorted key_lt (keys inp) -> In d inp ->
  record_of (join_field d) inp = Some d.
Proof.
  unfold record_of.
  induction inp as [|e inp IH]; intros Hs Hin; [destruct Hin|].
  simpl in *. inversion Hs as [|k ks Hs' Hall]; subst.
  destruct Hin as [->|Hin].
  - rewrite String.eqb_refl. reflexivity.
  - destruct (String.eqb_spec (join_field e) (join_field d)) as [E|_].
    + exfalso. rewrite Forall_forall in Hall.
      assert (Hd : In (join_field d) (keys inp)) by (apply in_map; assumption).
      specialize (Hall _ Hd). unfold key_lt in Hall.
      rewrite E, str_ltb_irrefl in Hall. discriminate.
    + apply IH; assumption.
Qed.

Lemma find_key_none k inp :
  record_of k inp = None <-> ~ In k (keys inp).
Proof.
  unfold record_of.
  induction inp as [|e inp IH]; simpl.
  - split; [intros _ []|reflexivity].
  - destruct (String.eqb_spec (join_field e) k) as [E|N].
    + split; [discriminate|]. intros H. exfalso. apply H. left. assumption.
    + rewrite IH. split.
      * intros H [C|C]; [congruence|auto].
      * intros H C. apply H. right. assumption.
Qed.

Lemma row_key_inj rs r r' :
  NoDup (map row_key rs) -> In r rs -> In r' rs ->
  row_key r = row_key r' -> r = r'.
Proof.
  induction rs as [|x rs IH]; intros Hnd Hr Hr' E; [destruct Hr|].
  simpl in Hnd. inversion Hnd as [|k ks Hnot Hnd']; subst.
  destruct Hr as [->|Hr], Hr' as [->|Hr']; auto.
  - exfalso. apply Hnot. rewrite E. apply in_map. assumption.
  - exfalso. apply Hnot. rewrite <- E. apply in_map. assumption.
Qed.

Lemma slot_in_joined i js r d :
  In r (rows js) -> slot i r = Some d -> In d (joined i js).
Proof.
  intros Hr Hsl. unfold joined. apply in_flat_map. exists r.
  split; [assumption|]. unfold slot_list. rewrite Hsl. left. reflexivity.
Qed.

(** X7. On inputs that are each strictly increasing, the result of a run
    that reaches the end of the stream does not depend on the schedule:
    two complete runs of the program on the same two files write the same
    diagnostics and count the same warnings. *)
Theorem X7_schedule_independent (verbose : bool) (f1 f2 : list string)
    (s1 s2 : list event) (r1 r2 : Main.result) :
  Forall well_formed (map SplitStream.pushed (map SplitStream.run [f1; f2])) ->
  Main.auditcounts verbose [f1; f2] s1 = Some r1 ->
  Main.auditcounts verbose [f1; f2] s2 = Some r2 ->
  Main.completed r1 = true -> Main.completed r2 = true ->
  r1 = r2.
Proof.
  intros Hwf H1 H2. rewrite auditcounts_two in H1, H2.
  change (map SplitStream.pushed (map SplitStream.run [f1; f2]))
    with [SplitStream.pushed (SplitStream.run f1);
          SplitStream.pushed (SplitStream.run f2)] in *.
  injection H1 as <-. injection H2 as <-.
  cbn [Main.completed]. intros E1 E2.
  pose proof (complete_runs_agree _ s1 s2 Hwf E1 E2) as Hrows.
  pose proof (ended_not_exited _ (inv_shape _ _ (run_invariant _ s1)) E1) as X1.
  pose proof (ended_not_exited _ (inv_shape _ _ (run_invariant _ s2)) E2) as X2.
  f_equal; congruence.
Qed.

Lemma X7_schedule_independent_witness :
  Main.mkResult
    (Some [ AuditStream.mkDiagnostic (JSON.quoted "b") 5 0
              "error: count mismatch";
            AuditStream.mkDiagnostic (JSON.quoted "c") 2 0
              "error: count mismatch (no optimized count)";
            AuditStream.mkDiagnostic (JSON.quoted "d") 0 7
              "error: count mismatch (no entries)" ])
    0 true false
  = Main.mkResult
      (Main.audit false
         (rows (run (one_by_one 5)
                  (create (map SplitStream.pushed
                             (map SplitStream.run [scenario_A; scenario_B]))))))
      0 true false.
Proof.
  apply (X7_schedule_independent false scenario_A scenario_B
           (Main.eager [scenario_A; scenario_B]) (one_by_one 5)).
  - exact scenario_well_formed.
  - vm_compute. reflexivity.
  - vm_compute. reflexivity.
  - reflexivity.
  - reflexivity.
Defined.

(** X8. On inputs that are each strictly increasing, in a run that has
    reached the end of the stream, every row holds for every source
    exactly that source's record with the key of the row, and [null] for a
    source that has no record with that key. *)
Theorem X8_row_holds_matching_records (ins : list (list datum))
    (es : list event) (r : row) (i : nat) (inp : list datum) :
  Forall well_formed ins ->
  ended (run es (create ins)) = true ->
  In r (rows (run es (create ins))) ->
  nth_error ins i = Some inp ->
  slot i r = record_of (row_key r) inp.
Proof.
  intros Hwf He Hr Hi.
  pose proof (run_invariant ins es) as Hinv.
  destruct (run_ahead ins es Hwf) as [_ Hsorted _].
  destruct (ended_all_joined _ _ _ _ Hinv He Hi) as (Hj & _).
  pose proof (inv_rows _ _ Hinv) as Hrows. rewrite Forall_forall in Hrows.
  assert (Hwfi : well_formed inp).
  { rewrite Forall_forall in Hwf. apply Hwf.
    eapply nth_error_In; eassumption. }
  destruct Hwfi as (_ & Hkeys).
  destruct (slot i r) as [d|] eqn:Hsl.
  - destruct (Hrows _ Hr) as (_ & _ & Hkey).
    rewrite <- (Hkey _ _ Hsl). symmetry.
    apply sorted_keys_find; [assumption|].
    rewrite <- Hj. eapply slot_in_joined; eassumption.
  - symmetry. apply find_key_none. intros Hk.
    apply in_map_iff in Hk. destruct Hk as (d & Hd & Hin).
    rewrite <- Hj in Hin.
    destruct (in_slots _ _ _ Hin) as (r' & Hr' & Hsl').
    destruct (Hrows _ Hr') as (_ & _ & Hkey').
    assert (E : r' = r).
    { apply (row_key_inj (rows (run es (create ins))));
        [apply sorted_NoDup; assumption|assumption|assumption|].
      rewrite <- (Hkey' _ _ Hsl'). assumption. }
    subst r'. congruence.
Qed.

Lemma X8_row_holds_matching_records_witness :
  slot 1 (mkRow (JSON.quoted "c") [Some (2%Z, JSON.quoted "c"); None]) =
  record_of (JSON.quoted "c")
    [(3%Z, JSON.quoted "a"); (0%Z, JSON.quoted "b"); (7%Z, JSON.quoted "d")].
Proof.
  apply (X8_row_holds_matching_records
           [ [(3%Z, JSON.quoted "a"); (5%Z, JSON.quoted "b");
              (2%Z, JSON.quoted "c")];
             [(3%Z, JSON.quoted "a"); (0%Z, JSON.quoted "b");
              (7%Z, JSON.quoted "d")] ]
           [WantData prompt (repeat prompt 6)]
           (mkRow (JSON.quoted "c") [Some (2%Z, JSON.quoted "c"); None])
           1%nat).
  - repeat constructor.
  - vm_compute. reflexivity.
  - vm_compute. right. right. left. reflexivity.
  - reflexivity.
Defined.

(** ** The error of an out-of-order source is never a false alarm *)

Lemma last_key_split l k :
  last_key l = Some k -> exists h d, l = h ++ [d] /\ join_field d = k.
Proof.
  destruct (snoc_cases l) as [->|(h & d & ->)]; [discriminate|].
  rewrite last_key_snoc. intros H; inversion H. eauto.
Qed.

Lemma shape_no_assertion tr : trace_shape tr -> ~ In AssertionFailed tr.
Proof.
  intros Hs Hin.
  inversion Hs as [rs Hrs|rs Hrs|rs i Hrs]; rewrite <- Hrs in Hin;
    try (apply in_app_or in Hin; destruct Hin as [Hin|[Hin|[]]];
         [|discriminate]);
    apply in_map_iff in Hin; destruct Hin as (r & Hr & _); discriminate.
Qed.

Lemma out_of_order_disordered ins js c j l :
  invariant ins js ->
  Forall (Forall (fun d => key_token (join_field d) = true)) ins ->
  pull c 0 (js_sources js) = OutOfOrder j l ->
  exists inp, nth_error ins j = Some inp /\ disordered inp.
Proof.
  intros Hinv Htok Ep.
  destruct (pull_out_of_order _ _ _ _ _ Ep) as (_ & s & s' & H1 & _ & H3).
  rewrite Nat.sub_0_r in H1.
  destruct (inv_sources _ _ Hinv _ _ H1) as (inp & Hinp & Hok).
  exists inp. split; [assumption|].
  inversion H3 as [| | |e more Hn Hd Hs Es Est]; subst.
  destruct (JS.lt_nullable (join_field e) (src_last_join s)) eqn:E;
    [|discriminate].
  rewrite (so_last _ _ _ Hok) in E.
  assert (Hc : inp = joined j js ++ e :: more).
  { rewrite (so_conserve _ _ _ Hok). unfold pending, buffered.
    rewrite Hn, Hs. reflexivity. }
  destruct (last_key (joined j js)) as [k|] eqn:Hk.
  - destruct (last_key_split _ _ Hk) as (h & d1 & Hj & Hd1).
    exists h, d1, e, more. split.
    + rewrite Hc, Hj, <- app_assoc. reflexivity.
    + rewrite Hd1. exact E.
  - exfalso.
    rewrite Forall_forall in Htok.
    pose proof (Htok _ (nth_error_In _ _ Hinp)) as Hall.
    rewrite Forall_forall in Hall.
    assert (He : key_token (join_field e) = true).
    { apply Hall. rewrite Hc. apply in_or_app. right. left. reflexivity. }
    rewrite (key_token_not_below_null _ He) in E. discriminate.
Qed.

Lemma pass_error ins c js :
  invariant ins js ->
  js_waiting js = false -> exited js = false -> ended js = false ->
  exited (fst (pass c js)) = true ->
  exists j l, pull c 0 (js_sources js) = OutOfOrder j l.
Proof.
  intros Hinv Hw Hx He.
  pose proof (pass_invariant ins c js Hinv Hw Hx He) as Hinv'.
  pose proof (shape_no_assertion _ (inv_shape _ _ Hinv')) as Hna.
  revert Hna. unfold pass. rewrite Hw, (inv_working _ _ Hinv). simpl.
  destruct (pull c 0 (js_sources js)) as [l [|]|j l]; [| |eauto].
  - simpl. unfold exited in *. simpl. congruence.
  - destruct (earliest l) as [k|].
    + simpl. rewrite exited_emit. simpl. rewrite orb_false_r. congruence.
    + destruct (_ =? _)%nat; simpl.
      * rewrite exited_emit. simpl. rewrite orb_false_r. congruence.
      * intros Hna _. exfalso. apply Hna. apply in_or_app. right.
        left. reflexivity.
Qed.

Lemma exited_disordered ins es :
  Forall (Forall (fun d => key_token (join_field d) = true)) ins ->
  exited (run es (create ins)) = true ->
  exists i inp, nth_error ins i = Some inp /\ disordered inp.
Proof.
  intros Htok.
  apply (reachable ins
           (fun js => exited js = true ->
                      exists i inp, nth_error ins i = Some inp /\
                                    disordered inp)).
  - intros c js Hinv HP Hw Hx He Hx'.
    destruct (pass_error ins c js Hinv Hw Hx He Hx') as (j & l & Ep).
    destruct (out_of_order_disordered _ _ _ _ _ Hinv Htok Ep) as (inp & H).
    eauto.
  - intros js Hinv HP. exact HP.
  - intros js i src Hinv HP Hi Hs. exact HP.
  - discriminate.
Qed.



(** ** How many rows a complete run pushes *)

Lemma slot_list_length i r : (List.length (slot_list i r) <= 1)%nat.
Proof. unfold slot_list. destruct (slot i r); simpl; lia. Qed.

Lemma slots_at_most_rows i rs :
  (List.length (flat_map (slot_list i) rs) <= List.length rs)%nat.
Proof.
  induction rs as [|r rs IH]; simpl; [lia|].
  rewrite length_app. pose proof (slot_list_length i r). lia.
Qed.

Lemma list_sum_map_add {A} (f g : A -> nat) l :
  list_sum (map (fun x => (f x + g x)%nat) l) =
  (list_sum (map f l) + list_sum (map g l))%nat.
Proof. induction l as [|x l IH]; simpl; lia. Qed.

Lemma list_sum_map_In {A} (f : A -> nat) l x :
  In x l -> (f x <= list_sum (map f l))%nat.
Proof.
  induction l as [|y l IH]; [intros []|].
  simpl. intros [->|H]; [lia|]. specialize (IH H). lia.
Qed.

Lemma rows_at_most_slots n rs :
  Forall (row_ok n) rs ->
  (List.length rs <=
   list_sum (map (fun i => List.length (flat_map (slot_list i) rs))
               (seq 0 n)))%nat.
Proof.
  induction 1 as [|r rs (Hlen & (i & d & Hsl) & _) _ IH]; simpl; [lia|].
  assert (E : map (fun i => List.length (slot_list i r ++ flat_map (slot_list i) rs))
                (seq 0 n) =
              map (fun i => (List.length (slot_list i r) +
                             List.length (flat_map (slot_list i) rs))%nat)
                (seq 0 n)).
  { apply map_ext. intros a. apply length_app. }
  rewrite E, list_sum_map_add.
  assert (Hi : In i (seq 0 n)).
  { apply in_seq. pose proof (slot_some_lt _ _ _ Hsl). lia. }
  pose proof (list_sum_map_In (fun i => List.length (slot_list i r)) _ _ Hi)
    as H1.
  cbv beta in H1. unfold slot_list in H1 at 1. rewrite Hsl in H1.
  simpl in H1. lia.
Qed.

Lemma map_nth_seq {A} (l : list A) d :
  map (fun i => nth i l d) (seq 0 (List.length l)) = l.
Proof.
  induction l as [|x l IH]; [reflexivity|].
  simpl. f_equal. rewrite <- seq_shift, map_map. exact IH.
Qed.

(** X10. A run that has reached the end of the stream has pushed at
    least as many rows as any one input has records, and at most as many
    rows as all inputs have records together. *)
Theorem X10_row_count (ins : list (list datum)) (es : list event) :
  ended (run es (create ins)) = true ->
  (forall inp, In inp ins ->
     (List.length inp <= List.length (rows (run es (create ins))))%nat) /\
  (List.length (rows (run es (create ins))) <=
   list_sum (map (fun inp => List.length inp) ins))%nat.
Proof.
  intros He. pose proof (run_invariant ins es) as Hinv. split.
  - intros inp Hin. destruct (In_nth_error _ _ Hin) as (i & Hi).
    destruct (ended_all_joined _ _ _ _ Hinv He Hi) as (Hj & _).
    rewrite <- Hj. apply slots_at_most_rows.
  - pose proof (rows_at_most_slots _ _ (inv_rows _ _ Hinv)) as H.
    eapply Nat.le_trans; [exact H|]. apply Nat.eq_le_incl.
    rewrite <- (map_nth_seq ins []) at 2. rewrite map_map.
    f_equal. apply map_ext_in. intros i Hi. apply in_seq in Hi.
    destruct (nth_error ins i) as [inp|] eqn:E.
    + destruct (ended_all_joined _ _ _ _ Hinv He E) as (Hj & _).
      fold (joined i (run es (create ins))). rewrite Hj.
      rewrite (nth_error_nth _ _ _ E). reflexivity.
    + apply nth_error_None in E. lia.
Qed.

Lemma X10_row_count_witness :
  (forall inp, In inp example_equal_keys ->
     (List.length inp <=
      List.length (rows (run (one_by_one 3) (create example_equal_keys))))%nat)
  /\
  (List.length (rows (run (one_by_one 3) (create example_equal_keys))) <=
   list_sum (map (fun inp => List.length inp) example_equal_keys))%nat.
Proof.
  apply (X10_row_count example_equal_keys (one_by_one 3)).
  vm_compute. reflexivity.
Defined.

(** ** What verbose mode adds *)

Lemma transform_quiet r :
  AuditStream._transform false r =
  option_map (filter (fun d => negb (count_okay d)))
    (AuditStream._transform true r).
Proof.
  unfold AuditStream._transform.
  destruct (row_slots r) as [|e1 [|e2 [|e3 sl]]]; try reflexivity.
  unfold AuditStream.emitRow, AuditStream.emitRowRaw, count_okay.
  destruct e1 as [[r1 k1]|], e2 as [[r2 k2]|]; simpl; try reflexivity.
  - destruct (negb (r2 =? r1)%Z); reflexivity.
  - destruct (r1 =? 0)%Z; reflexivity.
  - destruct (r2 =? 0)%Z; reflexivity.
Qed.

Lemma audit_quiet rs :
  Main.audit false rs =
  option_map (filter (fun d => negb (count_okay d))) (Main.audit true rs).
Proof.
  induction rs as [|r rs IH]; [reflexivity|].
  simpl. rewrite transform_quiet, IH.
  destruct (AuditStream._transform true r) as [ds|]; [|reflexivity].
  destruct (Main.audit true rs) as [more|]; [|reflexivity].
  simpl. rewrite filter_app. reflexivity.
Qed.

(** ** One record, one line *)

Lemma single_line_app a b :
  single_line (a ++ b) = single_line a && single_line b.
Proof. apply forallb_string_app. Qed.

Lemma escape_single_line c : single_line (JSON.escape c) = true.
Proof. destruct c as [[] [] [] [] [] [] [] []]; reflexivity. Qed.

Lemma stringify_single_line s : single_line (JSON.stringify s) = true.
Proof.
  unfold JSON.stringify, JSON.quoted.
  assert (H : single_line (JSON.escape_all s) = true).
  { induction s as [|c s IH]; [reflexivity|].
    cbn [JSON.escape_all]. rewrite single_line_app, escape_single_line, IH.
    reflexivity. }
  change (String JSON.dquote (JSON.escape_all s ++ String JSON.dquote EmptyString))
    with (String JSON.dquote EmptyString ++
          (JSON.escape_all s ++ String JSON.dquote EmptyString))%string.
  rewrite !single_line_app, H. reflexivity.
Qed.

Lemma digit_single_line c :
  JS.is_digit c = true -> negb (Ascii.eqb c "010"%char) = true.
Proof.
  destruct c as [[] [] [] [] [] [] [] []]; try discriminate; reflexivity.
Qed.

Lemma render_single_line n : single_line (JS.render n) = true.
Proof.
  destruct (render_shape n) as (u & _ & -> & _).
  assert (H : single_line (NilEmpty.string_of_uint u) = true).
  { apply (forallb_impl JS.is_digit); [apply digit_single_line|].
    apply uint_digits. }
  destruct (n <? 0)%Z; [|assumption].
  unfold single_line in *. simpl. exact H.
Qed.

(** X11. Verbose mode only adds the records of the rows that are fine:
    for the same files and the same schedule, what the program writes
    without [-v] is what it writes with [-v] once the [count okay] records
    are taken out, in the same order, and the rest of the result is the
    same. *)
Theorem X11_verbose_adds_count_okay (f1 f2 : list string)
    (schedule : list event) (quiet loud : Main.result) :
  Main.auditcounts false [f1; f2] schedule = Some quiet ->
  Main.auditcounts true [f1; f2] schedule = Some loud ->
  Main.diagnostics quiet =
    option_map (filter (fun d => negb (count_okay d)))
      (Main.diagnostics loud) /\
  Main.nwarnings quiet = Main.nwarnings loud /\
  Main.completed quiet = Main.completed loud /\
  Main.failed quiet = Main.failed loud.
Proof.
  intros H1 H2. rewrite auditcounts_two in H1, H2.
  injection H1 as <-. injection H2 as <-.
  cbn [Main.diagnostics Main.nwarnings Main.completed Main.failed].
  rewrite audit_quiet. repeat split; reflexivity.
Qed.

Lemma X11_verbose_adds_count_okay_witness :
  Some [ AuditStream.mkDiagnostic (JSON.quoted "b") 5 0
           "error: count mismatch";
         AuditStream.mkDiagnostic (JSON.quoted "c") 2 0
           "error: count mismatch (no optimized count)";
         AuditStream.mkDiagnostic (JSON.quoted "d") 0 7
           "error: count mismatch (no entries)" ] =
  option_map (filter (fun d => negb (count_okay d)))
    (Some [ AuditStream.mkDiagnostic (JSON.quoted "a") 3 3 "count okay";
            AuditStream.mkDiagnostic (JSON.quoted "b") 5 0
              "error: count mismatch";
            AuditStream.mkDiagnostic (JSON.quoted "c") 2 0
              "error: count mismatch (no optimized count)";
            AuditStream.mkDiagnostic (JSON.quoted "d") 0 7
              "error: count mismatch (no entries)" ]).
Proof.
  refine (proj1 (X11_verbose_adds_count_okay scenario_A scenario_B
                   (Main.eager [scenario_A; scenario_B])
                   (Main.mkResult _ 0 true false)
                   (Main.mkResult _ 0 true false) _ _));
    vm_compute; reflexivity.
Defined.



(** X13. Every record is written as exactly one line: the text pushed for
    it ends with a line feed and has no other line feed in it, whatever the
    directory name and the status hold. *)
Theorem X13_one_record_one_line (d : AuditStream.diagnostic) :
  exists body,
    AuditStream.serialize d = (body ++ String "010"%char EmptyString)%string /\
    single_line body = true.
Proof.
  unfold AuditStream.serialize.
  eexists. split.
  - rewrite <- !append_assoc. reflexivity.
  - rewrite !single_line_app, !stringify_single_line, !render_single_line.
    reflexivity.
Qed.

(** ** A file against itself, and against nothing *)

Lemma or0_id n : AuditStream.or0 (Some n) = n.
Proof. unfold AuditStream.or0. destruct (Z.eqb_spec n 0); congruence. Qed.

Lemma rows_one_sided_left rs :
  Forall (row_ok 2) rs ->
  flat_map (slot_list 1) rs = [] ->
  rs = map (fun d => mkRow (join_field d) [Some d; None])
         (flat_map (slot_list 0) rs).
Proof.
  induction 1 as [|r rs (Hlen & (i & d & Hsl) & Hkey) _ IH]; [reflexivity|].
  simpl. intros E. apply app_eq_nil in E. destruct E as [E1 E2].
  destruct r as [k sl]. simpl in Hlen.
  destruct sl as [|e1 [|e2 [|e3 sl]]]; try discriminate.
  unfold slot_list, slot in E1. simpl in E1.
  destruct e2; [discriminate|].
  destruct e1 as [e|].
  - assert (Hk : join_field e = k) by (apply (Hkey 0%nat); reflexivity).
    unfold slot_list at 1, slot at 1. simpl. rewrite Hk. f_equal. auto.
  - exfalso. unfold slot in Hsl. simpl in Hsl.
    destruct i as [|[|[|i]]]; discriminate.
Qed.

Lemma rows_one_sided_right rs :
  Forall (row_ok 2) rs ->
  flat_map (slot_list 0) rs = [] ->
  rs = map (fun d => mkRow (join_field d) [None; Some d])
         (flat_map (slot_list 1) rs).
Proof.
  induction 1 as [|r rs (Hlen & (i & d & Hsl) & Hkey) _ IH]; [reflexivity|].
  simpl. intros E. apply app_eq_nil in E. destruct E as [E1 E2].
  destruct r as [k sl]. simpl in Hlen.
  destruct sl as [|e1 [|e2 [|e3 sl]]]; try discriminate.
  unfold slot_list, slot in E1. simpl in E1.
  destruct e1; [discriminate|].
  destruct e2 as [e|].
  - assert (Hk : join_field e = k) by (apply (Hkey 1%nat); reflexivity).
    unfold slot_list at 1, slot at 1. simpl. rewrite Hk. f_equal. auto.
  - exfalso. unfold slot in Hsl. simpl in Hsl.
    destruct i as [|[|[|i]]]; discriminate.
Qed.

Lemma audit_raw_only verbose inp :
  Main.audit verbose (map (fun d => mkRow (join_field d) [Some d; None]) inp) =
  Some (map raw_only inp).
Proof.
  induction inp as [|d inp IH]; [reflexivity|].
  cbn [map Main.audit]. rewrite IH.
  unfold AuditStream._transform, AuditStream.emitRow, AuditStream.emitRowRaw,
    raw_only. cbn [row_slots row_key]. rewrite or0_id.
  destruct d as [n k]. cbn [fst snd join_field].
  destruct (n =? 0)%Z; reflexivity.
Qed.

Lemma audit_reported_only verbose inp :
  Main.audit verbose (map (fun d => mkRow (join_field d) [None; Some d]) inp) =
  Some (map reported_only inp).
Proof.
  induction inp as [|d inp IH]; [reflexivity|].
  cbn [map Main.audit]. rewrite IH.
  unfold AuditStream._transform, AuditStream.emitRow, AuditStream.emitRowRaw,
    reported_only. cbn [row_slots row_key]. rewrite or0_id.
  destruct d as [n k]. cbn [fst snd join_field].
  destruct (n =? 0)%Z; reflexivity.
Qed.

Lemma audit_agreeing verbose inp :
  Main.audit verbose (map (fun d => mkRow (join_field d) [Some d; Some d]) inp) =
  Some (if verbose then map agreeing inp else []).
Proof.
  induction inp as [|d inp IH]; [destruct verbose; reflexivity|].
  cbn [map Main.audit]. rewrite IH.
  unfold AuditStream._transform, AuditStream.emitRow, AuditStream.emitRowRaw,
    AuditStream.loose_neq, agreeing. cbn [row_slots row_key].
  rewrite or0_id. destruct d as [n k]. cbn [fst snd join_field].
  rewrite Z.eqb_refl. destruct verbose; reflexivity.
Qed.

Lemma flat_map_slot_agreeing i inp :
  flat_map (slot_list i)
    (map (fun d => mkRow (join_field d) [Some d; Some d]) inp) =
  match i with 0%nat | 1%nat => inp | _ => [] end.
Proof.
  induction inp as [|d inp IH]; [destruct i as [|[|i]]; reflexivity|].
  cbn [map flat_map]. rewrite IH.
  destruct i as [|[|[|i]]]; reflexivity.
Qed.

Lemma rows_self ins es inp :
  ins = [inp; inp] -> well_formed inp ->
  ended (run es (create ins)) = true ->
  rows (run es (create ins)) =
  map (fun d => mkRow (join_field d) [Some d; Some d]) inp.
Proof.
  intros Eins Hwf He.
  assert (Hwfs : Forall well_formed ins) by (subst ins; auto).
  pose proof (run_invariant ins es) as Hinv.
  destruct (run_ahead ins es Hwfs) as [_ Hsorted _].
  apply (rows_determined 2).
  - assumption.
  - rewrite map_map. cbn [row_key]. apply Hwf.
  - replace 2%nat with (List.length ins) by (subst ins; reflexivity).
    apply (inv_rows _ _ Hinv).
  - rewrite Forall_forall. intros r Hr.
    apply in_map_iff in Hr. destruct Hr as (d & <- & _).
    split; [reflexivity|]. split.
    + exists 0%nat, d. reflexivity.
    + intros i e. unfold slot. cbn [row_slots row_key].
      destruct i as [|[|[|i]]]; simpl; intros H; inversion H; reflexivity.
  - intros i. rewrite flat_map_slot_agreeing.
    fold (joined i (run es (create ins))).
    destruct i as [|[|i]].
    + apply (ended_all_joined _ _ _ _ Hinv He). subst ins. reflexivity.
    + apply (ended_all_joined _ _ _ _ Hinv He). subst ins. reflexivity.
    + apply (joined_out_of_range _ _ _ Hinv). subst ins. simpl. lia.
Qed.

Lemma auditcounts_result verbose f1 f2 schedule r :
  Main.auditcounts verbose [f1; f2] schedule = Some r ->
  Main.diagnostics r =
    Main.audit verbose
      (rows (run schedule
               (create [SplitStream.pushed (SplitStream.run f1);
                        SplitStream.pushed (SplitStream.run f2)]))) /\
  Main.completed r =
    ended (run schedule
             (create [SplitStream.pushed (SplitStream.run f1);
                      SplitStream.pushed (SplitStream.run f2)])) /\
  Main.failed r =
    exited (run schedule
              (create [SplitStream.pushed (SplitStream.run f1);
                       SplitStream.pushed (SplitStream.run f2)])) /\
  Main.nwarnings r =
    (List.length (SplitStream.warned (SplitStream.run f1)) +
     List.length (SplitStream.warned (SplitStream.run f2)))%nat.
Proof.
  intros H. rewrite auditcounts_two in H.
  assert (E : r = Main.mkResult
            (Main.audit verbose
               (rows (run schedule
                        (create (map SplitStream.pushed
                                   (map SplitStream.run [f1; f2]))))))
            (fold_left (fun n _ => Main.streamWarn n)
               (flat_map SplitStream.warned (map SplitStream.run [f1; f2]))
               0%nat)
            (ended (run schedule
                      (create (map SplitStream.pushed
                                 (map SplitStream.run [f1; f2])))))
            (exited (run schedule
                       (create (map SplitStream.pushed
                                  (map SplitStream.run [f1; f2])))))) by congruence.
  rewrite E. cbn [Main.diagnostics Main.completed Main.failed Main.nwarnings].
  repeat split. rewrite count_warnings. cbn [map flat_map].
  rewrite app_nil_r, length_app. reflexivity.
Qed.

(** X14. A file audited against itself is clean: when its records are
    strictly increasing, a complete run on the file as both inputs writes
    nothing without [-v], and with [-v] one [count okay] record per input
    record, with that record's key and its count on both sides. *)
Theorem X14_self_audit (verbose : bool) (f : list string)
    (schedule : list event) (r : Main.result) :
  well_formed (SplitStream.pushed (SplitStream.run f)) ->
  Main.auditcounts verbose [f; f] schedule = Some r ->
  Main.completed r = true ->
  Main.diagnostics r =
    Some (if verbose
          then map agreeing (SplitStream.pushed (SplitStream.run f))
          else []).
Proof.
  intros Hwf H Hc.
  destruct (auditcounts_result _ _ _ _ _ H) as (Hd & He & _).
  rewrite Hd. rewrite He in Hc.
  rewrite (rows_self _ schedule _ eq_refl Hwf Hc).
  apply audit_agreeing.
Qed.

Lemma X14_self_audit_witness :
  Main.diagnostics
    (Main.mkResult
       (Some [ agreeing (3%Z, JSON.quoted "a"); agreeing (5%Z, JSON.quoted "b");
               agreeing (2%Z, JSON.quoted "c") ])
       0 true false) =
  Some (if true
        then map agreeing (SplitStream.pushed (SplitStream.run scenario_A))
        else []).
Proof.
  apply (X14_self_audit true scenario_A
           (Main.eager [scenario_A; scenario_A])).
  - vm_compute. repeat constructor.
  - vm_compute. reflexivity.
  - reflexivity.
Defined.

(** X15. A file audited against an empty file: every complete run writes
    one record per record of the file, in the order of the file, with the
    count on the side of the file and 0 on the other side; the status is
    the warning of that side when the count is 0 and its error
    otherwise.  This holds in both modes and for the empty file on either
    side. *)
Theorem X15_against_empty_file (verbose : bool) (f : list string)
    (schedule : list event) (r : Main.result) :
  Main.completed r = true ->
  (Main.auditcounts verbose [f; []] schedule = Some r ->
   Main.diagnostics r =
     Some (map raw_only (SplitStream.pushed (SplitStream.run f)))) /\
  (Main.auditcounts verbose [[]; f] schedule = Some r ->
   Main.diagnostics r =
     Some (map reported_only (SplitStream.pushed (SplitStream.run f)))).
Proof.
  intros Hc. split; intros H;
    destruct (auditcounts_result _ _ _ _ _ H) as (Hd & He & _);
    rewrite Hd; rewrite He in Hc;
    match type of Hc with
    | ended (run _ (create ?l)) = true =>
        pose proof (run_invariant l schedule) as Hinv;
        destruct (ended_all_joined _ _ 0 _ Hinv Hc eq_refl) as (H0 & _);
        destruct (ended_all_joined _ _ 1 _ Hinv Hc eq_refl) as (H1 & _)
    end.
  - rewrite (rows_one_sided_left _ (inv_rows _ _ Hinv) H1).
    unfold joined in H0. rewrite H0. apply audit_raw_only.
  - rewrite (rows_one_sided_right _ (inv_rows _ _ Hinv) H0).
    unfold joined in H1. rewrite H1. apply audit_reported_only.
Qed.

Lemma X15_against_empty_file_witness :
  Some [ raw_only (3%Z, JSON.quoted "a"); raw_only (5%Z, JSON.quoted "b");
         raw_only (2%Z, JSON.quoted "c") ] =
  Some (map raw_only (SplitStream.pushed (SplitStream.run scenario_A))).
Proof.
  refine (proj1 (X15_against_empty_file false scenario_A
                   (Main.eager [scenario_A; []])
                   (Main.mkResult _ 0 true false) _) _).
  - reflexivity.
  - vm_compute. reflexivity.
Defined.

(** ** The exit status *)

Lemma run_cons line lines :
  SplitStream.run (line :: lines) =
  SplitStream.mkEffects
    (SplitStream.warned (SplitStream._transform line)
       ++ SplitStream.warned (SplitStream.run lines))
    (SplitStream.pushed (SplitStream._transform line)
       ++ SplitStream.pushed (SplitStream.run lines)).
Proof.
  rewrite (run_app [line] lines : SplitStream.run (line :: lines) = _).
  reflexivity.
Qed.

Lemma warned_none lines :
  SplitStream.warned (SplitStream.run lines) = [] <->
  forall line, In line lines -> rejected line = false.
Proof.
  unfold rejected. induction lines as [|l lines IH].
  - split; [intros _ line []|reflexivity].
  - rewrite run_cons. cbn [SplitStream.warned]. split.
    + intros H. apply app_eq_nil in H. destruct H as [H1 H2].
      intros line [<-|Hin]; [rewrite H1; reflexivity|].
      apply IH; assumption.
    + intros H.
      assert (H1 := H l (or_introl eq_refl)).
      destruct (SplitStream.warned (SplitStream._transform l));
        [|discriminate].
      apply IH. intros line Hin. apply H. right. assumption.
Qed.

Lemma warned_some lines :
  SplitStream.warned (SplitStream.run lines) <> [] ->
  exists line, In line lines /\ rejected line = true.
Proof.
  unfold rejected. induction lines as [|l lines IH].
  { intros H. exfalso. apply H. reflexivity. }
  rewrite run_cons. cbn [SplitStream.warned]. intros H.
  destruct (SplitStream.warned (SplitStream._transform l)) eqn:E.
  - destruct (IH H) as (line & Hin & Hr). exists line.
    split; [right; assumption|assumption].
  - exists l. rewrite E. split; [left|]; reflexivity.
Qed.

Lemma never_threw ins es :
  existsb Process.threw (js_trace (run es (create ins))) = false.
Proof.
  destruct (existsb Process.threw (js_trace (run es (create ins)))) eqn:E;
    [|reflexivity].
  apply existsb_exists in E. destruct E as (o & Hin & Ho).
  destruct o; try discriminate.
  destruct (shape_no_assertion _ (inv_shape _ _ (run_invariant ins es)) Hin).
Qed.

Lemma main_two verbose n1 n2 argv contents schedule :
  Process.arguments argv = (verbose, [n1; n2]) ->
  Process.main argv contents schedule =
  if exited (run schedule
               (create [SplitStream.pushed (SplitStream.run (contents n1));
                        SplitStream.pushed (SplitStream.run (contents n2))]))
  then Process.Exit 1
  else if ended (run schedule
                   (create [SplitStream.pushed (SplitStream.run (contents n1));
                            SplitStream.pushed (SplitStream.run (contents n2))]))
  then Process.Exit
         (Process.endReport
            (List.length (SplitStream.warned (SplitStream.run (contents n1))) +
             List.length (SplitStream.warned (SplitStream.run (contents n2)))))
  else Process.Running.
Proof.
  intros Ha. unfold Process.main. rewrite Ha. cbn [map flat_map].
  rewrite never_threw.
  pose proof (audit_never_throws verbose
                (SplitStream.pushed (SplitStream.run (contents n1)))
                (SplitStream.pushed (SplitStream.run (contents n2)))
                schedule) as Hna.
  destruct (Main.audit verbose _); [|congruence].
  rewrite count_warnings, app_nil_r, length_app. reflexivity.
Qed.

Lemma disordered_of_two (in1 in2 : list datum) i inp :
  nth_error [in1; in2] i = Some inp -> disordered inp ->
  disordered in1 \/ disordered in2.
Proof.
  destruct i as [|[|i]]; simpl; intros H; inversion H; subst; auto.
  destruct i; discriminate.
Qed.

Lemma main_exit_zero verbose n1 n2 argv contents schedule :
  Process.arguments argv = (verbose, [n1; n2]) ->
  Process.main argv contents schedule = Process.Exit 0 ->
  ended (run schedule
           (create [SplitStream.pushed (SplitStream.run (contents n1));
                    SplitStream.pushed (SplitStream.run (contents n2))]))
    = true /\
  (forall line, In line (contents n1 ++ contents n2) ->
     rejected line = false) /\
  ~ disordered (SplitStream.pushed (SplitStream.run (contents n1))) /\
  ~ disordered (SplitStream.pushed (SplitStream.run (contents n2))).
Proof.
  intros Ha. rewrite (main_two _ _ _ _ contents schedule Ha).
  set (in1 := SplitStream.pushed (SplitStream.run (contents n1))).
  set (in2 := SplitStream.pushed (SplitStream.run (contents n2))).
  set (w1 := SplitStream.warned (SplitStream.run (contents n1))).
  set (w2 := SplitStream.warned (SplitStream.run (contents n2))).
  destruct (exited (run schedule (create [in1; in2]))); [discriminate|].
  destruct (ended (run schedule (create [in1; in2]))) eqn:He; [|discriminate].
  unfold Process.endReport.
  destruct (List.length w1 + List.length w2)%nat eqn:Hn; simpl;
    [|discriminate].
  intros _. split; [reflexivity|].
  assert (E1 : w1 = []) by (destruct w1; [reflexivity|discriminate]).
  assert (E2 : w2 = []) by (destruct w2; [reflexivity|simpl in Hn; lia]).
  split; [|split].
  - intros line Hin. apply in_app_or in Hin.
    destruct Hin as [Hin|Hin];
      [apply (proj1 (warned_none (contents n1)) E1)
      |apply (proj1 (warned_none (contents n2)) E2)]; assumption.
  - intros Hd.
    pose proof (disordered_never_ends [in1; in2] schedule 0 in1 eq_refl Hd).
    congruence.
  - intros Hd.
    pose proof (disordered_never_ends [in1; in2] schedule 1 in2 eq_refl Hd).
    congruence.
Qed.

Lemma main_exit_one verbose n1 n2 argv contents schedule :
  Process.arguments argv = (verbose, [n1; n2]) ->
  Process.main argv contents schedule = Process.Exit 1 ->
  (exists line, In line (contents n1 ++ contents n2) /\
                rejected line = true) \/
  disordered (SplitStream.pushed (SplitStream.run (contents n1))) \/
  disordered (SplitStream.pushed (SplitStream.run (contents n2))).
Proof.
  intros Ha. rewrite (main_two _ _ _ _ contents schedule Ha).
  set (in1 := SplitStream.pushed (SplitStream.run (contents n1))).
  set (in2 := SplitStream.pushed (SplitStream.run (contents n2))).
  set (w1 := SplitStream.warned (SplitStream.run (contents n1))).
  set (w2 := SplitStream.warned (SplitStream.run (contents n2))).
  assert (Htok : Forall (Forall (fun d => key_token (join_field d) = true))
                   [in1; in2]).
  { repeat constructor; apply run_key_tokens. }
  destruct (exited (run schedule (create [in1; in2]))) eqn:Hx.
  - intros _. right.
    destruct (exited_disordered _ _ Htok Hx) as (i & inp & Hi & Hd).
    apply (disordered_of_two _ _ _ _ Hi Hd).
  - destruct (ended (run schedule (create [in1; in2]))); [|discriminate].
    unfold Process.endReport.
    destruct (List.length w1 + List.length w2)%nat eqn:Hn; simpl;
      [discriminate|].
    intros _. left.
    destruct w1 as [|k w1'] eqn:E1.
    + destruct (warned_some (contents n2)) as (line & Hin & Hr).
      { fold w2. destruct w2; discriminate. }
      exists line. split; [apply in_or_app; right|]; assumption.
    + destruct (warned_some (contents n1)) as (line & Hin & Hr).
      { fold w1. rewrite E1. discriminate. }
      exists line. split; [apply in_or_app; left|]; assumption.
Qed.

Lemma main_codes verbose n1 n2 argv contents schedule :
  Process.arguments argv = (verbose, [n1; n2]) ->
  Process.main argv contents schedule = Process.Running \/
  Process.main argv contents schedule = Process.Exit 0 \/
  Process.main argv contents schedule = Process.Exit 1.
Proof.
  intros Ha. rewrite (main_two _ _ _ _ contents schedule Ha).
  destruct (exited _); [auto|]. destruct (ended _); [|auto].
  unfold Process.endReport. destruct (0 <? _)%nat; auto.
Qed.

Lemma arguments_two argv verbose n1 n2 :
  Process.arguments argv = (verbose, [n1; n2]) <->
  (argv = [n1; n2] /\ n1 <> "-v" /\ verbose = false) \/
  (argv = ["-v"; n1; n2] /\ verbose = true).
Proof.
  unfold Process.arguments. split.
  - destruct argv as [|a rest]; [discriminate|].
    destruct (String.eqb_spec a "-v") as [->|Hne]; intros H; inversion H; subst.
    + right. auto.
    + left. auto.
  - intros [(-> & Hne & ->)|(-> & ->)].
    + destruct (String.eqb_spec n1 "-v"); [contradiction|reflexivity].
    + reflexivity.
Qed.

(** X16. What the exit status of the program says about its two files.
    Under every schedule no assertion throws and the process is running or
    has exited with status 0 or 1.  Status 0 is only reached when every
    line of both files was accepted and neither file has a record whose key
    is strictly below the key before it.  Status 1 is only reached when
    some line was turned down or some file has such a record. *)
Theorem X16_exit_status (argv : list string)
    (contents : string -> list string) (schedule : list event)
    (verbose : bool) (n1 n2 : string) :
  Process.arguments argv = (verbose, [n1; n2]) ->
  (Process.main argv contents schedule = Process.Running \/
   Process.main argv contents schedule = Process.Exit 0 \/
   Process.main argv contents schedule = Process.Exit 1) /\
  (Process.main argv contents schedule = Process.Exit 0 ->
   (forall line, In line (contents n1 ++ contents n2) ->
      rejected line = false) /\
   ~ disordered (SplitStream.pushed (SplitStream.run (contents n1))) /\
   ~ disordered (SplitStream.pushed (SplitStream.run (contents n2)))) /\
  (Process.main argv contents schedule = Process.Exit 1 ->
   (exists line, In line (contents n1 ++ contents n2) /\
                 rejected line = true) \/
   disordered (SplitStream.pushed (SplitStream.run (contents n1))) \/
   disordered (SplitStream.pushed (SplitStream.run (contents n2)))).
Proof.
  intros Ha. split; [|split].
  - eapply main_codes; eassumption.
  - intros H. eapply (main_exit_zero verbose n1 n2); eassumption.
  - intros H. eapply (main_exit_one verbose n1 n2); eassumption.
Qed.

Lemma X16_exit_status_witness :
  exists line,
    In line (example_contents "garbled.txt"
               ++ example_contents "reported_counts.txt") /\
    rejected line = true.
Proof.
  destruct (proj2 (proj2 (X16_exit_status
                            ["garbled.txt"; "reported_counts.txt"]
                            example_contents
                            (Main.eager [["garbled"]; scenario_B])
                            false "garbled.txt" "reported_counts.txt"
                            eq_refl))) as [H|[H|H]].
  - vm_compute. reflexivity.
  - exact H.
  - exfalso. destruct H as (pre & d1 & d2 & post & E & _).
    vm_compute in E. destruct pre; discriminate.
  - exfalso. destruct H as (pre & d1 & d2 & post & E & Hlt).
    vm_compute in E.
    destruct pre as [|x [|y [|z pre]]]; simpl in E.
    + injection E as <- <- _. vm_compute in Hlt. discriminate.
    + injection E as _ <- <- _. vm_compute in Hlt. discriminate.
    + injection E as _ _ E. discriminate.
    + injection E as _ _ _ E. destruct pre; discriminate.
Defined.



(** X18. The command lines the program takes.  The process exits with the
    usage status 2 exactly when its arguments are neither two file names,
    the first of them not [-v], nor [-v] followed by two file names; [-v]
    is the verbose flag only as the first argument, and no run of the
    audit itself ends with status 2. *)
Theorem X18_usage (argv : list string) (contents : string -> list string)
    (schedule : list event) :
  Process.main argv contents schedule = Process.Exit 2 <->
  ~ ((exists a b, argv = [a; b] /\ a <> "-v") \/
     (exists a b, argv = ["-v"; a; b])).
Proof.
  split.
  - intros H [(a & b & E & Hne)|(a & b & E)].
    + assert (Ha : Process.arguments argv = (false, [a; b])).
      { apply arguments_two. left. auto. }
      destruct (main_codes _ _ _ _ contents schedule Ha) as [C|[C|C]];
        congruence.
    + assert (Ha : Process.arguments argv = (true, [a; b])).
      { apply arguments_two. right. auto. }
      destruct (main_codes _ _ _ _ contents schedule Ha) as [C|[C|C]];
        congruence.
  - intros Hnot. unfold Process.main.
    destruct (Process.arguments argv) as [verbose names] eqn:Ha.
    destruct names as [|n1 [|n2 [|n3 names]]]; try reflexivity.
    exfalso. apply Hnot.
    apply arguments_two in Ha.
    destruct Ha as [(E & Hne & _)|(E & _)]; [left|right]; eauto.
Qed.

(** ** What the stream waits for *)

Lemma pull_blocked c srcs :
  forall i l,
    pull c i srcs = Pulled l true ->
    exists src, In src l /\ src_next src = None /\ src_done src = false.
Proof.
  induction srcs as [|src rest IH]; intros i l; simpl.
  - discriminate.
  - pose proof (pull1_pulls c i src) as Hp.
    destruct (pull1 c i src) as [src' st]; simpl in Hp.
    destruct st.
    + destruct (pull c (S i) rest) as [l' b'|] eqn:E; [|discriminate].
      intros H. injection H as <- Hb. simpl in Hb. subst b'.
      destruct (IH _ _ E) as (s & Hin & Hs). exists s. split; [right|]; auto.
    + destruct (pull c (S i) rest) as [l' b'|] eqn:E; [|discriminate].
      intros H. injection H as <-.
      exists src'. split; [left; reflexivity|].
      inversion Hp as [|Hn Hd E1 E2| |d more Hn Hd Hs E1 E2]; subst;
        [auto|].
      destruct (JS.lt_nullable _ _); discriminate.
    + discriminate.
Qed.

Lemma pass_waiting ins c js :
  invariant ins js ->
  (js_waiting js = true ->
   exists src, In src (js_sources js) /\ src_next src = None /\
               src_done src = false) ->
  js_waiting js = false -> exited js = false -> ended js = false ->
  js_waiting (fst (pass c js)) = true ->
  exists src, In src (js_sources (fst (pass c js))) /\ src_next src = None /\
              src_done src = false.
Proof.
  intros Hinv _ Hw _ _. unfold pass. rewrite Hw, (inv_working _ _ Hinv).
  simpl.
  destruct (pull c 0 (js_sources js)) as [l [|]|j l] eqn:Ep; simpl.
  - intros _. apply (pull_blocked _ _ _ _ Ep).
  - destruct (earliest l); [simpl; congruence|].
    destruct (_ =? _)%nat; simpl; congruence.
  - congruence.
Qed.

(** X19. The stream only waits when there is something to wait for:
    under every schedule, whenever [js_waiting] is set some source has not
    ended ([src_done] is false) and has no record buffered ([src_next] is
    [null]). *)
Theorem X19_waits_for_a_live_source (ins : list (list datum))
    (es : list event) :
  js_waiting (run es (create ins)) = true ->
  exists src, In src (js_sources (run es (create ins))) /\
              src_next src = None /\ src_done src = false.
Proof.
  induction es as [|e es IH] using rev_ind; [discriminate|].
  rewrite run_snoc.
  pose proof (run_invariant ins es) as Hinv.
  set (js := run es (create ins)) in *.
  set (P := fun js : t =>
              js_waiting js = true ->
              exists src, In src (js_sources js) /\ src_next src = None /\
                          src_done src = false).
  assert (Hkick : forall c more js0,
            invariant ins js0 -> js_waiting js0 = false ->
            exited js0 = false -> ended js0 = false ->
            P (kick c more js0)).
  { intros c more js0 H0 Hw Hx He.
    apply (kick_preserves ins P (pass_waiting ins) more c js0); try assumption.
    unfold P. congruence. }
  assert (Hwake : forall c more js0,
            invariant ins js0 -> P js0 -> exited js0 = false ->
            (js_waiting js0 = false -> P js0) ->
            P (kickIfWaiting c more js0)).
  { intros c more js0 H0 _ Hx Hidle. unfold kickIfWaiting.
    destruct (js_waiting js0) eqn:Hw; simpl; [|auto].
    apply Hkick; try assumption; try reflexivity.
    - apply wake_invariant. assumption.
    - change (ended js0 = false).
      destruct (ended js0) eqn:He; [|reflexivity].
      destruct (inv_ended _ _ H0 He). congruence. }
  fold (P (dispatch e js)). fold (P js) in IH.
  unfold dispatch.
  destruct (exited js) eqn:Hx; [assumption|].
  destruct e as [c more|i c more|i c more].
  - destruct (ended js) eqn:He; [assumption|].
    unfold _read. destruct (js_working js); simpl; [assumption|].
    destruct (js_waiting js) eqn:Hw; [assumption|].
    apply Hkick; assumption.
  - apply Hwake; auto.
  - destruct (nth_error (js_sources js) i) as [src|] eqn:Hi; [|assumption].
    destruct (src_stream src) eqn:Hs; [|assumption].
    unfold kickIfWaiting. cbn [js_waiting js_working js_sources js_trace].
    destruct (js_waiting js) eqn:Hw; simpl.
    + apply Hkick; try reflexivity.
      * apply (wake_invariant ins
                 (mkJoin (js_waiting js) (js_working js)
                    (mark_done i (js_sources js)) (js_trace js))).
        eapply mark_done_invariant; eassumption.
      * exact Hx.
      * change (ended js = false).
        destruct (ended js) eqn:He; [|reflexivity].
        destruct (inv_ended _ _ Hinv He). congruence.
    + unfold P. simpl. congruence.
Qed.

(** ** The order of the records written *)

Lemma transform_at_most_one verbose r ds :
  AuditStream._transform verbose r = Some ds ->
  ds = [] \/ exists d, ds = [d] /\ AuditStream.dirname d = row_key r.
Proof.
  unfold AuditStream._transform.
  destruct (row_slots r) as [|e1 [|e2 [|e3 sl]]]; try discriminate.
  unfold AuditStream.emitRow, AuditStream.emitRowRaw.
  destruct e1 as [[r1 k1]|], e2 as [[r2 k2]|]; simpl; try discriminate.
  - destruct (negb (r2 =? r1)%Z).
    + intros H; inversion H. right. eexists. split; reflexivity.
    + destruct verbose; simpl; intros H; inversion H; [right|left; reflexivity].
      eexists. split; reflexivity.
  - intros H; inversion H. right. eexists. split; reflexivity.
  - intros H; inversion H. right. eexists. split; reflexivity.
Qed.

Lemma audit_sorted verbose rs :
  forall ds,
    StronglySorted key_le (map row_key rs) ->
    Main.audit verbose rs = Some ds ->
    StronglySorted key_le (map AuditStream.dirname ds).
Proof.
  induction rs as [|r rs IH]; intros ds Hs; simpl.
  - intros H; inversion H. constructor.
  - destruct (AuditStream._transform verbose r) as [ds1|] eqn:E1;
      [|discriminate].
    destruct (Main.audit verbose rs) as [more|] eqn:E2; [|discriminate].
    intros H; inversion H; subst ds; clear H.
    simpl in Hs. inversion Hs as [|k ks Hs' Hall]; subst.
    specialize (IH _ Hs' eq_refl).
    destruct (transform_at_most_one _ _ _ E1) as [->|(d & -> & Hd)];
      [exact IH|].
    simpl. constructor; [exact IH|].
    rewrite Forall_forall in *. intros k Hk.
    apply in_map_iff in Hk. destruct Hk as (d' & <- & Hd').
    destruct (audit_In _ _ _ _ E2 Hd') as (r' & ds' & Hr' & Ht' & Hin').
    destruct (transform_at_most_one _ _ _ Ht') as [->|(d'' & -> & Hd'')];
      [destruct Hin'|].
    destruct Hin' as [<-|[]]. rewrite Hd, Hd''.
    apply Hall. apply in_map. assumption.
Qed.

Lemma X19_waits_for_a_live_source_witness :
  exists src,
    In src (js_sources
              (run [WantData starved []] (create example_equal_keys))) /\
    src_next src = None /\ src_done src = false.
Proof.
  apply (X19_waits_for_a_live_source example_equal_keys
           [WantData starved []]).
  reflexivity.
Defined.

(** X20. The records come out in key order: whatever the two files hold
    and under every schedule, the [dirname] of each record written is at or
    above the [dirname] of every record written before it, in the order of
    the raw key tokens. *)
Theorem X20_output_in_key_order (verbose : bool) (f1 f2 : list string)
    (schedule : list event) (r : Main.result)
    (ds : list AuditStream.diagnostic) :
  Main.auditcounts verbose [f1; f2] schedule = Some r ->
  Main.diagnostics r = Some ds ->
  StronglySorted key_le (map AuditStream.dirname ds).
Proof.
  intros H Hds.
  destruct (auditcounts_result _ _ _ _ _ H) as (Hd & _).
  rewrite Hd in Hds.
  refine (audit_sorted verbose _ ds _ Hds).
  exact (proj1 (run_rows_sorted _ schedule)).
Qed.

Lemma X20_output_in_key_order_witness :
  StronglySorted key_le
    (map AuditStream.dirname
       [ AuditStream.mkDiagnostic (JSON.quoted "b") 5 0
           "error: count mismatch";
         AuditStream.mkDiagnostic (JSON.quoted "c") 2 0
           "error: count mismatch (no optimized count)";
         AuditStream.mkDiagnostic (JSON.quoted "d") 0 7
           "error: count mismatch (no entries)" ]).
Proof.
  apply (X20_output_in_key_order false scenario_A scenario_B
           (Main.eager [scenario_A; scenario_B])
           (Main.mkResult
              (Some [ AuditStream.mkDiagnostic (JSON.quoted "b") 5 0
                        "error: count mismatch";
                      AuditStream.mkDiagnostic (JSON.quoted "c") 2 0
                        "error: count mismatch (no optimized count)";
                      AuditStream.mkDiagnostic (JSON.quoted "d") 0 7
                        "error: count mismatch (no entries)" ])
              0 true false)).
  - vm_compute. reflexivity.
  - reflexivity.
Defined.

(** * pgjxfields.js *)

(** ** Field names and types *)

Lemma lastIndexOf_none c s :
  forallb (fun x => negb (Ascii.eqb x c)) (list_ascii_of_string s) = true ->
  ExtractorStream.lastIndexOf c s = None.
Proof.
  induction s as [|x s IH]; simpl; [reflexivity|].
  intros H. apply andb_prop in H. destruct H as [Hx Hs].
  rewrite (IH Hs). apply negb_true_iff in Hx. rewrite Hx. reflexivity.
Qed.

Lemma lastIndexOf_last c name type :
  forallb (fun x => negb (Ascii.eqb x c)) (list_ascii_of_string type) = true ->
  ExtractorStream.lastIndexOf c (name ++ String c type) =
  Some (String.length name).
Proof.
  intros Ht. induction name as [|x name IH]; simpl.
  - rewrite (lastIndexOf_none _ _ Ht), Ascii.eqb_refl. reflexivity.
  - rewrite IH. reflexivity.
Qed.

Lemma substring_prefix a b :
  String.substring 0 (String.length a) (a ++ b) = a.
Proof.
  induction a as [|x a IH]; simpl.
  - destruct b; reflexivity.
  - rewrite IH. reflexivity.
Qed.

Lemma substr_suffix a c b :
  substr (S (String.length a)) (a ++ String c b) = b.
Proof. induction a as [|x a IH]; simpl; [reflexivity|exact IH]. Qed.

(** X21. How pgjxfields reads a field given on its command line: the text
    after the last [@] is the type and the text before it the name, so a
    name may itself contain [@]; a field without [@] has the type
    [string]. *)
Theorem X21_field_spec (name type f : string) :
  no_at type = true -> no_at f = true ->
  ExtractorStream.field_spec (name ++ "@" ++ type) = (name, type) /\
  ExtractorStream.field_spec f = (f, "string").
Proof.
  intros Ht Hf. unfold ExtractorStream.field_spec. split.
  - cbn [append]. rewrite (lastIndexOf_last _ _ _ Ht).
    rewrite substring_prefix, substr_suffix. reflexivity.
  - rewrite (lastIndexOf_none _ _ Hf). reflexivity.
Qed.

Lemma X21_field_spec_witness :
  ExtractorStream.field_spec ("a@b" ++ "@" ++ "number") = ("a@b", "number") /\
  ExtractorStream.field_spec "_key" = ("_key", "string").
Proof.
  apply (X21_field_spec "a@b" "number" "_key"); reflexivity.
Defined.

(** ** The header row *)






(** ** Rows after the header *)





(** ** From pgjxfields to auditcounts *)









(** ** What counts as a number *)





(** * lib/dcaudit.js *)

Lemma onEntry_manta aj entry :
  DcAudit.aj_entry_manta (DcAudit.onEntry aj entry) =
  if is_dump "manta-" entry then Some entry else DcAudit.aj_entry_manta aj.
Proof.
  unfold DcAudit.onEntry, is_dump.
  destruct (String.eqb (DcAudit.type entry) "object"); [|reflexivity].
  destruct (DcAudit.endsWith (DcAudit.name entry) ".gz"); [|reflexivity].
  simpl.
  destruct (DcAudit.startsWith (DcAudit.name entry) "manta-"); [reflexivity|].
  destruct (DcAudit.startsWith (DcAudit.name entry) "manta_directory_counts-");
    reflexivity.
Qed.

Lemma dircounts_not_manta s :
  DcAudit.startsWith s "manta_directory_counts-" = true ->
  DcAudit.startsWith s "manta-" = false.
Proof.
  destruct s as [|c1 [|c2 [|c3 [|c4 [|c5 [|c6 s]]]]]];
    cbn [DcAudit.startsWith]; intros H;
    repeat (apply andb_prop in H; destruct H as [?E H]);
    try discriminate.
  rewrite E, E0, E1, E2, E3. simpl.
  apply Ascii.eqb_eq in E4. subst c6. reflexivity.
Qed.

Lemma onEntry_dircounts aj entry :
  DcAudit.aj_entry_dircounts (DcAudit.onEntry aj entry) =
  if is_dump "manta_directory_counts-" entry then Some entry
  else DcAudit.aj_entry_dircounts aj.
Proof.
  unfold DcAudit.onEntry, is_dump.
  destruct (String.eqb (DcAudit.type entry) "object"); [|reflexivity].
  destruct (DcAudit.endsWith (DcAudit.name entry) ".gz"); [|reflexivity].
  simpl.
  destruct (DcAudit.startsWith (DcAudit.name entry) "manta_directory_counts-")
    eqn:E.
  - rewrite (dircounts_not_manta _ E). reflexivity.
  - destruct (DcAudit.startsWith (DcAudit.name entry) "manta-"); reflexivity.
Qed.

Lemma list_entries prefix (field : DcAudit.shard_files -> option DcAudit.dirent) :
  (forall aj entry,
     field (DcAudit.onEntry aj entry) =
     if is_dump prefix entry then Some entry else field aj) ->
  forall entries aj,
    field (fold_left DcAudit.onEntry entries aj) =
    match find (is_dump prefix) (rev entries) with
    | Some entry => Some entry
    | None => field aj
    end.
Proof.
  intros Hstep entries.
  induction entries as [|e entries IH] using rev_ind; intros aj.
  - reflexivity.
  - rewrite fold_left_app, rev_app_distr. simpl. rewrite Hstep.
    destruct (is_dump prefix e); [reflexivity|]. apply IH.
Qed.

(** X27. Which table dumps the launcher of the audit job takes from the
    listing of a shard.  The dump of the [manta] table is the last entry of
    the listing that is an object whose name ends in [.gz] and starts with
    [manta-]; the dump of the directory counts is the last such entry whose
    name starts with [manta_directory_counts-], which the test for [manta-]
    never takes away; and the check that follows passes exactly when the
    listing has an entry of each kind. *)
Theorem X27_shard_files (entries : list DcAudit.dirent) :
  DcAudit.aj_entry_manta (DcAudit.stageListShardFiles entries) =
    find (is_dump "manta-") (rev entries) /\
  DcAudit.aj_entry_dircounts (DcAudit.stageListShardFiles entries) =
    find (is_dump "manta_directory_counts-") (rev entries) /\
  (DcAudit.stageCheckShardFiles (DcAudit.stageListShardFiles entries) = None
   <->
   existsb (is_dump "manta-") entries = true /\
   existsb (is_dump "manta_directory_counts-") entries = true).
Proof.
  unfold DcAudit.stageListShardFiles.
  pose proof (list_entries "manta-" DcAudit.aj_entry_manta onEntry_manta
                entries (DcAudit.mkShardFiles None None)) as H1.
  pose proof (list_entries "manta_directory_counts-"
                DcAudit.aj_entry_dircounts onEntry_dircounts
                entries (DcAudit.mkShardFiles None None)) as H2.
  cbn [DcAudit.aj_entry_manta DcAudit.aj_entry_dircounts] in H1, H2.
  assert (E1 : DcAudit.aj_entry_manta
                 (fold_left DcAudit.onEntry entries
                    (DcAudit.mkShardFiles None None)) =
               find (is_dump "manta-") (rev entries)).
  { rewrite H1. destruct (find (is_dump "manta-") (rev entries)); reflexivity. }
  assert (E2 : DcAudit.aj_entry_dircounts
                 (fold_left DcAudit.onEntry entries
                    (DcAudit.mkShardFiles None None)) =
               find (is_dump "manta_directory_counts-") (rev entries)).
  { rewrite H2.
    destruct (find (is_dump "manta_directory_counts-") (rev entries));
      reflexivity. }
  split; [exact E1|]. split; [exact E2|].
  assert (Hfind : forall p,
            (exists e, find p (rev entries) = Some e) <->
            existsb p entries = true).
  { intros p. rewrite existsb_exists. split.
    - intros (e & He). apply find_some in He. destruct He as (Hin & Hp).
      exists e. split; [apply in_rev; assumption|assumption].
    - intros (e & Hin & Hp).
      destruct (find p (rev entries)) as [e'|] eqn:E; [eauto|].
      exfalso. apply in_rev in Hin.
      pose proof (find_none _ _ E _ Hin). congruence. }
  unfold DcAudit.stageCheckShardFiles. rewrite E1, E2.
  rewrite <- !Hfind.
  destruct (find (is_dump "manta-") (rev entries)) as [e1|];
    destruct (find (is_dump "manta_directory_counts-") (rev entries)) as [e2|].
  - split; [eauto|reflexivity].
  - split; [discriminate|]. intros (_ & (e & He)). discriminate.
  - split; [discriminate|]. intros ((e & He) & _). discriminate.
  - split; [discriminate|]. intros ((e & He) & _). discriminate.
Qed.

Lemma split_lines_single path :
  single_line path = true -> DcAudit.split_lines path = [path].
Proof.
  unfold single_line. induction path as [|c path IH]; [reflexivity|].
  simpl. intros H. apply andb_prop in H. destruct H as [Hc Hp].
  apply negb_true_iff in Hc. rewrite Hc, (IH Hp). reflexivity.
Qed.

Lemma split_lines_nonempty data : DcAudit.split_lines data <> [].
Proof.
  destruct data as [|c r]; simpl; [discriminate|].
  destruct (Ascii.eqb c "010"%char); [discriminate|].
  destruct (DcAudit.split_lines r); discriminate.
Qed.

Lemma split_lines_two data path :
  DcAudit.split_lines data = [path; EmptyString] ->
  data = (path ++ String "010"%char EmptyString)%string /\
  single_line path = true.
Proof.
  revert path. induction data as [|c r IH]; intros path; simpl.
  - discriminate.
  - destruct (Ascii.eqb_spec c "010"%char) as [->|Hne].
    + intros H. injection H as <- Hr.
      destruct r as [|x r]; [split; reflexivity|].
      exfalso. simpl in Hr.
      destruct (Ascii.eqb x "010"%char).
      * injection Hr as Hr. destruct (split_lines_nonempty r Hr).
      * destruct (DcAudit.split_lines r) as [|a [|b l]]; discriminate.
    + destruct (DcAudit.split_lines r) as [|first rest] eqn:E.
      * destruct (split_lines_nonempty r E).
      * intros H. injection H as <- ->.
        destruct (IH first eq_refl) as (-> & Hs).
        split; [reflexivity|].
        unfold single_line in *. simpl. rewrite Hs.
        apply Ascii.eqb_neq in Hne. rewrite Hne. reflexivity.
Qed.

Lemma split_lines_terminated path :
  single_line path = true ->
  DcAudit.split_lines (path ++ String "010"%char EmptyString) =
  [path; EmptyString].
Proof.
  unfold single_line. induction path as [|c path IH]; [reflexivity|].
  simpl. intros H. apply andb_prop in H. destruct H as [Hc Hp].
  apply negb_true_iff in Hc. rewrite Hc, (IH Hp). reflexivity.
Qed.

(** X28. A job named by its bare id and the same job named by its
    directory under [/poseidon/jobs] have the same objects: for an id
    without a slash, [jobObjectPath] gives the same path for the id and
    for that directory, namely the directory, a slash and the name of the
    object. *)
Theorem X28_job_object_path (id obj : string) :
  DcAudit.no_slash id = true ->
  DcAudit.jobObjectPath id obj =
    DcAudit.jobObjectPath ("/poseidon/jobs/" ++ id) obj /\
  DcAudit.jobObjectPath id obj = ("/poseidon/jobs/" ++ id ++ "/" ++ obj)%string.
Proof.
  intros Hid. unfold DcAudit.jobObjectPath. rewrite Hid.
  change (DcAudit.no_slash ("/poseidon/jobs/" ++ id)) with false.
  cbn [String.concat]. split.
  - reflexivity.
  - rewrite !append_assoc. reflexivity.
Qed.

Lemma X28_job_object_path_witness :
  DcAudit.jobObjectPath "8a6d1b0c" "out.txt" =
    DcAudit.jobObjectPath ("/poseidon/jobs/" ++ "8a6d1b0c") "out.txt" /\
  DcAudit.jobObjectPath "8a6d1b0c" "out.txt" =
    ("/poseidon/jobs/" ++ "8a6d1b0c" ++ "/" ++ "out.txt")%string.
Proof.
  apply (X28_job_object_path "8a6d1b0c" "out.txt"). reflexivity.
Defined.

(** X29. Where the reporter finds the output of a job.  The contents of
    [out.txt] are taken exactly when they are one line ended by a line
    feed, with nothing after it, and that line is then the path of the
    output object; empty contents, a missing final line feed and a second
    line are all turned down as an unexpected format. *)
Theorem X29_output_path (data path : string) :
  DcAudit.output_path data = Some path <->
  data = (path ++ String "010"%char EmptyString)%string /\
  single_line path = true.
Proof.
  unfold DcAudit.output_path. split.
  - destruct (DcAudit.split_lines data) as [|p [|second [|third l]]] eqn:E;
      try discriminate.
    destruct (String.eqb_spec second EmptyString) as [->|]; [|discriminate].
    intros H. injection H as ->. apply split_lines_two. assumption.
  - intros (-> & Hs). rewrite (split_lines_terminated _ Hs). reflexivity.
Qed.

(** ** The two files exchanged *)

Lemma transform_swapped verbose r :
  List.length (row_slots r) = 2%nat ->
  AuditStream._transform verbose (swapped r) =
  option_map (map mirrored) (AuditStream._transform verbose r).
Proof.
  destruct r as [k sl]. simpl.
  destruct sl as [|e1 [|e2 [|e3 sl]]]; try discriminate. intros _.
  unfold swapped, slot, AuditStream._transform, AuditStream.emitRow,
    AuditStream.emitRowRaw, AuditStream.loose_neq, mirrored.
  cbn [row_slots row_key nth].
  destruct e1 as [[r1 k1]|], e2 as [[r2 k2]|]; cbn [fst].
  - rewrite (Z.eqb_sym r1 r2).
    destruct (r2 =? r1)%Z; cbn [negb]; [destruct verbose|]; reflexivity.
  - destruct (r1 =? 0)%Z; reflexivity.
  - destruct (r2 =? 0)%Z; reflexivity.
  - reflexivity.
Qed.

Lemma audit_swapped verbose rs :
  Forall (row_ok 2) rs ->
  Main.audit verbose (map swapped rs) =
  option_map (map mirrored) (Main.audit verbose rs).
Proof.
  induction 1 as [|r rs (Hlen & _) _ IH]; [reflexivity|].
  cbn [map Main.audit]. rewrite (transform_swapped _ _ Hlen), IH.
  destruct (AuditStream._transform verbose r) as [ds|]; [|reflexivity].
  destruct (Main.audit verbose rs) as [more|]; [|reflexivity].
  simpl. rewrite map_app. reflexivity.
Qed.

Lemma flat_map_slot_swapped i rs :
  flat_map (slot_list i) (map swapped rs) =
  match i with
  | 0%nat => flat_map (slot_list 1) rs
  | 1%nat => flat_map (slot_list 0) rs
  | _ => []
  end.
Proof.
  induction rs as [|r rs IH]; [destruct i as [|[|i]]; reflexivity|].
  cbn [map flat_map]. rewrite IH.
  destruct i as [|[|[|i]]]; reflexivity.
Qed.

Lemma swapped_row_ok r : row_ok 2 r -> row_ok 2 (swapped r).
Proof.
  intros (Hlen & (i & d & Hsl) & Hkey). split; [reflexivity|]. split.
  - pose proof (slot_some_lt _ _ _ Hsl) as Hlt. rewrite Hlen in Hlt.
    destruct i as [|[|i]]; [| |lia].
    + exists 1%nat, d. exact Hsl.
    + exists 0%nat, d. exact Hsl.
  - intros j e. unfold swapped, slot at 1. cbn [row_slots row_key].
    destruct j as [|[|[|j]]]; simpl; intros H; try discriminate;
      eapply Hkey; eassumption.
Qed.

Lemma rows_exchanged in1 in2 s1 s2 :
  well_formed in1 -> well_formed in2 ->
  ended (run s1 (create [in1; in2])) = true ->
  ended (run s2 (create [in2; in1])) = true ->
  rows (run s2 (create [in2; in1])) =
  map swapped (rows (run s1 (create [in1; in2]))).
Proof.
  intros Hw1 Hw2 E1 E2.
  pose proof (run_invariant [in1; in2] s1) as I1.
  pose proof (run_invariant [in2; in1] s2) as I2.
  assert (W1 : Forall well_formed [in1; in2]) by auto.
  assert (W2 : Forall well_formed [in2; in1]) by auto.
  destruct (run_ahead _ s1 W1) as [_ S1 _].
  destruct (run_ahead _ s2 W2) as [_ S2 _].
  apply (rows_determined 2).
  - assumption.
  - rewrite map_map. cbn [swapped row_key].
    rewrite <- (map_ext row_key (fun r => row_key r)) by reflexivity.
    assumption.
  - apply (inv_rows _ _ I2).
  - pose proof (inv_rows _ _ I1) as H. simpl in H.
    rewrite Forall_forall in *. intros r Hr.
    apply in_map_iff in Hr. destruct Hr as (r0 & <- & Hr0).
    apply swapped_row_ok. auto.
  - intros i. rewrite flat_map_slot_swapped.
    fold (joined i (run s2 (create [in2; in1]))).
    destruct i as [|[|i]].
    + rewrite (proj1 (ended_all_joined _ _ 0 in2 I2 E2 eq_refl)).
      symmetry. apply (ended_all_joined _ _ 1 in2 I1 E1 eq_refl).
    + rewrite (proj1 (ended_all_joined _ _ 1 in1 I2 E2 eq_refl)).
      symmetry. apply (ended_all_joined _ _ 0 in1 I1 E1 eq_refl).
    + apply (joined_out_of_range _ _ _ I2). simpl. lia.
Qed.

(** X30. The two files exchanged.  When the records of both files are
    strictly increasing, a complete run on the files in the other order
    writes the same records from the other side: one record for one, in
    the same order and with the same [dirname], with the two counts
    exchanged and with the status of the other side where the status names
    a side ([missing optimized count] against [leaked optimized count],
    [no optimized count] against [no entries]). *)
Theorem X30_files_exchanged (verbose : bool) (f1 f2 : list string)
    (s1 s2 : list event) (r1 r2 : Main.result) :
  well_formed (SplitStream.pushed (SplitStream.run f1)) ->
  well_formed (SplitStream.pushed (SplitStream.run f2)) ->
  Main.auditcounts verbose [f1; f2] s1 = Some r1 ->
  Main.auditcounts verbose [f2; f1] s2 = Some r2 ->
  Main.completed r1 = true -> Main.completed r2 = true ->
  Main.diagnostics r2 = option_map (map mirrored) (Main.diagnostics r1).
Proof.
  intros W1 W2 H1 H2 C1 C2.
  destruct (auditcounts_result _ _ _ _ _ H1) as (D1 & E1 & _).
  destruct (auditcounts_result _ _ _ _ _ H2) as (D2 & E2 & _).
  rewrite D1, D2. rewrite E1 in C1. rewrite E2 in C2.
  rewrite (rows_exchanged _ _ s1 s2 W1 W2 C1 C2).
  apply audit_swapped.
  exact (inv_rows _ _
           (run_invariant [SplitStream.pushed (SplitStream.run f1);
                           SplitStream.pushed (SplitStream.run f2)] s1)).
Qed.

Lemma X30_files_exchanged_witness :
  Some [ AuditStream.mkDiagnostic (JSON.quoted "b") 0 5
           "error: count mismatch";
         AuditStream.mkDiagnostic (JSON.quoted "c") 0 2
           "error: count mismatch (no entries)";
         AuditStream.mkDiagnostic (JSON.quoted "d") 7 0
           "error: count mismatch (no optimized count)" ] =
  option_map (map mirrored)
    (Some [ AuditStream.mkDiagnostic (JSON.quoted "b") 5 0
              "error: count mismatch";
            AuditStream.mkDiagnostic (JSON.quoted "c") 2 0
              "error: count mismatch (no optimized count)";
            AuditStream.mkDiagnostic (JSON.quoted "d") 0 7
              "error: count mismatch (no entries)" ]).
Proof.
  apply (X30_files_exchanged false scenario_A scenario_B
           (Main.eager [scenario_A; scenario_B])
           (Main.eager [scenario_B; scenario_A])
           (Main.mkResult
              (Some [ AuditStream.mkDiagnostic (JSON.quoted "b") 5 0
                        "error: count mismatch";
                      AuditStream.mkDiagnostic (JSON.quoted "c") 2 0
                        "error: count mismatch (no optimized count)";
                      AuditStream.mkDiagnostic (JSON.quoted "d") 0 7
                        "error: count mismatch (no entries)" ])
              0 true false)
           (Main.mkResult
              (Some [ AuditStream.mkDiagnostic (JSON.quoted "b") 0 5
                        "error: count mismatch";
                      AuditStream.mkDiagnostic (JSON.quoted "c") 0 2
                        "error: count mismatch (no entries)";
                      AuditStream.mkDiagnostic (JSON.quoted "d") 7 0
                        "error: count mismatch (no optimized count)" ])
              0 true false));
    try reflexivity; vm_compute; repeat constructor.
Defined.
